(** * Wormhole-Control: order execution and movement planning

    A shallow embedding of the pathfinding, geometry, unit-component,
    order and turn-processing code, followed by the properties proved
    about it.

    Conventions of the embedding.
    - Python [int] is [Z] (unbounded); counters that never go below zero
      are still [Z], as in the source.
    - Python [float] coordinates and radii are real numbers ([R]) in the
      geometry and the unit model, and exact rationals ([Q]) in the hex
      interpolation of [pathfinding.py], where the code rounds them.
      Rounding error of the machine arithmetic is outside the model,
      except in [ColonyTransfer], which moves colonists on the [int] or
      binary64 [float] that Python holds ([PyNumber]).
    - A [dict] is a [gmap]; [deque] and [list] are [list].
    - A raised exception is an explicit result constructor. *)

From Stdlib Require Import ZArith QArith Qabs Qround Reals Lra Lia List.
From Stdlib Require Floats.
From stdpp Require Import gmap strings list fin_maps.

Local Open Scope Z_scope.

(** utils.py: [HexCoord = Tuple[int, int]], axial (q, r). *)
Definition HexCoord : Type := Z * Z.

(** Exceptions the modelled code can raise.  [RecursionError] is what
    Python raises when the interpreter's recursion limit is reached. *)
Inductive exn : Type :=
| KeyError
| ZeroDivisionError
| ValueError
| TypeError
| AttributeError
| RecursionError.

(** Outcome of a modelled call.  [OutOfFuel] is not a Python outcome:
    it marks a loop of the model that was cut off before it finished. *)
Inductive result (A : Type) : Type :=
| Ok (a : A)
| Raise (e : exn)
| OutOfFuel.
Arguments Ok {A} a.
Arguments Raise {A} e.
Arguments OutOfFuel {A}.

Definition bind {A B} (m : result A) (k : A -> result B) : result B :=
  match m with
  | Ok a => k a
  | Raise e => Raise e
  | OutOfFuel => OutOfFuel
  end.

Notation "'do' x <- m ; k" := (bind m (fun x => k))
  (at level 10, x name, m at level 100, k at level 200).
Notation "'do' ' p <- m ; k" := (bind m (fun x => match x with p => k end))
  (at level 10, p pattern, m at level 100, k at level 200).

(* ================================================================== *)
(** ** pathfinding.py, hex part *)
(* ================================================================== *)

Module HexPath.

(** geometry.py, [hex_distance]: [//] is floor division, the dividend
    is never negative. *)
Definition hex_distance (a b : HexCoord) : Z :=
  let '(q1, r1) := a in
  let '(q2, r2) := b in
  (Z.abs (q1 - q2) + Z.abs (q1 + r1 - q2 - r2) + Z.abs (r1 - r2)) / 2.

Definition Cube : Type := Q * Q * Q.
Definition ICube : Type := Z * Z * Z.

Definition _axial_to_cube (h : HexCoord) : Cube :=
  let '(q, r) := h in
  let x := inject_Z q in
  let z := inject_Z r in
  let y := (- x - z)%Q in
  (x, y, z).

(** Python 3 [round] on a float: nearest integer, ties to the even one. *)
Definition py_round (x : Q) : Z :=
  let f := Qfloor x in
  match ((x - inject_Z f) ?= (1 # 2))%Q with
  | Lt => f
  | Gt => f + 1
  | Eq => if Z.even f then f else f + 1
  end.

Definition Qgtb (a b : Q) : bool :=
  match (a ?= b)%Q with Gt => true | _ => false end.

Definition _cube_round (cube : Cube) : ICube :=
  let '(c0, c1, c2) := cube in
  let rx := py_round c0 in
  let ry := py_round c1 in
  let rz := py_round c2 in
  let x_diff := Qabs (inject_Z rx - c0) in
  let y_diff := Qabs (inject_Z ry - c1) in
  let z_diff := Qabs (inject_Z rz - c2) in
  if Qgtb x_diff y_diff && Qgtb x_diff z_diff then (- ry - rz, ry, rz)
  else if Qgtb y_diff z_diff then (rx, - rx - rz, rz)
  else (rx, ry, - rx - ry).

Definition _cube_to_axial (cube : ICube) : HexCoord :=
  let '(x, _, z) := cube in (x, z).

Definition _cube_lerp (a b : Cube) (t : Q) : Cube :=
  let '(a0, a1, a2) := a in
  let '(b0, b1, b2) := b in
  (a0 + (b0 - a0) * t, a1 + (b1 - a1) * t, a2 + (b2 - a2) * t)%Q.

Definition hex_eqb (a b : HexCoord) : bool :=
  (fst a =? fst b) && (snd a =? snd b).

(** The body of [for i in range(1, int(num_segments) + 1)], threaded
    over the list of indices; [path] is the list built so far. *)
Definition waypoint_step (start_cube end_cube : Cube) (num_segments : Z)
    (path : list HexCoord) (i : Z) : list HexCoord :=
  let t := (inject_Z i / inject_Z num_segments)%Q in
  let interpolated_cube := _cube_lerp start_cube end_cube t in
  let rounded_cube := _cube_round interpolated_cube in
  let waypoint_hex := _cube_to_axial rounded_cube in
  match last path with
  | None => path ++ [waypoint_hex]
  | Some l => if hex_eqb l waypoint_hex then path else path ++ [waypoint_hex]
  end.

(** [range(1, n + 1)]; empty when [n <= 0]. *)
Definition range1 (n : Z) : list Z :=
  (fun k => Z.of_nat k + 1) <$> seq 0 (Z.to_nat n).

(** [path[-1] = x] on a non-empty list. *)
Definition set_last {A} (l : list A) (x : A) : list A :=
  removelast l ++ [x].

(** [find_hex_jump_path]; the [print] calls are dropped.  A zero
    [max_range] with distinct hexes divides by zero;
    [math.ceil(d / r)] is the exact ceiling of the quotient. *)
Definition find_hex_jump_path (start_hex end_hex : HexCoord) (max_range : Z)
    : result (list HexCoord) :=
  let total_distance := hex_distance start_hex end_hex in
  if total_distance <=? max_range then Ok [end_hex]
  else if max_range =? 0 then Raise ZeroDivisionError
  else
    let start_cube := _axial_to_cube start_hex in
    let end_cube := _axial_to_cube end_hex in
    let num_segments := Qceiling (inject_Z total_distance / inject_Z max_range) in
    let path :=
      fold_left (waypoint_step start_cube end_cube num_segments)
                (range1 num_segments) [] in
    match last path with
    | None => Ok (path ++ [end_hex])
    | Some l =>
        if hex_eqb l end_hex then Ok path
        else if hex_distance l end_hex =? 0 then Ok (set_last path end_hex)
        else Ok (path ++ [end_hex])
    end.

(** The property the docstring promises: every hop of the route that
    starts at [from] stays within [max_range]. *)
Fixpoint hops_within (max_range : Z) (from : HexCoord) (path : list HexCoord) : bool :=
  match path with
  | [] => true
  | w :: rest => (hex_distance from w <=? max_range) && hops_within max_range w rest
  end.

End HexPath.

(* ================================================================== *)
(** ** hexgrid_utils.py *)
(* ================================================================== *)

Module HexGrid.
Import HexPath.

(** [hex_round]: fractional axial coordinates to the nearest hex. *)
Definition hex_round (q_frac r_frac : Q) : HexCoord :=
  let s_frac := (- q_frac - r_frac)%Q in
  let q := py_round q_frac in
  let r := py_round r_frac in
  let s := py_round s_frac in
  let q_diff := Qabs (inject_Z q - q_frac) in
  let r_diff := Qabs (inject_Z r - r_frac) in
  let s_diff := Qabs (inject_Z s - s_frac) in
  if Qgtb q_diff r_diff && Qgtb q_diff s_diff then (- r - s, r)
  else if Qgtb r_diff s_diff then (q, - q - s)
  else (q, r).

(** hexgrid_utils.py [hex_distance], on four integers. *)
Definition hex_distance (q1 r1 q2 r2 : Z) : Z :=
  let dq := q1 - q2 in
  let dr := r1 - r2 in
  let ds := (- q1 - r1) - (- q2 - r2) in
  (Z.abs dq + Z.abs dr + Z.abs ds) / 2.

End HexGrid.


(* ================================================================== *)
(** ** geometry.py *)
(* ================================================================== *)

Module Geometry.
Local Open Scope R_scope.

Definition Rleb (a b : R) : bool := if Rle_dec a b then true else false.
Definition Rltb (a b : R) : bool := if Rlt_dec a b then true else false.
Definition Reqb (a b : R) : bool := if Req_dec_T a b then true else false.

Record Vector : Type := mkVector { x : R; y : R }.

(** [Position = Vector]. *)
Definition Position : Type := Vector.
Definition mkPosition : R -> R -> Position := mkVector.

Definition Vector_add (a b : Vector) : Vector := mkVector (x a + x b) (y a + y b).
Definition Vector_sub (a b : Vector) : Vector := mkVector (x a - x b) (y a - y b).
Definition Vector_mul (a : Vector) (scalar : R) : Vector :=
  mkVector (x a * scalar) (y a * scalar).

(** The dataclass [__eq__]: fieldwise equality. *)
Definition Vector_eqb (a b : Vector) : bool := Reqb (x a) (x b) && Reqb (y a) (y b).

Definition magnitude_sq (v : Vector) : R := x v ^ 2 + y v ^ 2.
Definition magnitude (v : Vector) : R := sqrt (magnitude_sq v).

Definition normalize (v : Vector) : Vector :=
  let mag := magnitude v in
  if Reqb mag 0 then mkVector 0 0
  else mkVector (x v / mag) (y v / mag).

Definition distance_sq (p1 p2 : Position) : R :=
  (x p1 - x p2) ^ 2 + (y p1 - y p2) ^ 2.

Definition distance (p1 p2 : Position) : R := sqrt (distance_sq p1 p2).

Record Circle : Type := mkCircle { center : Position; radius : R }.

Definition is_point_in_circle (point : Position) (circle : Circle) : bool :=
  Rleb (distance_sq point (center circle)) (radius circle ^ 2).

Definition do_circles_intersect (c1 c2 : Circle) : bool :=
  let dist_sq := distance_sq (center c1) (center c2) in
  let radii_sum_sq := (radius c1 + radius c2) ^ 2 in
  Rltb dist_sq radii_sum_sq.

Definition is_circle_contained (inner outer : Circle) : bool :=
  let dist := distance (center inner) (center outer) in
  Rleb (dist + radius inner) (radius outer).

Definition get_closest_point_on_circle_edge (point : Position) (circle : Circle)
    : Position :=
  let epsilon_radius := radius circle * (10001 / 10000) in
  if Vector_eqb point (center circle) then
    mkPosition (x (center circle) + epsilon_radius) (y (center circle))
  else
    let direction := normalize (Vector_sub point (center circle)) in
    Vector_add (center circle) (Vector_mul direction epsilon_radius).

(** geometry.py [move_towards_position] (the one the orders import):
    a point at [desired_distance_from_target] from the target, on the
    side of the current position. *)
Definition move_towards_position (current_pos target_pos : Position)
    (desired_distance_from_target : R) : Position :=
  let vector_from_target_to_current := Vector_sub current_pos target_pos in
  if Rltb (magnitude_sq vector_from_target_to_current) (1 / 1000000000) then
    Vector_add target_pos (mkVector desired_distance_from_target 0)
  else
    let direction_from_target := normalize vector_from_target_to_current in
    Vector_add target_pos (Vector_mul direction_from_target desired_distance_from_target).

End Geometry.

(** sector_utils.py [move_towards_position] (the one the turn
    processor imports): one sub-light step of at most [max_distance]. *)
Module SectorUtils.
Import Geometry.
Local Open Scope R_scope.

Definition move_towards_position (current target : Position) (max_distance : R)
    : Position :=
  let dist := distance current target in
  if Rleb dist max_distance then target
  else
    let dx := x target - x current in
    let dy := y target - y current in
    let scale := max_distance / dist in
    mkPosition (x current + dx * scale) (y current + dy * scale).

End SectorUtils.

(* ================================================================== *)
(** ** pathfinding.py, inter-system part *)
(* ================================================================== *)

Module InterSystem.

(** [Graph = Dict[str, List[str]]], [Path = List[str]]. *)
Abbreviation Graph := (gmap string (list string)).
Abbreviation Path := (list string).

(** A heap entry [(distance, node_name)].  Hop counts start at 0 and
    grow by one, so they are [nat]; [float('inf')] is [None] in the
    [distances] dictionary. *)
Definition entry : Type := nat * string.

(** Tuple comparison [a < b]: first component, then the string. *)
Definition entry_ltb (a b : entry) : bool :=
  (fst a <? fst b)%nat || ((fst a =? fst b)%nat && String.ltb (snd a) (snd b)).

(** [heapq] keeps a binary heap in a list.  Only the values popped are
    observed, and [heappop] always returns a least entry, so the queue
    is a bag of entries: [heappush] adds one, [heappop] removes a
    least one. *)
Definition heappush (q : list entry) (e : entry) : list entry := e :: q.

Fixpoint extract_min (e : entry) (q : list entry) : entry * list entry :=
  match q with
  | [] => (e, [])
  | e' :: q' =>
      let '(m, r) := extract_min e' q' in
      if entry_ltb m e then (m, e :: r) else (e, q)
  end.

Definition heappop (q : list entry) : option (entry * list entry) :=
  match q with
  | [] => None
  | e :: q' => Some (extract_min e q')
  end.

Record state : Type := mkState {
  distances : gmap string (option nat);
  predecessors : gmap string (option string);
  priority_queue : list entry
}.

(** [n < d] and [n > d] against a possibly infinite [d]. *)
Definition lt_dist (n : nat) (d : option nat) : bool :=
  match d with None => true | Some k => (n <? k)%nat end.
Definition gt_dist (n : nat) (d : option nat) : bool :=
  match d with None => false | Some k => (k <? n)%nat end.

(** [for neighbor in graph[current_node]: ...]. *)
Fixpoint relax (current_node : string) (current_distance : nat)
    (neighbors : list string) (st : state) : result state :=
  match neighbors with
  | [] => Ok st
  | neighbor :: rest =>
      let distance_to_neighbor := (current_distance + 1)%nat in
      match distances st !! neighbor with
      | None => Raise KeyError
      | Some d =>
          if lt_dist distance_to_neighbor d then
            relax current_node current_distance rest
              {| distances := <[neighbor := Some distance_to_neighbor]> (distances st);
                 predecessors := <[neighbor := Some current_node]> (predecessors st);
                 priority_queue :=
                   heappush (priority_queue st) (distance_to_neighbor, neighbor) |}
          else relax current_node current_distance rest st
      end
  end.

(** The path reconstruction loop [while node_trace is not None].  A
    chain longer than the dictionary has a cycle, on which the Python
    loop would not stop. *)
Fixpoint trace (fuel : nat) (preds : gmap string (option string))
    (node_trace : option string) (path : list string) : result (list string) :=
  match node_trace with
  | None => Ok path
  | Some n =>
      match fuel with
      | O => OutOfFuel
      | S fuel' =>
          match preds !! n with
          | None => Raise KeyError
          | Some p => trace fuel' preds p (path ++ [n])
          end
      end
  end.

(** The main loop [while priority_queue]. *)
Fixpoint search (fuel : nat) (graph : Graph) (end_node : string) (st : state)
    : result (option Path) :=
  match fuel with
  | O => OutOfFuel
  | S fuel' =>
      match heappop (priority_queue st) with
      | None => Ok None
      | Some ((current_distance, current_node), q') =>
          let st := {| distances := distances st;
                       predecessors := predecessors st;
                       priority_queue := q' |} in
          match distances st !! current_node with
          | None => Raise KeyError
          | Some d =>
              if gt_dist current_distance d then search fuel' graph end_node st
              else if bool_decide (current_node = end_node) then
                do path <- trace (S (size (predecessors st))) (predecessors st)
                                 (Some end_node) [];
                Ok (Some (rev path))
              else
                match graph !! current_node with
                | Some neighbors =>
                    do st' <- relax current_node current_distance neighbors st;
                    search fuel' graph end_node st'
                | None => search fuel' graph end_node st
                end
          end
      end
  end.

(** [find_intersystem_path].  Every iteration of the main loop pops one
    entry, and an entry is pushed only when a distance drops; the model
    gives the loop one more iteration than the graph has nodes. *)
Definition find_intersystem_path (graph : Graph) (start_node end_node : string)
    : result (option Path) :=
  if negb (bool_decide (is_Some (graph !! start_node)))
     || negb (bool_decide (is_Some (graph !! end_node)))
  then Ok None
  else if bool_decide (start_node = end_node) then Ok (Some [start_node])
  else
    let distances := <[start_node := Some 0%nat]> ((fun _ => None) <$> graph) in
    let predecessors := (fun _ => @None string) <$> graph in
    search (S (size graph)) graph end_node
      {| distances := distances;
         predecessors := predecessors;
         priority_queue := [(0%nat, start_node)] |}.

(** A walk of the graph: consecutive nodes are joined by an edge. *)
Definition edge (graph : Graph) (u v : string) : Prop :=
  exists ns, graph !! u = Some ns /\ v ∈ ns.

Inductive walk (graph : Graph) : string -> list string -> string -> Prop :=
| walk_one u : is_Some (graph !! u) -> walk graph u [u] u
| walk_cons u v p w :
    edge graph u v -> walk graph v p w -> walk graph u (u :: p) w.

(** Every name listed as a neighbour is itself a key. *)
Definition closed (graph : Graph) : Prop :=
  forall u ns v, graph !! u = Some ns -> v ∈ ns -> is_Some (graph !! v).

End InterSystem.

(* ================================================================== *)
(** ** An insertion-ordered dictionary

    Python [dict]s iterate in insertion order.  Where the code takes the
    first match of such an iteration the dictionary is an association
    list with unique keys: assignment replaces in place or appends. *)
(* ================================================================== *)

Module ODict.
Section ODict.
Context {V : Type}.

Fixpoint get (k : Z) (d : list (Z * V)) : option V :=
  match d with
  | [] => None
  | (k', v) :: d' => if k' =? k then Some v else get k d'
  end.

Fixpoint set (k : Z) (v : V) (d : list (Z * V)) : list (Z * V) :=
  match d with
  | [] => [(k, v)]
  | (k', v') :: d' => if k' =? k then (k, v) :: d' else (k', v') :: set k v d'
  end.

Fixpoint del (k : Z) (d : list (Z * V)) : list (Z * V) :=
  match d with
  | [] => []
  | (k', v') :: d' => if k' =? k then d' else (k', v') :: del k d'
  end.

Definition mem (k : Z) (d : list (Z * V)) : bool :=
  match get k d with Some _ => true | None => false end.

Definition values (d : list (Z * V)) : list V := snd <$> d.

End ODict.
End ODict.

(* ================================================================== *)
(** ** entities.py, unit_components.py, galaxy.py: the data *)
(* ================================================================== *)

Module Entities.
Import Geometry.

Inductive HyperdriveType : Type := BASIC | ADVANCED.

Inductive JumpStatus : Type := CHARGING | READY | JUMPING | ERROR.

(** [Wormhole(CelestialBody)].  The [GameObject] fields carry the
    prefix [wh_]. *)
Record Wormhole : Type := mkWormhole {
  wh_id : Z;
  wh_in_system : string;
  wh_in_hex : HexCoord;
  wh_position : Position;
  exit_system_name : string;
  exit_wormhole_id : option Z
}.

Record Engines : Type := mkEngines {
  speed : R;
  move_target : option Position
}.

Record Hyperdrive : Type := mkHyperdrive {
  drive_type : HyperdriveType;
  jump_range : Z;
  hex_jump_target : option (HexCoord * Position);
  wormhole_jump_target : option Wormhole;
  jump_status : JumpStatus;
  recharge_time_remaining : Z;
  RECHARGE_DURATION : Z
}.

(** [HyperspaceInhibitionFieldEmitter]; its [radius] is [field_radius]
    here, [Circle] owns the plain name. *)
Record HyperspaceInhibitionFieldEmitter : Type := mkEmitter {
  field_radius : R;
  is_active : bool
}.

Record ColonyComponent : Type := mkColony {
  population_cargo : Z;
  max_cargo : Z
}.

(** [Turret]; [target] is the id of the targeted unit. *)
Record Turret : Type := mkTurret {
  damage : R;
  range : R;
  cooldown : Z;
  current_cooldown : Z;
  target : option Z
}.

Record Weapons : Type := mkWeapons { turrets : list Turret }.

Record BuildableUnit : Type := mkBuildable {
  bu_unit_template_name : string;
  bu_time_to_build : Z;
  cost_credits : Z
}.

Record Constructor : Type := mkConstructor {
  buildable_units : list BuildableUnit;
  current_construction_target : option (string * Position);
  construction_progress : Z;
  time_to_build : Z
}.

(** [Player]: only the balance the core touches.  Players are compared
    by identity, which is their [id]. *)
Record Player : Type := mkPlayer {
  player_id : Z;
  credits : R
}.

(** A colonisable body ([Planet], [Moon], [Asteroid]); the [GameObject]
    fields carry the prefix [body_]. *)
Record Planet : Type := mkPlanet {
  body_id : Z;
  body_in_system : string;
  body_in_hex : HexCoord;
  body_position : Position;
  body_owner : option Z;
  population : R;
  max_population : R;
  population_growth_rate : R
}.

(** The unit that the modelled commander commands.  [owner] is the
    owning player's id; [in_galaxy] tells whether [unit.in_galaxy] is
    set (it is then the game's galaxy). *)
Record Unit : Type := mkUnit {
  id : Z;
  owner : Z;
  in_galaxy : bool;
  in_system : option string;
  in_hex : HexCoord;
  position : Position;
  current_hit_points : Z;
  engines_component : option Engines;
  hyperdrive_component : option Hyperdrive;
  inhibitor_component : option HyperspaceInhibitionFieldEmitter;
  weapons_component : option Weapons;
  colony_component : option ColonyComponent;
  constructor_component : option Constructor
}.

(** What the code reads and writes of any other unit. *)
Record OtherUnit : Type := mkOther {
  ou_in_galaxy : bool;
  ou_in_system : option string;
  ou_in_hex : HexCoord;
  ou_position : Position;
  ou_current_hit_points : Z
}.

(** [Hex]: [units] lists the ids of the units in the cell. *)
Record Hex : Type := mkHex {
  boundary_circle : Circle;
  static_inhibition_zones : list Circle;
  dynamic_inhibition_zones : list (Z * Circle);
  units : list Z
}.

Definition get_all_inhibition_zones (h : Hex) : list Circle :=
  static_inhibition_zones h ++ ODict.values (dynamic_inhibition_zones h).

Record StarSystem : Type := mkSystem {
  hexes : gmap HexCoord Hex
}.

Record Galaxy : Type := mkGalaxy {
  systems : gmap string StarSystem;
  wormholes : list (Z * Wormhole);
  system_graph : gmap string (list string);
  celestial_bodies_by_id : gmap Z Planet
}.

End Entities.

(* ================================================================== *)
(** ** unit_components.py: component methods *)
(* ================================================================== *)

Module Components.
Import Geometry Entities.

(** [Hyperdrive.__init__]. *)
Definition Hyperdrive_init (drive_type_value : HyperdriveType) (recharge_duration : Z)
    (jump_range_value : Z) : Hyperdrive :=
  {| drive_type := drive_type_value;
     jump_range := jump_range_value;
     hex_jump_target := None;
     wormhole_jump_target := None;
     jump_status := READY;
     recharge_time_remaining := 0;
     RECHARGE_DURATION := recharge_duration |}.

(** [Hyperdrive.start_recharge]. *)
Definition start_recharge (hd : Hyperdrive) : Hyperdrive :=
  {| drive_type := drive_type hd;
     jump_range := jump_range hd;
     hex_jump_target := None;
     wormhole_jump_target := None;
     jump_status := CHARGING;
     recharge_time_remaining := RECHARGE_DURATION hd;
     RECHARGE_DURATION := RECHARGE_DURATION hd |}.

Definition set_jump_status (hd : Hyperdrive) (s : JumpStatus) : Hyperdrive :=
  {| drive_type := drive_type hd;
     jump_range := jump_range hd;
     hex_jump_target := hex_jump_target hd;
     wormhole_jump_target := wormhole_jump_target hd;
     jump_status := s;
     recharge_time_remaining := recharge_time_remaining hd;
     RECHARGE_DURATION := RECHARGE_DURATION hd |}.

Definition set_recharge_time_remaining (hd : Hyperdrive) (n : Z) : Hyperdrive :=
  {| drive_type := drive_type hd;
     jump_range := jump_range hd;
     hex_jump_target := hex_jump_target hd;
     wormhole_jump_target := wormhole_jump_target hd;
     jump_status := jump_status hd;
     recharge_time_remaining := n;
     RECHARGE_DURATION := RECHARGE_DURATION hd |}.

Definition set_hex_jump_target (hd : Hyperdrive) (t : option (HexCoord * Position))
    : Hyperdrive :=
  {| drive_type := drive_type hd;
     jump_range := jump_range hd;
     hex_jump_target := t;
     wormhole_jump_target := wormhole_jump_target hd;
     jump_status := jump_status hd;
     recharge_time_remaining := recharge_time_remaining hd;
     RECHARGE_DURATION := RECHARGE_DURATION hd |}.

Definition set_wormhole_jump_target (hd : Hyperdrive) (t : option Wormhole)
    : Hyperdrive :=
  {| drive_type := drive_type hd;
     jump_range := jump_range hd;
     hex_jump_target := hex_jump_target hd;
     wormhole_jump_target := t;
     jump_status := jump_status hd;
     recharge_time_remaining := recharge_time_remaining hd;
     RECHARGE_DURATION := RECHARGE_DURATION hd |}.

Definition JumpStatus_eqb (a b : JumpStatus) : bool :=
  match a, b with
  | CHARGING, CHARGING | READY, READY | JUMPING, JUMPING | ERROR, ERROR => true
  | _, _ => false
  end.

(** [Hyperdrive.update_recharge]. *)
Definition update_recharge (hd : Hyperdrive) : Hyperdrive :=
  if JumpStatus_eqb (jump_status hd) CHARGING && (0 <? recharge_time_remaining hd) then
    let hd1 := set_recharge_time_remaining hd (recharge_time_remaining hd - 1) in
    if recharge_time_remaining hd1 <=? 0 then
      set_recharge_time_remaining (set_jump_status hd1 READY) 0
    else hd1
  else hd.

Definition set_move_target (e : Engines) (t : option Position) : Engines :=
  {| speed := speed e; move_target := t |}.

(** [HyperspaceInhibitionFieldEmitter.turn_on] and [turn_off]. *)
Definition turn_on (e : HyperspaceInhibitionFieldEmitter) : HyperspaceInhibitionFieldEmitter :=
  {| field_radius := field_radius e; is_active := true |}.
Definition turn_off (e : HyperspaceInhibitionFieldEmitter) : HyperspaceInhibitionFieldEmitter :=
  {| field_radius := field_radius e; is_active := false |}.

Definition owner_eqb (o : option Z) (p : Z) : bool :=
  match o with Some q => q =? p | None => false end.

Definition set_population (planet : Planet) (o : option Z) (pop : R) : Planet :=
  {| body_id := body_id planet;
     body_in_system := body_in_system planet;
     body_in_hex := body_in_hex planet;
     body_position := body_position planet;
     body_owner := o;
     population := pop;
     max_population := max_population planet;
     population_growth_rate := population_growth_rate planet |}.

(** [ColonyComponent.load_population]; [unit_owner] is
    [self.unit.owner].  Returns the component, the planet and the
    boolean result.  Here the population is read as a real number, as
    everywhere in the unit model; [ColonyTransfer.load_population] is
    the same method on the [int] or [float] that Python holds. *)
Definition load_population (unit_owner : Z) (c : ColonyComponent) (planet : Planet)
    (amount : Z) : ColonyComponent * Planet * bool :=
  if negb (owner_eqb (body_owner planet) unit_owner) then (c, planet, false)
  else if Rltb (population planet) (IZR amount) then (c, planet, false)
  else if max_cargo c <? population_cargo c + amount then (c, planet, false)
  else
    ({| population_cargo := population_cargo c + amount; max_cargo := max_cargo c |},
     set_population planet (body_owner planet) (population planet - IZR amount)%R,
     true).

(** [ColonyComponent.unload_population], with the population read as a
    real number; see [ColonyTransfer.unload_population]. *)
Definition unload_population (unit_owner : Z) (c : ColonyComponent) (planet : Planet)
    (amount : Z) : ColonyComponent * Planet * bool :=
  if population_cargo c <? amount then (c, planet, false)
  else
    let planet1 :=
      match body_owner planet with
      | None => set_population planet (Some unit_owner) (population planet)
      | Some _ => planet
      end in
    if negb (owner_eqb (body_owner planet1) unit_owner) then (c, planet1, false)
    else
      ({| population_cargo := population_cargo c - amount; max_cargo := max_cargo c |},
       set_population planet1 (body_owner planet1) (population planet1 + IZR amount)%R,
       true).

(** [Planet.update_population] (the same code in [Moon], [Asteroid]). *)
Definition update_population (planet : Planet) : Planet :=
  match body_owner planet with
  | Some _ =>
      if Rltb (population planet) (max_population planet) then
        let pop := (population planet
                    + population planet * population_growth_rate planet)%R in
        set_population planet (body_owner planet)
          (if Rltb (max_population planet) pop then max_population planet else pop)
      else planet
  | None => planet
  end.

(** [Constructor.can_build]. *)
Definition can_build (c : Constructor) (unit_template_name : string)
    : option BuildableUnit :=
  List.find (fun bu => bool_decide (bu_unit_template_name bu = unit_template_name))
            (buildable_units c).

(** [Turret.update]. *)
Definition Turret_update (t : Turret) : Turret :=
  if 0 <? current_cooldown t then
    {| damage := damage t; range := range t; cooldown := cooldown t;
       current_cooldown := current_cooldown t - 1; target := target t |}
  else t.

Definition Turret_set_target (t : Turret) (tg : option Z) : Turret :=
  {| damage := damage t; range := range t; cooldown := cooldown t;
     current_cooldown := current_cooldown t; target := tg |}.

(** [Weapons.set_target]. *)
Definition set_target (w : Weapons) (target_unit : Z) : Weapons :=
  {| turrets := (fun t => Turret_set_target t (Some target_unit)) <$> turrets w |}.

End Components.

(* ================================================================== *)
(** ** unit_components.py: the colony transfer on Python's numbers *)
(* ================================================================== *)

(** [planet.population] is annotated [float] and starts as the [int]
    [0]: it is an [int] as long as only colonists are moved, and a
    binary64 [float] from the first [update_population] that grows it.
    The two transfer methods are embedded here on that number itself,
    with the arithmetic of each kind: exact on an [int], rounded to the
    nearest binary64 value (ties to even) on a [float]. *)
Module PyNumber.
Import Floats.

Inductive number : Type :=
| Int (z : Z)
| Float (f : float).

(** The conversion of an [int] operand to [float] in mixed arithmetic:
    the nearest binary64 value; [None] stands for the [OverflowError]
    ("int too large to convert to float") when that value is not
    finite. *)
Definition float_of_int (z : Z) : option float :=
  let f := SF2Prim (binary_normalize prec emax z 0 false) in
  if PrimFloat.is_infinity f then None else Some f.

(** [f < z] for a [float] and an [int]: Python compares the two exact
    values; a NaN is not below anything. *)
Definition float_lt_int (f : float) (z : Z) : bool :=
  match Prim2SF f with
  | S754_nan => false
  | S754_infinity negative => negative
  | S754_zero _ => 0 <? z
  | S754_finite negative m e =>
      let v := if negative then Z.neg m else Z.pos m in
      if 0 <=? e then v * 2 ^ e <? z else v <? z * 2 ^ (- e)
  end.

(** [n < z], [n - z] and [n + z] for an [int] [z]. *)
Definition lt_int (n : number) (z : Z) : bool :=
  match n with
  | Int m => m <? z
  | Float f => float_lt_int f z
  end.

Definition sub_int (n : number) (z : Z) : option number :=
  match n with
  | Int m => Some (Int (m - z))
  | Float f =>
      match float_of_int z with
      | Some fz => Some (Float (PrimFloat.sub f fz))
      | None => None
      end
  end.

Definition add_int (n : number) (z : Z) : option number :=
  match n with
  | Int m => Some (Int (m + z))
  | Float f =>
      match float_of_int z with
      | Some fz => Some (Float (PrimFloat.add f fz))
      | None => None
      end
  end.

End PyNumber.

Module ColonyTransfer.
Import Entities Components PyNumber.

(** What the two methods read and write of the planet. *)
Record Planet : Type := mkPlanet {
  planet_owner : option Z;
  population : number
}.

(** How a call ends: it returns its boolean, or it raises
    [OverflowError]; either way with the component and the planet as
    the call leaves them. *)
Inductive outcome : Type :=
| Returns (c : ColonyComponent) (planet : Planet) (result : bool)
| RaisesOverflowError (c : ColonyComponent) (planet : Planet).

(** [ColonyComponent.load_population]; [unit_owner] is
    [self.unit.owner]. *)
Definition load_population (unit_owner : Z) (c : ColonyComponent) (planet : Planet)
    (amount : Z) : outcome :=
  if negb (owner_eqb (planet_owner planet) unit_owner) then Returns c planet false
  else if lt_int (population planet) amount then Returns c planet false
  else if max_cargo c <? population_cargo c + amount then Returns c planet false
  else
    match sub_int (population planet) amount with
    | None => RaisesOverflowError c planet
    | Some pop =>
        Returns {| population_cargo := population_cargo c + amount;
                   max_cargo := max_cargo c |}
                {| planet_owner := planet_owner planet; population := pop |}
                true
    end.

(** [ColonyComponent.unload_population]. *)
Definition unload_population (unit_owner : Z) (c : ColonyComponent) (planet : Planet)
    (amount : Z) : outcome :=
  if population_cargo c <? amount then Returns c planet false
  else
    let planet1 :=
      match planet_owner planet with
      | None => {| planet_owner := Some unit_owner; population := population planet |}
      | Some _ => planet
      end in
    if negb (owner_eqb (planet_owner planet1) unit_owner) then Returns c planet1 false
    else
      match add_int (population planet1) amount with
      | None => RaisesOverflowError c planet1
      | Some pop =>
          Returns {| population_cargo := population_cargo c - amount;
                     max_cargo := max_cargo c |}
                  {| planet_owner := planet_owner planet1; population := pop |}
                  true
      end.

End ColonyTransfer.

(* ================================================================== *)
(** ** The state one unit's orders act on *)
(* ================================================================== *)

Module Game.
Import Geometry Entities Components.

(** Everything outside the order tree that the orders of one unit and
    that unit's share of a turn read or write: the unit, the galaxy, the
    other units, the players, the class counters [GameObject.object_counter]
    and [Order.order_counter], and the values that [random.random()]
    will return. *)
Record World : Type := mkWorld {
  unit : Unit;
  galaxy : Galaxy;
  other_units : gmap Z OtherUnit;
  players : list Player;
  object_counter : Z;
  order_counter : Z;
  random_stream : nat -> R;
  random_draws : nat
}.

Definition with_unit (w : World) (u : Unit) : World :=
  {| unit := u; galaxy := galaxy w; other_units := other_units w;
     players := players w; object_counter := object_counter w;
     order_counter := order_counter w;
     random_stream := random_stream w; random_draws := random_draws w |}.

Definition with_galaxy (w : World) (g : Galaxy) : World :=
  {| unit := unit w; galaxy := g; other_units := other_units w;
     players := players w; object_counter := object_counter w;
     order_counter := order_counter w;
     random_stream := random_stream w; random_draws := random_draws w |}.

Definition with_other_units (w : World) (o : gmap Z OtherUnit) : World :=
  {| unit := unit w; galaxy := galaxy w; other_units := o;
     players := players w; object_counter := object_counter w;
     order_counter := order_counter w;
     random_stream := random_stream w; random_draws := random_draws w |}.

Definition with_players (w : World) (p : list Player) : World :=
  {| unit := unit w; galaxy := galaxy w; other_units := other_units w;
     players := p; object_counter := object_counter w;
     order_counter := order_counter w;
     random_stream := random_stream w; random_draws := random_draws w |}.

Definition with_object_counter (w : World) (c : Z) : World :=
  {| unit := unit w; galaxy := galaxy w; other_units := other_units w;
     players := players w; object_counter := c;
     order_counter := order_counter w;
     random_stream := random_stream w; random_draws := random_draws w |}.

Definition with_order_counter (w : World) (c : Z) : World :=
  {| unit := unit w; galaxy := galaxy w; other_units := other_units w;
     players := players w; object_counter := object_counter w;
     order_counter := c;
     random_stream := random_stream w; random_draws := random_draws w |}.

Definition with_random_draws (w : World) (n : nat) : World :=
  {| unit := unit w; galaxy := galaxy w; other_units := other_units w;
     players := players w; object_counter := object_counter w;
     order_counter := order_counter w;
     random_stream := random_stream w; random_draws := n |}.

(** Field assignments on the unit. *)
Definition set_in_system (u : Unit) (s : option string) : Unit :=
  {| id := id u; owner := owner u; in_galaxy := in_galaxy u; in_system := s;
     in_hex := in_hex u; position := position u;
     current_hit_points := current_hit_points u;
     engines_component := engines_component u;
     hyperdrive_component := hyperdrive_component u;
     inhibitor_component := inhibitor_component u;
     weapons_component := weapons_component u;
     colony_component := colony_component u;
     constructor_component := constructor_component u |}.

Definition set_in_hex (u : Unit) (h : HexCoord) : Unit :=
  {| id := id u; owner := owner u; in_galaxy := in_galaxy u;
     in_system := in_system u; in_hex := h; position := position u;
     current_hit_points := current_hit_points u;
     engines_component := engines_component u;
     hyperdrive_component := hyperdrive_component u;
     inhibitor_component := inhibitor_component u;
     weapons_component := weapons_component u;
     colony_component := colony_component u;
     constructor_component := constructor_component u |}.

Definition set_position (u : Unit) (p : Position) : Unit :=
  {| id := id u; owner := owner u; in_galaxy := in_galaxy u;
     in_system := in_system u; in_hex := in_hex u; position := p;
     current_hit_points := current_hit_points u;
     engines_component := engines_component u;
     hyperdrive_component := hyperdrive_component u;
     inhibitor_component := inhibitor_component u;
     weapons_component := weapons_component u;
     colony_component := colony_component u;
     constructor_component := constructor_component u |}.

Definition set_current_hit_points (u : Unit) (hp : Z) : Unit :=
  {| id := id u; owner := owner u; in_galaxy := in_galaxy u;
     in_system := in_system u; in_hex := in_hex u; position := position u;
     current_hit_points := hp;
     engines_component := engines_component u;
     hyperdrive_component := hyperdrive_component u;
     inhibitor_component := inhibitor_component u;
     weapons_component := weapons_component u;
     colony_component := colony_component u;
     constructor_component := constructor_component u |}.

Definition set_engines (u : Unit) (e : option Engines) : Unit :=
  {| id := id u; owner := owner u; in_galaxy := in_galaxy u;
     in_system := in_system u; in_hex := in_hex u; position := position u;
     current_hit_points := current_hit_points u;
     engines_component := e;
     hyperdrive_component := hyperdrive_component u;
     inhibitor_component := inhibitor_component u;
     weapons_component := weapons_component u;
     colony_component := colony_component u;
     constructor_component := constructor_component u |}.

Definition set_hyperdrive (u : Unit) (h : option Hyperdrive) : Unit :=
  {| id := id u; owner := owner u; in_galaxy := in_galaxy u;
     in_system := in_system u; in_hex := in_hex u; position := position u;
     current_hit_points := current_hit_points u;
     engines_component := engines_component u;
     hyperdrive_component := h;
     inhibitor_component := inhibitor_component u;
     weapons_component := weapons_component u;
     colony_component := colony_component u;
     constructor_component := constructor_component u |}.

Definition set_inhibitor (u : Unit) (e : option HyperspaceInhibitionFieldEmitter) : Unit :=
  {| id := id u; owner := owner u; in_galaxy := in_galaxy u;
     in_system := in_system u; in_hex := in_hex u; position := position u;
     current_hit_points := current_hit_points u;
     engines_component := engines_component u;
     hyperdrive_component := hyperdrive_component u;
     inhibitor_component := e;
     weapons_component := weapons_component u;
     colony_component := colony_component u;
     constructor_component := constructor_component u |}.

Definition set_weapons (u : Unit) (x : option Weapons) : Unit :=
  {| id := id u; owner := owner u; in_galaxy := in_galaxy u;
     in_system := in_system u; in_hex := in_hex u; position := position u;
     current_hit_points := current_hit_points u;
     engines_component := engines_component u;
     hyperdrive_component := hyperdrive_component u;
     inhibitor_component := inhibitor_component u;
     weapons_component := x;
     colony_component := colony_component u;
     constructor_component := constructor_component u |}.

Definition set_colony (u : Unit) (c : option ColonyComponent) : Unit :=
  {| id := id u; owner := owner u; in_galaxy := in_galaxy u;
     in_system := in_system u; in_hex := in_hex u; position := position u;
     current_hit_points := current_hit_points u;
     engines_component := engines_component u;
     hyperdrive_component := hyperdrive_component u;
     inhibitor_component := inhibitor_component u;
     weapons_component := weapons_component u;
     colony_component := c;
     constructor_component := constructor_component u |}.

Definition set_constructor (u : Unit) (c : option Constructor) : Unit :=
  {| id := id u; owner := owner u; in_galaxy := in_galaxy u;
     in_system := in_system u; in_hex := in_hex u; position := position u;
     current_hit_points := current_hit_points u;
     engines_component := engines_component u;
     hyperdrive_component := hyperdrive_component u;
     inhibitor_component := inhibitor_component u;
     weapons_component := weapons_component u;
     colony_component := colony_component u;
     constructor_component := c |}.

(** [engines.move_target = None], [hyperdrive.hex_jump_target = None]
    and [hyperdrive.wormhole_jump_target = None], each under its
    [if self.unit.<component>:] guard. *)
Definition clear_move_target (u : Unit) : Unit :=
  set_engines u ((fun e => set_move_target e None) <$> engines_component u).

Definition clear_jump_targets (u : Unit) : Unit :=
  set_hyperdrive u
    ((fun hd => set_wormhole_jump_target (set_hex_jump_target hd None) None)
       <$> hyperdrive_component u).

End Game.

(* ================================================================== *)
(** ** unit_orders.py: the order tree *)
(* ================================================================== *)

Module Orders.
Import Geometry Entities Components Game.

Inductive OrderStatus : Type :=
| PENDING | IN_PROGRESS | COMPLETED | FAILED | CANCELLED.

Inductive OrderType : Type :=
| REACH_WAYPOINT | MOVE | PATROL | ATTACK | DEFEND
| TOGGLE_INHIBITOR | COLONIZE | LOAD_COLONISTS | CONSTRUCT.

Definition OrderStatus_eqb (a b : OrderStatus) : bool :=
  match a, b with
  | PENDING, PENDING | IN_PROGRESS, IN_PROGRESS | COMPLETED, COMPLETED
  | FAILED, FAILED | CANCELLED, CANCELLED => true
  | _, _ => false
  end.

(** [status in [COMPLETED, FAILED, CANCELLED]]. *)
Definition terminal (s : OrderStatus) : bool :=
  match s with
  | COMPLETED | FAILED | CANCELLED => true
  | PENDING | IN_PROGRESS => false
  end.

(** One entry of the [parameters] dictionary: the key is missing, or
    bound to [None], or bound to a value. *)
Inductive param (A : Type) : Type :=
| Absent
| IsNone
| Val (a : A).
Arguments Absent {A}.
Arguments IsNone {A}.
Arguments Val {A} a.

(** The [parameters] dictionary, one field per key that the code reads
    ([target_name] is only displayed).  The key ["turn_on"] is
    [turn_on_flag]. *)
Record Parameters : Type := mkParameters {
  destination_system_name : param string;
  destination_hex_coord : param HexCoord;
  destination_position : param Position;
  turn_on_flag : param bool;
  target_unit_id : param Z;
  target_id : param Z;
  amount : param Z;
  unit_template_name : param string;
  target_position : param Position
}.

Definition no_parameters : Parameters :=
  mkParameters Absent Absent Absent Absent Absent Absent Absent Absent Absent.

(** [parameters[key]] and [parameters.get(key)]. *)
Definition index {A} (p : param A) : result (option A) :=
  match p with
  | Absent => Raise KeyError
  | IsNone => Ok None
  | Val a => Ok (Some a)
  end.

Definition get {A} (p : param A) : option A :=
  match p with
  | Val a => Some a
  | Absent | IsNone => None
  end.

Definition to_param {A} (o : option A) : param A :=
  match o with Some a => Val a | None => IsNone end.

(** An order.  [unit] and [parent_order] are back-references that no
    control flow follows; the unit is the one of the [World]. *)
#[local] Set Warnings "-register-all".
Inductive Order : Type := mkOrder {
  order_id : Z;
  order_type : OrderType;
  parameters : Parameters;
  status : OrderStatus;
  sub_orders : list Order
}.

Definition set_status (o : Order) (s : OrderStatus) : Order :=
  mkOrder (order_id o) (order_type o) (parameters o) s (sub_orders o).

Definition set_sub_orders (o : Order) (l : list Order) : Order :=
  mkOrder (order_id o) (order_type o) (parameters o) (status o) l.

(** What an order asks [Order(...)] to construct and [add_sub_order] to
    append: the type and the parameters of a new sub-order. *)
Definition OrderSpec : Type := OrderType * Parameters.

(** [Order.is_completed]. *)
Fixpoint is_completed (o : Order) : bool :=
  match o with
  | mkOrder _ _ _ st subs =>
      OrderStatus_eqb st COMPLETED && forallb is_completed subs
  end.

(** [Order.has_active_sub_orders]. *)
Fixpoint has_active_sub_orders (o : Order) : bool :=
  match o with
  | mkOrder _ _ _ _ subs =>
      existsb (fun sub_order =>
                 match sub_order with
                 | mkOrder _ _ _ st _ =>
                     OrderStatus_eqb st IN_PROGRESS || OrderStatus_eqb st PENDING
                 end || has_active_sub_orders sub_order) subs
  end.

(** [Order.cancel]. *)
Fixpoint cancel (o : Order) : Order :=
  match o with
  | mkOrder i t p _ subs => mkOrder i t p CANCELLED (List.map cancel subs)
  end.

(** *** Galaxy look-ups *)

(** [galaxy.systems[name]]; the unit's [in_system] may be [None]. *)
Definition systems_index (g : Galaxy) (name : option string) : result StarSystem :=
  match name with
  | None => Raise KeyError
  | Some n => match systems g !! n with Some s => Ok s | None => Raise KeyError end
  end.

(** [system.hexes[h]]. *)
Definition hexes_index (s : StarSystem) (h : HexCoord) : result Hex :=
  match hexes s !! h with Some x => Ok x | None => Raise KeyError end.

(** [galaxy.wormholes[id]]. *)
Definition wormholes_index (g : Galaxy) (i : option Z) : result Wormhole :=
  match i with
  | None => Raise KeyError
  | Some k => match ODict.get k (wormholes g) with
              | Some wh => Ok wh
              | None => Raise KeyError
              end
  end.

(** [systems[name].hexes[h] = hex]. *)
Definition store_hex (g : Galaxy) (name : string) (h : HexCoord) (x : Hex) : Galaxy :=
  match systems g !! name with
  | Some s =>
      {| systems := <[name := {| hexes := <[h := x]> (hexes s) |}]> (systems g);
         wormholes := wormholes g;
         system_graph := system_graph g;
         celestial_bodies_by_id := celestial_bodies_by_id g |}
  | None => g
  end.

Definition store_body (g : Galaxy) (b : Planet) : Galaxy :=
  {| systems := systems g;
     wormholes := wormholes g;
     system_graph := system_graph g;
     celestial_bodies_by_id := <[body_id b := b]> (celestial_bodies_by_id g) |}.

(** [Order.find_wormhole_to_system]: the first wormhole, in insertion
    order, that lies in the one system and leads to the other. *)
Definition find_wormhole_to_system (current_system_name : option string)
    (target_system_name : string) (g : Galaxy) : option Wormhole :=
  List.find (fun wormhole_obj =>
               bool_decide (Some (wh_in_system wormhole_obj) = current_system_name)
               && bool_decide (exit_system_name wormhole_obj = target_system_name))
            (ODict.values (wormholes g)).

(** [galaxy.get_celestial_body_by_id]. *)
Definition get_celestial_body_by_id (g : Galaxy) (body : Z) : option Planet :=
  celestial_bodies_by_id g !! body.

(** Whether some hex of some system lists the unit id. *)
Definition listed (g : Galaxy) (unit_id : Z) : bool :=
  existsb (fun s => existsb (fun h => bool_decide (unit_id ∈ units h.2))
                            (map_to_list (hexes s.2)))
          (map_to_list (systems g)).

(** What [galaxy.get_unit_by_id] finds: the commanded unit itself or
    another unit. *)
Inductive UnitRef : Type :=
| Self
| Other (k : Z) (o : OtherUnit).

Definition get_unit_by_id (w : World) (unit_id : option Z) : option UnitRef :=
  match unit_id with
  | None => None
  | Some k =>
      if listed (galaxy w) k then
        if k =? id (unit w) then Some Self
        else Other k <$> other_units w !! k
      else None
  end.

Definition ref_in_system (w : World) (r : UnitRef) : option string :=
  match r with Self => in_system (unit w) | Other _ o => ou_in_system o end.
Definition ref_in_hex (w : World) (r : UnitRef) : HexCoord :=
  match r with Self => in_hex (unit w) | Other _ o => ou_in_hex o end.
Definition ref_position (w : World) (r : UnitRef) : Position :=
  match r with Self => position (unit w) | Other _ o => ou_position o end.
Definition ref_current_hit_points (w : World) (r : UnitRef) : Z :=
  match r with
  | Self => current_hit_points (unit w)
  | Other _ o => ou_current_hit_points o
  end.
Definition ref_id (w : World) (r : UnitRef) : Z :=
  match r with Self => id (unit w) | Other k _ => k end.

(** *** REACH_WAYPOINT *)

Definition reach_waypoint_spec (sys : option string) (h : HexCoord) (p : Position)
    : OrderSpec :=
  (REACH_WAYPOINT,
   mkParameters (to_param sys) (Val h) (Val p)
                Absent Absent Absent Absent Absent Absent).

Definition move_spec (sys : option string) (h : HexCoord) (p : Position) : OrderSpec :=
  (MOVE,
   mkParameters (to_param sys) (Val h) (Val p)
                Absent Absent Absent Absent Absent Absent).

(** [Order._execute_reach_waypoint].  The order is IN_PROGRESS when the
    method starts; the result is the new world and the status the
    method leaves. *)
Definition _execute_reach_waypoint (params : Parameters) (w : World)
    : result (World * OrderStatus) :=
  do dsys <- index (destination_system_name params);
  do dhex <- index (destination_hex_coord params);
  do dpos <- index (destination_position params);
  let u := unit w in
  let csys := in_system u in
  let chex := in_hex u in
  match dsys, dhex, dpos with
  | Some dsys, Some dhex, Some dpos =>
      if bool_decide (csys = Some dsys) && negb (bool_decide (chex = dhex)) then
        (* Case 1: different hex in same system *)
        match hyperdrive_component u with
        | None => Ok (w, FAILED)
        | Some hd =>
            let hd1 := set_hex_jump_target hd (Some (dhex, dpos)) in
            let hd2 := set_wormhole_jump_target hd1 None in
            let u1 := set_hyperdrive u (Some hd2) in
            Ok (with_unit w (clear_move_target u1), IN_PROGRESS)
        end
      else if bool_decide (csys = Some dsys) && bool_decide (chex = dhex) then
        (* Case 2: same hex, different position *)
        match engines_component u with
        | None => Ok (w, FAILED)
        | Some e =>
            if Rltb (distance (position u) dpos) (1 / 100) then
              let u1 := set_engines u (Some (set_move_target e None)) in
              Ok (with_unit w (clear_jump_targets u1), COMPLETED)
            else
              let u1 := set_engines u (Some (set_move_target e (Some dpos))) in
              Ok (with_unit w (clear_jump_targets u1), IN_PROGRESS)
        end
      else
        (* Case 3: different system *)
        match hyperdrive_component u with
        | None => Ok (w, FAILED)
        | Some hd =>
            match find_wormhole_to_system csys dsys (galaxy w) with
            | None => Ok (w, FAILED)
            | Some wormhole =>
                let hd1 := set_wormhole_jump_target hd (Some wormhole) in
                let hd2 := set_hex_jump_target hd1 None in
                let u1 := set_hyperdrive u (Some hd2) in
                Ok (with_unit w (clear_move_target u1), IN_PROGRESS)
            end
        end
  | _, _, _ => Ok (w, FAILED)
  end.

(** *** TOGGLE_INHIBITOR *)

Definition set_dynamic_inhibition_zones (h : Hex) (d : list (Z * Circle)) : Hex :=
  {| boundary_circle := boundary_circle h;
     static_inhibition_zones := static_inhibition_zones h;
     dynamic_inhibition_zones := d;
     units := units h |}.

Definition set_units (h : Hex) (l : list Z) : Hex :=
  {| boundary_circle := boundary_circle h;
     static_inhibition_zones := static_inhibition_zones h;
     dynamic_inhibition_zones := dynamic_inhibition_zones h;
     units := l |}.

(** [Order._execute_toggle_inhibitor]. *)
Definition _execute_toggle_inhibitor (params : Parameters) (w : World)
    : result (World * OrderStatus) :=
  let turn_on_value :=
    match turn_on_flag params with
    | Val b => b
    | Absent | IsNone => false
    end in
  let u := unit w in
  match inhibitor_component u with
  | None => Ok (w, FAILED)
  | Some inhibitor =>
      do sys <- systems_index (galaxy w) (in_system u);
      do current_hex <- hexes_index sys (in_hex u);
      let name := default EmptyString (in_system u) in
      if turn_on_value then
        let proposed_field := mkCircle (position u) (field_radius inhibitor) in
        if negb (is_circle_contained proposed_field (boundary_circle current_hex)) then
          Ok (w, FAILED)
        else if existsb (do_circles_intersect proposed_field)
                        (get_all_inhibition_zones current_hex) then
          Ok (w, FAILED)
        else
          let u1 := set_inhibitor u (Some (turn_on inhibitor)) in
          let hex1 :=
            set_dynamic_inhibition_zones current_hex
              (ODict.set (id u) proposed_field (dynamic_inhibition_zones current_hex)) in
          Ok (with_galaxy (with_unit w u1) (store_hex (galaxy w) name (in_hex u) hex1),
              COMPLETED)
      else
        let hex1 :=
          set_dynamic_inhibition_zones current_hex
            (ODict.del (id u) (dynamic_inhibition_zones current_hex)) in
        let u1 := set_inhibitor u (Some (turn_off inhibitor)) in
        Ok (with_galaxy (with_unit w u1) (store_hex (galaxy w) name (in_hex u) hex1),
            COMPLETED)
  end.

(** *** COLONIZE and LOAD_COLONISTS *)

(** [Order._execute_colonize]; [self_params] are the order's own
    parameters, handed on to the COLONIZE sub-order, and [active] is
    [self.has_active_sub_orders()]. *)
Definition _execute_colonize (self_params : Parameters) (active : bool) (w : World)
    : result (World * OrderStatus * list OrderSpec) :=
  match get (target_id self_params) with
  | None => Ok (w, FAILED, [])
  | Some tid =>
      if tid =? 0 then Ok (w, FAILED, [])
      else
        match get_celestial_body_by_id (galaxy w) tid with
        | None => Ok (w, FAILED, [])
        | Some target_body =>
            match colony_component (unit w) with
            | None => Ok (w, FAILED, [])
            | Some colony =>
                let at_location :=
                  bool_decide (in_system (unit w) = Some (body_in_system target_body))
                  && bool_decide (in_hex (unit w) = body_in_hex target_body) in
                if negb at_location then
                  if negb active then
                    Ok (w, IN_PROGRESS,
                        [move_spec (Some (body_in_system target_body))
                                   (body_in_hex target_body) (body_position target_body);
                         (COLONIZE, self_params)])
                  else Ok (w, IN_PROGRESS, [])
                else
                  let cargo := population_cargo colony in
                  if cargo <=? 0 then Ok (w, FAILED, [])
                  else
                    let '(colony1, planet1, success) :=
                      unload_population (owner (unit w)) colony target_body cargo in
                    let w1 :=
                      with_galaxy (with_unit w (set_colony (unit w) (Some colony1)))
                                  (store_body (galaxy w) planet1) in
                    Ok (w1, if success then COMPLETED else FAILED, [])
            end
        end
  end.

(** [Order._execute_load_colonists]. *)
Definition _execute_load_colonists (self_params : Parameters) (active : bool) (w : World)
    : result (World * OrderStatus * list OrderSpec) :=
  let amount_value :=
    match amount self_params with
    | Absent => Some 50
    | IsNone => None
    | Val n => Some n
    end in
  match get (target_id self_params) with
  | None => Ok (w, FAILED, [])
  | Some tid =>
      if tid =? 0 then Ok (w, FAILED, [])
      else
        match get_celestial_body_by_id (galaxy w) tid with
        | None => Ok (w, FAILED, [])
        | Some target_body =>
            match colony_component (unit w) with
            | None => Ok (w, FAILED, [])
            | Some colony =>
                let at_location :=
                  bool_decide (in_system (unit w) = Some (body_in_system target_body))
                  && bool_decide (in_hex (unit w) = body_in_hex target_body) in
                if negb at_location then
                  if negb active then
                    Ok (w, IN_PROGRESS,
                        [move_spec (Some (body_in_system target_body))
                                   (body_in_hex target_body) (body_position target_body);
                         (LOAD_COLONISTS,
                          mkParameters Absent Absent Absent Absent Absent
                                       (Val (body_id target_body)) (to_param amount_value)
                                       Absent Absent)])
                  else Ok (w, IN_PROGRESS, [])
                else
                  match amount_value with
                  | None =>
                      (* [load_population(target, None)]: the owner test comes
                         before the first comparison with the amount *)
                      if negb (owner_eqb (body_owner target_body) (owner (unit w)))
                      then Ok (w, FAILED, [])
                      else Raise TypeError
                  | Some n =>
                      let '(colony1, planet1, success) :=
                        load_population (owner (unit w)) colony target_body n in
                      let w1 :=
                        with_galaxy (with_unit w (set_colony (unit w) (Some colony1)))
                                    (store_body (galaxy w) planet1) in
                      Ok (w1, if success then COMPLETED else FAILED, [])
                  end
            end
        end
  end.

(** *** MOVE: route planning *)

(** [int(x)] on a float: truncation towards zero. *)
Definition py_int (r : R) : Z :=
  if Rle_dec 0 r then Int_part r else (- Int_part (- r))%Z.

(** constants.py *)
Definition SQRT3 : R := (17320508075688772 / 10000000000000000)%R.
Definition HEX_SIZE : R := 25%R.
Definition SYSTEM_CENTER_IN_PX : Position := mkPosition 640 360.

(** hexgrid_utils.py [hex_to_pixel]. *)
Definition hex_to_pixel (q r : Z) : Position :=
  let px := (HEX_SIZE * (SQRT3 * IZR q + SQRT3 / 2 * IZR r))%R in
  let py := (HEX_SIZE * (3 / 2 * IZR r))%R in
  mkPosition (IZR (py_int (px + x SYSTEM_CENTER_IN_PX)))
             (IZR (py_int (py + y SYSTEM_CENTER_IN_PX))).

(** [Order.handle_inhibited_waypoint]: the sub-orders it adds. *)
Definition handle_inhibited_waypoint (g : Galaxy) (target_hex : HexCoord)
    (target_pos : Position) (is_final_destination : bool)
    (system_name : option string) : result (list OrderSpec) :=
  do sys <- systems_index g system_name;
  match hexes sys !! target_hex with
  | None => Ok []
  | Some destination_hex_obj =>
      match List.find (is_point_in_circle target_pos)
                      (get_all_inhibition_zones destination_hex_obj) with
      | Some zone =>
          let adjusted_pos := get_closest_point_on_circle_edge target_pos zone in
          Ok (reach_waypoint_spec system_name target_hex adjusted_pos
                :: (if is_final_destination
                    then [reach_waypoint_spec system_name target_hex target_pos]
                    else []))
      | None => Ok [reach_waypoint_spec system_name target_hex target_pos]
      end
  end.

(** The loop [for i, waypoint_hex in enumerate(waypoints)] of
    [plan_hex_jump_sequence]; the last waypoint is the final one. *)
Fixpoint plan_waypoints (g : Galaxy) (waypoints : list HexCoord) (end_pos : Position)
    (system_name : option string) : result (list OrderSpec) :=
  match waypoints with
  | [] => Ok []
  | waypoint_hex :: rest =>
      let is_final := match rest with [] => true | _ => false end in
      let waypoint_pos :=
        if is_final then end_pos else hex_to_pixel (fst waypoint_hex) (snd waypoint_hex) in
      do first <- handle_inhibited_waypoint g waypoint_hex waypoint_pos is_final system_name;
      do others <- plan_waypoints g rest end_pos system_name;
      Ok (first ++ others)
  end.

(** [Order.plan_hex_jump_sequence]: [Some FAILED] when it fails the
    order, and the sub-orders it adds. *)
Definition plan_hex_jump_sequence (w : World) (start_hex end_hex : HexCoord)
    (end_pos : Position) (system_name : option string)
    : result (option OrderStatus * list OrderSpec) :=
  match hyperdrive_component (unit w) with
  | None => Ok (Some FAILED, [])
  | Some hd =>
      let jump_range_value := jump_range hd in
      let distance_to_jump := HexPath.hex_distance start_hex end_hex in
      if distance_to_jump <=? jump_range_value then
        do specs <- handle_inhibited_waypoint (galaxy w) end_hex end_pos true system_name;
        Ok (None, specs)
      else
        do waypoints <- HexPath.find_hex_jump_path start_hex end_hex jump_range_value;
        do specs <- plan_waypoints (galaxy w) waypoints end_pos system_name;
        Ok (None, specs)
  end.

Definition or_status (change : option OrderStatus) (s : OrderStatus) : OrderStatus :=
  match change with Some s' => s' | None => s end.

(** [random.uniform(a, b)] from the next value of [random.random()]. *)
Definition uniform (w : World) (a b : R) : R :=
  (a + (b - a) * random_stream w (random_draws w))%R.

(** The escape from an inhibited wormhole exit: the sub-order added, if
    any, and the number of random values drawn so far. *)
Definition exit_escape (w : World) (draws : nat) (system_name : string)
    (exit_wh : Wormhole) : result (list OrderSpec * nat) :=
  do sys <- systems_index (galaxy w) (Some system_name);
  do arrival_hex_obj <- hexes_index sys (wh_in_hex exit_wh);
  let arrival_pos := wh_position exit_wh in
  match List.find (is_point_in_circle arrival_pos)
                  (get_all_inhibition_zones arrival_hex_obj) with
  | Some zone =>
      let angle := uniform (with_random_draws w draws) 0 (2 * PI) in
      let safe_distance := (radius zone + 1)%R in
      let safe_pos :=
        mkPosition (x arrival_pos + safe_distance * cos angle)
                   (y arrival_pos + safe_distance * sin angle) in
      Ok ([reach_waypoint_spec (Some system_name) (wh_in_hex exit_wh) safe_pos], S draws)
  | None => Ok ([], draws)
  end.

(** The leg loop of [plan_route] over the systems of the path.  The
    result is the status change, the sub-orders added, the hex of
    arrival and the random values drawn; [inl] when the loop left
    [plan_route] with FAILED. *)
Fixpoint plan_legs (w : World) (path : list string) (current_leg_arrival_hex : HexCoord)
    (st : option OrderStatus) (draws : nat)
    : result (list OrderSpec * nat
              + option OrderStatus * list OrderSpec * HexCoord * nat) :=
  match path with
  | leg_origin_system :: ((leg_destination_system :: _) as rest) =>
      match find_wormhole_to_system (Some leg_origin_system) leg_destination_system
                                    (galaxy w) with
      | None => Ok (inl ([], draws))
      | Some wormhole_for_leg =>
          do exit_wormhole_for_leg <-
             wormholes_index (galaxy w) (exit_wormhole_id wormhole_for_leg);
          do '(st1, to_entry) <-
             (if negb (bool_decide (current_leg_arrival_hex = wh_in_hex wormhole_for_leg))
              then plan_hex_jump_sequence w current_leg_arrival_hex
                     (wh_in_hex wormhole_for_leg) (wh_position wormhole_for_leg)
                     (Some leg_origin_system)
              else Ok (None, [reach_waypoint_spec (Some leg_origin_system)
                                (wh_in_hex wormhole_for_leg)
                                (wh_position wormhole_for_leg)]));
          let through :=
            reach_waypoint_spec (Some leg_destination_system)
              (wh_in_hex exit_wormhole_for_leg) (wh_position exit_wormhole_for_leg) in
          do '(escape, draws1) <-
             exit_escape w draws leg_destination_system exit_wormhole_for_leg;
          let st2 := match st1 with Some s => Some s | None => st end in
          do r <- plan_legs w rest (wh_in_hex exit_wormhole_for_leg) st2 draws1;
          let here := to_entry ++ [through] ++ escape in
          match r with
          | inl (specs, d) => Ok (inl (here ++ specs, d))
          | inr (s, specs, h, d) => Ok (inr (s, here ++ specs, h, d))
          end
      end
  | _ => Ok (inr (st, [], current_leg_arrival_hex, draws))
  end.

(** The escape from an inhibited start position (the first loop of
    [plan_route]). *)
Definition start_escape (g : Galaxy) (csys : option string) (chex : HexCoord)
    (cpos : Position) : result (list OrderSpec) :=
  do sys <- systems_index g csys;
  match hexes sys !! chex with
  | None => Ok []
  | Some current_hex_obj =>
      match List.find (is_point_in_circle cpos)
                      (get_all_inhibition_zones current_hex_obj) with
      | Some zone =>
          Ok [reach_waypoint_spec csys chex (get_closest_point_on_circle_edge cpos zone)]
      | None => Ok []
      end
  end.

(** [Order.plan_route]: the status it leaves, the sub-orders it adds
    and the number of random values drawn. *)
Definition plan_route (params : Parameters) (w : World)
    : result (OrderStatus * list OrderSpec * nat) :=
  let u := unit w in
  let g := galaxy w in
  let draws := random_draws w in
  let csys := in_system u in
  let chex := in_hex u in
  let cpos := position u in
  do dsys <- index (destination_system_name params);
  do dhex <- index (destination_hex_coord params);
  do dpos <- index (destination_position params);
  match dsys, dhex, dpos with
  | Some dsys, Some dhex, Some dpos =>
      if bool_decide (csys = Some dsys) && bool_decide (chex = dhex)
         && Rltb (distance cpos dpos) (1 / 100)
      then Ok (COMPLETED, [], draws)
      else
        do escape <-
           (if negb (bool_decide (csys = Some dsys)) || negb (bool_decide (chex = dhex))
            then start_escape g csys chex cpos
            else Ok []);
        if negb (bool_decide (csys = Some dsys)) then
          (* 1. inter-system travel *)
          match hyperdrive_component u with
          | None => Ok (FAILED, escape, draws)
          | Some _ =>
              match find_wormhole_to_system csys dsys g with
              | Some direct_wormhole =>
                  do exit_wh <- wormholes_index g (exit_wormhole_id direct_wormhole);
                  do '(st1, to_entry) <-
                     (if negb (bool_decide (chex = wh_in_hex direct_wormhole))
                      then plan_hex_jump_sequence w chex (wh_in_hex direct_wormhole)
                             (wh_position direct_wormhole) csys
                      else Ok (None, [reach_waypoint_spec csys (wh_in_hex direct_wormhole)
                                        (wh_position direct_wormhole)]));
                  let through :=
                    reach_waypoint_spec (Some dsys) (wh_in_hex exit_wh)
                                        (wh_position exit_wh) in
                  do '(exit_specs, draws1) <- exit_escape w draws dsys exit_wh;
                  do '(st2, final) <-
                     (if negb (bool_decide (wh_in_hex exit_wh = dhex))
                      then plan_hex_jump_sequence w (wh_in_hex exit_wh) dhex dpos (Some dsys)
                      else Ok (None, []));
                  Ok (or_status st2 (or_status st1 IN_PROGRESS),
                      escape ++ to_entry ++ [through] ++ exit_specs ++ final, draws1)
              | None =>
                  do path_to_destination <-
                     match csys with
                     | Some c => InterSystem.find_intersystem_path (system_graph g) c dsys
                     | None => Ok None
                     end;
                  match path_to_destination with
                  | None => Ok (FAILED, escape, draws)
                  | Some path =>
                      if (length path <? 2)%nat then Ok (FAILED, escape, draws)
                      else
                        do legs <- plan_legs w path chex None draws;
                        match legs with
                        | inl (specs, draws1) => Ok (FAILED, escape ++ specs, draws1)
                        | inr (st1, specs, arrival_hex, draws1) =>
                            do '(st2, final) <-
                               plan_hex_jump_sequence w arrival_hex dhex dpos (Some dsys);
                            Ok (or_status st2 (or_status st1 IN_PROGRESS),
                                escape ++ specs ++ final, draws1)
                        end
                  end
              end
          end
        else if negb (bool_decide (chex = dhex)) then
          (* 2. same system, other hex *)
          do '(st1, specs) <- plan_hex_jump_sequence w chex dhex dpos csys;
          Ok (or_status st1 IN_PROGRESS, escape ++ specs, draws)
        else
          (* 3. same hex, sub-light *)
          match engines_component u with
          | None => Ok (FAILED, escape, draws)
          | Some _ => Ok (IN_PROGRESS, escape ++ [reach_waypoint_spec (Some dsys) dhex dpos], draws)
          end
  | _, _, _ => Ok (FAILED, [], draws)
  end.

(** *** ATTACK *)

(** [min(turret.range for turret in turrets)]. *)
Fixpoint min_range (ts : list Turret) : result R :=
  match ts with
  | [] => Raise ValueError
  | t :: rest =>
      match rest with
      | [] => Ok (range t)
      | _ => do m <- min_range rest;
             Ok (if Rltb m (range t) then m else range t)
      end
  end.

(** [Order._execute_attack]. *)
Definition _execute_attack (params : Parameters) (w : World)
    : result (World * OrderStatus * list OrderSpec) :=
  do target_unit_id_value <- index (target_unit_id params);
  match get_unit_by_id w target_unit_id_value with
  | None => Ok (w, FAILED, [])
  | Some target_unit =>
      match weapons_component (unit w) with
      | None => Ok (w, IN_PROGRESS, [])
      | Some weapons =>
          let weapons1 := set_target weapons (ref_id w target_unit) in
          let w1 := with_unit w (set_weapons (unit w) (Some weapons1)) in
          let in_the_same_system_and_hex :=
            bool_decide (in_system (unit w) = ref_in_system w target_unit)
            && bool_decide (in_hex (unit w) = ref_in_hex w target_unit) in
          let in_range :=
            existsb (fun turret =>
                       Rltb (distance (position (unit w)) (ref_position w target_unit))
                            (range turret))
                    (turrets weapons1) in
          do min_turret_range <- min_range (turrets weapons1);
          if negb in_the_same_system_and_hex || negb in_range then
            let dest_pos :=
              Geometry.move_towards_position (position (unit w))
                (ref_position w target_unit) (min_turret_range - 5)%R in
            Ok (w1, IN_PROGRESS,
                [move_spec (ref_in_system w target_unit) (ref_in_hex w target_unit) dest_pos])
          else Ok (w1, IN_PROGRESS, [])
      end
  end.

(** *** CONSTRUCT *)

Definition charge (ps : list Player) (player : Z) (cost : R) : list Player :=
  (fun p => if player_id p =? player
            then {| player_id := player_id p; credits := (credits p - cost)%R |}
            else p) <$> ps.

Definition find_player (ps : list Player) (player : Z) : option Player :=
  List.find (fun p => player_id p =? player) ps.

(** [Constructor.start_construction]: the constructor and the players
    afterwards. *)
Definition start_construction (c : Constructor) (unit_owner : Z) (ps : list Player)
    (name : string) (pos : Position) : Constructor * list Player :=
  match can_build c name with
  | None => (c, ps)
  | Some buildable =>
      match find_player ps unit_owner with
      | None => (c, ps)
      | Some owner_player =>
          if Rltb (credits owner_player) (IZR (cost_credits buildable)) then (c, ps)
          else
            ({| buildable_units := buildable_units c;
                current_construction_target := Some (name, pos);
                construction_progress := 0;
                time_to_build := bu_time_to_build buildable |},
             charge ps unit_owner (IZR (cost_credits buildable)))
      end
  end.

(** [Order._execute_construct]. *)
Definition _execute_construct (params : Parameters) (w : World)
    : result (World * OrderStatus) :=
  match constructor_component (unit w) with
  | None => Ok (w, FAILED)
  | Some constructor =>
      match get (unit_template_name params), get (target_position params) with
      | Some name, Some target_pos =>
          if bool_decide (name = EmptyString) then Ok (w, FAILED)
          else
            match can_build constructor name with
            | None => Ok (w, FAILED)
            | Some buildable =>
                match find_player (players w) (owner (unit w)) with
                | None => Ok (w, FAILED)
                | Some player =>
                    if Rltb (credits player) (IZR (cost_credits buildable))
                    then Ok (w, FAILED)
                    else
                      let ps1 := charge (players w) (owner (unit w))
                                        (IZR (cost_credits buildable)) in
                      let '(constructor1, ps2) :=
                        start_construction constructor (owner (unit w)) ps1
                                           name target_pos in
                      Ok (with_players
                            (with_unit w (set_constructor (unit w) (Some constructor1)))
                            ps2,
                          COMPLETED)
                end
            end
      | _, _ => Ok (w, FAILED)
      end
  end.

(** *** Completion, execution and the recursive update *)

(** [csys == dsys and chex == dhex and distance(cpos, dpos) < 0.01];
    [and] stops at the first false operand. *)
Definition arrived (dsys : option string) (dhex : option HexCoord)
    (dpos : option Position) (w : World) : result bool :=
  if bool_decide (in_system (unit w) = dsys)
     && bool_decide (Some (in_hex (unit w)) = dhex) then
    match dpos with
    | None => Raise AttributeError
    | Some p => Ok (Rltb (distance (position (unit w)) p) (1 / 100))
    end
  else Ok false.

(** [Order.check_completion_conditions]. *)
Definition check_completion_conditions (o : Order) (w : World)
    : result (Order * World) :=
  if negb (OrderStatus_eqb (status o) IN_PROGRESS) then Ok (o, w)
  else
    let params := parameters o in
    match order_type o with
    | MOVE =>
        do dsys <- index (destination_system_name params);
        do dhex <- index (destination_hex_coord params);
        do dpos <- index (destination_position params);
        match sub_orders o with
        | [] =>
            do there <- arrived dsys dhex dpos w;
            Ok (if there then set_status o COMPLETED else o, w)
        | _ :: _ => Ok (o, w)
        end
    | TOGGLE_INHIBITOR => Ok (o, w)
    | REACH_WAYPOINT =>
        do dsys <- index (destination_system_name params);
        do dhex <- index (destination_hex_coord params);
        do dpos <- index (destination_position params);
        do there <- arrived dsys dhex dpos w;
        if there then
          Ok (set_status o COMPLETED,
              with_unit w (clear_jump_targets (clear_move_target (unit w))))
        else Ok (o, w)
    | PATROL => Ok (o, w)
    | ATTACK =>
        do target_unit_id_value <- index (target_unit_id params);
        match get_unit_by_id w target_unit_id_value with
        | None => Ok (set_status o COMPLETED, w)
        | Some target_unit =>
            if ref_current_hit_points w target_unit <=? 0
            then Ok (set_status o COMPLETED, w)
            else Ok (o, w)
        end
    | COLONIZE =>
        do target_id_value <- index (target_id params);
        match target_id_value ≫= get_celestial_body_by_id (galaxy w) with
        | Some target_body =>
            if owner_eqb (body_owner target_body) (owner (unit w))
            then Ok (set_status o COMPLETED, w)
            else Ok (o, w)
        | None => Ok (o, w)
        end
    | LOAD_COLONISTS =>
        match sub_orders o with
        | [] => Ok (set_status o COMPLETED, w)
        | _ :: _ => Ok (o, w)
        end
    | DEFEND | CONSTRUCT => Ok (o, w)
    end.

(** [Order(self.unit, type, parameters, parent_order=self)] for each
    requested sub-order, in order: a PENDING order without sub-orders
    whose id is the next value of [Order.order_counter]. *)
Fixpoint make_orders (specs : list OrderSpec) (counter : Z) : list Order * Z :=
  match specs with
  | [] => ([], counter)
  | (t, p) :: rest =>
      let '(os, c) := make_orders rest (counter + 1) in
      (mkOrder counter t p PENDING [] :: os, c)
  end.

(** [self.add_sub_order(Order(...))] for each requested sub-order. *)
Definition add_sub_orders (o : Order) (specs : list OrderSpec) (w : World)
    : Order * World :=
  let '(os, c) := make_orders specs (order_counter w) in
  (set_sub_orders o (sub_orders o ++ os), with_order_counter w c).

(** The dispatch of [Order.execute] on the order type: the world, the
    status and the new sub-orders that the method of that type leaves.
    [plan_route]'s guard [if not self.unit or not galaxy_ref] never
    fires: the commander passes a galaxy that is set. *)
Definition execute_body (o : Order) (w : World)
    : result (World * OrderStatus * list OrderSpec) :=
  let params := parameters o in
  match order_type o with
  | MOVE =>
      do '(st, specs, draws) <- plan_route params w;
      Ok (with_random_draws w draws, st, specs)
  | REACH_WAYPOINT =>
      do '(w1, st) <- _execute_reach_waypoint params w;
      Ok (w1, st, [])
  | TOGGLE_INHIBITOR =>
      do '(w1, st) <- _execute_toggle_inhibitor params w;
      Ok (w1, st, [])
  | PATROL => Ok (w, IN_PROGRESS, [])
  | ATTACK => _execute_attack params w
  | COLONIZE => _execute_colonize params (has_active_sub_orders o) w
  | LOAD_COLONISTS => _execute_load_colonists params (has_active_sub_orders o) w
  | CONSTRUCT =>
      do '(w1, st) <- _execute_construct params w;
      Ok (w1, st, [])
  | DEFEND => Ok (w, IN_PROGRESS, [])
  end.

(** [Order.execute]. *)
Definition execute (o : Order) (w : World) : result (Order * World) :=
  if negb (OrderStatus_eqb (status o) PENDING) then Ok (o, w)
  else
    let o1 := set_status o IN_PROGRESS in
    do '(w1, st, specs) <- execute_body o1 w;
    Ok (add_sub_orders (set_status o1 st) specs w1).

(** The loop [while self.sub_orders] of [Order.update], given the
    function [update_sub] that stands for [current_sub_order.update].
    The loop hands back the queue that is left: empty when it ran to
    its end, and headed by the sub-order still in progress when
    [update] returned from inside the loop. *)
Fixpoint drain (update_sub : Order -> World -> result (Order * World))
    (subs : list Order) (w : World) : result (list Order * World) :=
  match subs with
  | [] => Ok ([], w)
  | current_sub_order :: rest =>
      do '(s1, w1) <-
         (if OrderStatus_eqb (status current_sub_order) PENDING
          then execute current_sub_order w
          else Ok (current_sub_order, w));
      do '(s2, w2) <-
         (if OrderStatus_eqb (status s1) IN_PROGRESS
          then update_sub s1 w1
          else Ok (s1, w1));
      if terminal (status s2) then drain update_sub rest w2
      else Ok (s2 :: rest, w2)
  end.

(** [Order.update].  [depth] bounds the nesting of the recursive calls
    on sub-orders, as the interpreter's recursion limit does. *)
Fixpoint update (depth : nat) (o : Order) (w : World) : result (Order * World) :=
  match depth with
  | O => Raise RecursionError
  | S depth' =>
      do '(subs, w1) <- drain (update depth') (sub_orders o) w;
      match subs with
      | [] =>
          let o1 := set_sub_orders o [] in
          if OrderStatus_eqb (status o1) IN_PROGRESS
          then check_completion_conditions o1 w1
          else Ok (o1, w1)
      | _ :: _ => Ok (set_sub_orders o subs, w1)
      end
  end.

End Orders.

(* ================================================================== *)
(** ** unit_components.py: the commander *)
(* ================================================================== *)

Module CommanderComponent.
Import Geometry Entities Components Game Orders.

Record Commander : Type := mkCommander {
  current_order : option Order;
  orders_queue : list Order
}.

(** [Commander.start_next_order]. *)
Definition start_next_order (depth : nat) (c : Commander) (w : World)
    : result (Commander * World) :=
  match current_order c, orders_queue c with
  | None, next :: rest =>
      if in_galaxy (unit w) then
        do '(o1, w1) <- execute next w;
        do '(o2, w2) <-
           (if OrderStatus_eqb (status o1) IN_PROGRESS
            then update depth o1 w1
            else Ok (o1, w1));
        Ok ({| current_order := Some o2; orders_queue := rest |}, w2)
      else
        Ok ({| current_order := Some (set_status next FAILED); orders_queue := rest |}, w)
  | _, _ => Ok (c, w)
  end.

(** [Commander.add_order]. *)
Definition add_order (depth : nat) (c : Commander) (order : Order) (w : World)
    : result (Commander * World) :=
  let c1 := {| current_order := current_order c;
               orders_queue := orders_queue c ++ [order] |} in
  match current_order c1 with
  | None => start_next_order depth c1 w
  | Some _ => Ok (c1, w)
  end.

(** The loop of [cancel_order] over the queue: the first order with the
    id is cancelled and removed. *)
Fixpoint remove_by_id (order_id_value : Z) (q : list Order) : option (list Order) :=
  match q with
  | [] => None
  | o :: rest =>
      if order_id o =? order_id_value then Some rest
      else (fun r => o :: r) <$> remove_by_id order_id_value rest
  end.

(** [Commander.cancel_order]; the boolean is the method's result. *)
Definition cancel_order (depth : nat) (c : Commander) (order_id_value : Z) (w : World)
    : result (Commander * World * bool) :=
  match current_order c with
  | Some cur =>
      if order_id cur =? order_id_value then
        do '(c1, w1) <-
           start_next_order depth
             {| current_order := None; orders_queue := orders_queue c |} w;
        Ok (c1, w1, true)
      else
        match remove_by_id order_id_value (orders_queue c) with
        | Some q => Ok ({| current_order := current_order c; orders_queue := q |}, w, true)
        | None => Ok (c, w, false)
        end
  | None =>
      match remove_by_id order_id_value (orders_queue c) with
      | Some q => Ok ({| current_order := current_order c; orders_queue := q |}, w, true)
      | None => Ok (c, w, false)
      end
  end.

(** [Commander.clear_orders].  The cancelled orders leave the
    commander, so their new status is not kept. *)
Definition clear_orders (c : Commander) (w : World) : Commander * World :=
  ({| current_order := None; orders_queue := [] |},
   with_unit w (clear_jump_targets (clear_move_target (unit w)))).

(** [Commander.get_active_orders_count]. *)
Definition get_active_orders_count (c : Commander) : Z :=
  Z.of_nat (length (orders_queue c))
  + (match current_order c with Some _ => 1 | None => 0 end).

(** [Commander.update]. *)
Definition update (depth : nat) (c : Commander) (w : World)
    : result (Commander * World) :=
  do '(c1, w1) <-
     match current_order c with
     | None => start_next_order depth c w
     | Some _ => Ok (c, w)
     end;
  match current_order c1 with
  | None => Ok (c1, w1)
  | Some cur =>
      do '(cur1, w2) <-
         (if in_galaxy (unit w1) then Orders.update depth cur w1
          else Ok (if OrderStatus_eqb (status cur) IN_PROGRESS
                   then set_status cur FAILED else cur, w1));
      let order_is_finished :=
        is_completed cur1
        || OrderStatus_eqb (status cur1) FAILED
        || OrderStatus_eqb (status cur1) CANCELLED in
      if order_is_finished then
        start_next_order depth
          {| current_order := None; orders_queue := orders_queue c1 |} w2
      else Ok ({| current_order := Some cur1; orders_queue := orders_queue c1 |}, w2)
  end.

End CommanderComponent.

(* ================================================================== *)
(** ** entities.py [Unit.update] and turn_processor.py *)
(* ================================================================== *)

Module Turn.
Import Geometry Entities Components Game Orders CommanderComponent.

(** [list.remove(x)]: the first occurrence. *)
Fixpoint remove_first (k : Z) (l : list Z) : list Z :=
  match l with
  | [] => []
  | k' :: l' => if k' =? k then l' else k' :: remove_first k l'
  end.

(** [StarSystem.remove_unit] for the unit with id [uid] that says it is
    in hex [h]: the galaxy afterwards and the method's result.  The
    caller clears the unit's [in_system] when the result is [True]. *)
Definition remove_unit (g : Galaxy) (system_name : string) (h : HexCoord) (uid : Z)
    : Galaxy * bool :=
  match systems g !! system_name with
  | None => (g, false)
  | Some s =>
      match hexes s !! h with
      | Some hx =>
          if bool_decide (uid ∈ units hx)
          then (store_hex g system_name h (set_units hx (remove_first uid (units hx))), true)
          else (g, false)
      | None => (g, false)
      end
  end.

(** [StarSystem.add_unit]: the galaxy afterwards and whether the hex
    exists (the unit's [in_system] is then set to the system). *)
Definition add_unit (g : Galaxy) (system_name : string) (h : HexCoord) (uid : Z)
    : Galaxy * bool :=
  match systems g !! system_name with
  | None => (g, false)
  | Some s =>
      match hexes s !! h with
      | Some hx => (store_hex g system_name h (set_units hx (units hx ++ [uid])), true)
      | None => (g, false)
      end
  end.

(** [Unit.take_damage] and [Unit.destroy] on the unit a turret targets
    ([game.deselect_object] belongs to the UI). *)
Definition take_damage (w : World) (r : UnitRef) (amount_value : Z) : World :=
  let hp0 := ref_current_hit_points w r - amount_value in
  let hp := if hp0 <? 0 then 0 else hp0 in
  let destroyed := hp =? 0 in
  let in_gal := match r with Self => in_galaxy (unit w) | Other _ o => ou_in_galaxy o end in
  let '(g1, sys1) :=
    if destroyed && in_gal then
      match ref_in_system w r with
      | Some name =>
          if bool_decide (name = EmptyString) then (galaxy w, Some name)
          else
            match systems (galaxy w) !! name with
            | Some _ =>
                let '(g1, removed) :=
                  remove_unit (galaxy w) name (ref_in_hex w r) (ref_id w r) in
                (g1, if removed then None else Some name)
            | None => (galaxy w, Some name)
            end
      | None => (galaxy w, None)
      end
    else (galaxy w, ref_in_system w r) in
  match r with
  | Self =>
      with_galaxy (with_unit w (set_in_system (set_current_hit_points (unit w) hp) sys1)) g1
  | Other k o =>
      with_galaxy
        (with_other_units w
           (<[k := {| ou_in_galaxy := ou_in_galaxy o; ou_in_system := sys1;
                      ou_in_hex := ou_in_hex o; ou_position := ou_position o;
                      ou_current_hit_points := hp |}]> (other_units w)))
        g1
  end.

(** The object a turret's [target] refers to. *)
Definition resolve (w : World) (k : Z) : option UnitRef :=
  if k =? id (unit w) then Some Self else Other k <$> other_units w !! k.

(** [Turret.fire]. *)
Definition fire (t : Turret) (r : UnitRef) (w : World) : Turret * World :=
  ({| damage := damage t; range := range t; cooldown := cooldown t;
      current_cooldown := cooldown t; target := target t |},
   take_damage w r (py_int (damage t))).

(** The second loop of [Weapons.update]. *)
Fixpoint fire_turrets (ts : list Turret) (w : World) : list Turret * World :=
  match ts with
  | [] => ([], w)
  | t :: rest =>
      let '(t1, w1) :=
        match target t ≫= resolve w with
        | None => (t, w)
        | Some r =>
            if ref_current_hit_points w r <=? 0 then (Turret_set_target t None, w)
            else
              let target_in_same_system :=
                bool_decide (in_system (unit w) = ref_in_system w r) in
              let target_in_same_hex := bool_decide (in_hex (unit w) = ref_in_hex w r) in
              let target_in_range :=
                Rltb (distance (position (unit w)) (ref_position w r)) (range t) in
              if target_in_same_system && target_in_same_hex && target_in_range then
                if current_cooldown t <=? 0 then fire t r w else (t, w)
              else (t, w)
        end in
      let '(rest1, w2) := fire_turrets rest w1 in
      (t1 :: rest1, w2)
  end.

(** [Weapons.update]. *)
Definition Weapons_update (weapons : Weapons) (w : World) : World :=
  let '(ts, w1) := fire_turrets (Turret_update <$> turrets weapons) w in
  with_unit w1 (set_weapons (unit w1) (Some {| turrets := ts |})).

(** unit_templates.py and constants.py: the hit points of a unit built
    from a template ([HIT_POINTS[template["hull_size"]]]). *)
Definition template_hit_points (name : string) : option Z :=
  if bool_decide (name = "CONSTRUCTOR_MK1"%string) then Some 100
  else if bool_decide (name = "STATION_MK1"%string) then Some 200
  else None.

(** [Constructor.create_unit_from_template]: the new unit takes the
    next [GameObject] id and is added to the hex of the builder. *)
Definition create_unit_from_template (w : World) (template_name : string)
    (system_name : option string) (hex_coord : HexCoord) (pos : Position) : World :=
  match template_hit_points template_name with
  | None => w
  | Some hp =>
      match system_name with
      | None => w
      | Some name =>
          match systems (galaxy w) !! name with
          | None => w
          | Some _ =>
              let k := object_counter w in
              let '(g1, _) := add_unit (galaxy w) name hex_coord k in
              let new_unit :=
                {| ou_in_galaxy := false; ou_in_system := Some name;
                   ou_in_hex := hex_coord; ou_position := pos;
                   ou_current_hit_points := hp |} in
              with_object_counter
                (with_galaxy (with_other_units w (<[k := new_unit]> (other_units w))) g1)
                (k + 1)
          end
      end
  end.

(** [Constructor.update] with [finish_construction]. *)
Definition Constructor_update (c : Constructor) (w : World) : World :=
  match current_construction_target c with
  | None => w
  | Some (name, pos) =>
      let progress := construction_progress c + 1 in
      if time_to_build c <=? progress then
        let w1 := create_unit_from_template w name (in_system (unit w))
                                            (in_hex (unit w)) pos in
        with_unit w1
          (set_constructor (unit w1)
             (Some {| buildable_units := buildable_units c;
                      current_construction_target := None;
                      construction_progress := 0;
                      time_to_build := 0 |}))
      else
        with_unit w
          (set_constructor (unit w)
             (Some {| buildable_units := buildable_units c;
                      current_construction_target := current_construction_target c;
                      construction_progress := progress;
                      time_to_build := time_to_build c |}))
  end.

(** The unit together with its commander. *)
Record State : Type := mkState {
  commander_component : Commander;
  world : World
}.

(** [Unit.update]. *)
Definition Unit_update (depth : nat) (s : State) : result State :=
  let w := world s in
  let w1 := with_unit w (set_hyperdrive (unit w)
                           (update_recharge <$> hyperdrive_component (unit w))) in
  let w2 := match weapons_component (unit w1) with
            | Some weapons => if in_galaxy (unit w1) then Weapons_update weapons w1 else w1
            | None => w1
            end in
  let w3 := match constructor_component (unit w2) with
            | Some c => if in_galaxy (unit w2) then Constructor_update c w2 else w2
            | None => w2
            end in
  do '(c, w4) <- CommanderComponent.update depth (commander_component s) w3;
  Ok {| commander_component := c; world := w4 |}.

(** Where [StarSystem.get_all_units] of some system reports the unit:
    the system and the hex whose [units] list holds its id. *)
Definition find_unit_hex (g : Galaxy) (uid : Z) : option (string * HexCoord) :=
  let in_system_hexes (entry : string * StarSystem) :=
    (fun h => (entry.1, h.1))
      <$> List.find (fun h => bool_decide (uid ∈ units h.2)) (map_to_list (hexes entry.2)) in
  List.find (fun _ => true) (omap in_system_hexes (map_to_list (systems g))).

(** The entries of [units_to_move]. *)
Inductive Movement : Type :=
| system_jump (target_sys_name : string)
| hex_jump (target_hex : HexCoord) (target_pos : Position).

(** The first loop of phase 1 for the unit, found in hex [current_hex]
    of the system [system] named [system_name]: queue a jump or move on
    sub-light. *)
Definition resolve_movement (w : World) (system_name : string) (system : StarSystem)
    (current_hex : HexCoord) : result (World * option Movement) :=
  let u := unit w in
  let wormhole_target := hyperdrive_component u ≫= wormhole_jump_target in
  let hex_target := hyperdrive_component u ≫= hex_jump_target in
  let sublight_target := engines_component u ≫= move_target in
  match wormhole_target, hex_target, engines_component u, sublight_target with
  | Some target_wormhole_obj, _, _, _ =>
      let name := exit_system_name target_wormhole_obj in
      let exit_id_set :=
        match exit_wormhole_id target_wormhole_obj with
        | Some k => negb (k =? 0)
        | None => false
        end in
      if negb (bool_decide (name = EmptyString)) && exit_id_set
         && bool_decide (is_Some (systems (galaxy w) !! name))
      then Ok (w, Some (system_jump name))
      else Ok (w, None)
  | None, Some (target_hex_for_jump, target_position_for_jump), _, _ =>
      if negb (bool_decide (target_hex_for_jump = current_hex))
         && bool_decide (is_Some (hexes system !! target_hex_for_jump))
      then Ok (w, Some (hex_jump target_hex_for_jump target_position_for_jump))
      else Ok (w, None)
  | None, None, Some engines, Some target_pos_in_sector =>
      let pos1 := SectorUtils.move_towards_position (position u) target_pos_in_sector
                                                    (speed engines) in
      let u1 := set_position u pos1 in
      do g1 <-
         match inhibitor_component u1 with
         | Some inhibitor =>
             if is_active inhibitor then
               do current_hex_obj <- hexes_index system (in_hex u1);
               Ok (store_hex (galaxy w) system_name (in_hex u1)
                     (set_dynamic_inhibition_zones current_hex_obj
                        (ODict.set (id u1) (mkCircle pos1 (field_radius inhibitor))
                                   (dynamic_inhibition_zones current_hex_obj))))
             else Ok (galaxy w)
         | None => Ok (galaxy w)
         end;
      let dist_after_move := distance pos1 target_pos_in_sector in
      let u2 :=
        if Rltb dist_after_move (1 / 100)
        then clear_move_target (set_position u1 target_pos_in_sector)
        else u1 in
      Ok (with_galaxy (with_unit w u2) g1, None)
  | _, _, _, _ => Ok (w, None)
  end.

Definition set_jump (w : World) (hd : Hyperdrive) : World :=
  with_unit w (set_hyperdrive (unit w) (Some hd)).

(** [Galaxy.move_unit_between_systems]: the world afterwards and the
    method's result. *)
Definition move_unit_between_systems (w : World) (origin_system_name : string)
    (destination_system_name : string) (destination_hex : HexCoord)
    : result (World * bool) :=
  do _ <- systems_index (galaxy w) (Some origin_system_name);
  do destination_system <- systems_index (galaxy w) (Some destination_system_name);
  if negb (bool_decide (is_Some (hexes destination_system !! destination_hex)))
  then Ok (w, false)
  else
    let u := unit w in
    let '(g1, removed) :=
      remove_unit (galaxy w) origin_system_name (in_hex u) (id u) in
    if negb removed then Ok (w, false)
    else
      let u1 := set_in_hex (set_in_system u (Some destination_system_name))
                           destination_hex in
      let '(g2, _) := add_unit g1 destination_system_name destination_hex (id u) in
      Ok (with_galaxy (with_unit w u1) g2, true).

(** [StarSystem.move_unit_between_hexes] on the system [system_name]. *)
Definition move_unit_between_hexes (w : World) (system_name : string)
    (destination_hex : HexCoord) : World * bool :=
  let u := unit w in
  let origin_hex := in_hex u in
  if bool_decide (origin_hex = destination_hex) then (w, false)
  else
    match systems (galaxy w) !! system_name with
    | None => (w, false)
    | Some s =>
        if negb (bool_decide (is_Some (hexes s !! destination_hex))) then (w, false)
        else
          let '(g1, removed) := remove_unit (galaxy w) system_name origin_hex (id u) in
          if negb removed then (w, false)
          else
            let u1 := set_in_hex (set_in_system u None) destination_hex in
            let '(g2, added) := add_unit g1 system_name destination_hex (id u) in
            let u2 := if added then set_in_system u1 (Some system_name) else u1 in
            (with_galaxy (with_unit w u2) g2, true)
    end.

(** The check of the hyperdrive state that opens both jump branches:
    [None] when the jump is skipped this turn ([continue]), otherwise
    the hyperdrive, now JUMPING.  A drive found JUMPING is reset to
    READY first. *)
Definition begin_jump (hd_comp : Hyperdrive) : option Hyperdrive :=
  match jump_status hd_comp with
  | CHARGING => None
  | ERROR => None
  | JUMPING | READY => Some (set_jump_status hd_comp JUMPING)
  end.

Definition inhibited (h : Hex) (p : Position) : bool :=
  existsb (is_point_in_circle p) (get_all_inhibition_zones h).

(** The ["system_jump"] branch of the second loop of phase 1. *)
Definition execute_system_jump (w : World) (target_sys_name : string) : result World :=
  match in_system (unit w) with
  | None => Raise KeyError
  | Some origin_name =>
  do _ <- systems_index (galaxy w) (Some origin_name);
  match hyperdrive_component (unit w) with
  | None => Ok w
  | Some hd_comp =>
      match begin_jump hd_comp with
      | None => Ok w
      | Some hd =>
          do _ <- systems_index (galaxy w) (Some target_sys_name);
          let failed (clear : bool) :=
            let hd1 := set_jump_status hd ERROR in
            set_jump w (if clear then set_wormhole_jump_target hd1 None else hd1) in
          match wormhole_jump_target hd with
          | None => Ok (failed false)
          | Some entry_wormhole =>
              match exit_wormhole_id entry_wormhole with
              | None => Ok (failed true)
              | Some exit_wh_id =>
                  if exit_wh_id =? 0 then Ok (failed true)
                  else
                    do exit_wormhole_obj <- wormholes_index (galaxy w) (Some exit_wh_id);
                    if negb (bool_decide (wh_in_system exit_wormhole_obj = target_sys_name))
                    then Ok (failed true)
                    else
                      let arrival_hex := wh_in_hex exit_wormhole_obj in
                      let w1 := with_unit (set_jump w hd)
                                  (set_position (unit (set_jump w hd))
                                                (wh_position exit_wormhole_obj)) in
                      do '(w2, moved) <-
                         move_unit_between_systems w1 origin_name target_sys_name arrival_hex;
                      if moved then Ok (set_jump w2 (start_recharge hd))
                      else Ok (set_jump w2
                                 (set_wormhole_jump_target (set_jump_status hd ERROR) None))
              end
          end
      end
  end
  end.

(** The ["hex_jump"] branch of the second loop of phase 1. *)
Definition execute_hex_jump (w : World) (target_hex : HexCoord) (target_pos : Position)
    : result World :=
  match in_system (unit w) with
  | None => Raise KeyError
  | Some origin_name =>
  do origin_system <- systems_index (galaxy w) (Some origin_name);
  match hyperdrive_component (unit w) with
  | None => Ok w
  | Some hd_comp =>
      match begin_jump hd_comp with
      | None => Ok w
      | Some hd =>
          let failed (clear : bool) :=
            let hd1 := set_jump_status hd ERROR in
            set_jump w (if clear then set_hex_jump_target hd1 None else hd1) in
          match hex_jump_target hd with
          | None => Ok (failed false)
          | Some _ =>
              if negb (bool_decide (is_Some (hexes origin_system !! target_hex)))
              then Ok (failed true)
              else if jump_range hd <? HexPath.hex_distance (in_hex (unit w)) target_hex
              then Ok (failed true)
              else
                do origin_hex_obj <- hexes_index origin_system (in_hex (unit w));
                if inhibited origin_hex_obj (position (unit w)) then Ok (failed true)
                else
                  do destination_hex_obj <- hexes_index origin_system target_hex;
                  if inhibited destination_hex_obj target_pos then Ok (failed true)
                  else
                    let w1 := with_unit (set_jump w hd)
                                (set_position (unit (set_jump w hd)) target_pos) in
                    let '(w2, moved) := move_unit_between_hexes w1 origin_name target_hex in
                    if moved then Ok (set_jump w2 (start_recharge hd))
                    else Ok (set_jump w2
                               (set_hex_jump_target (set_jump_status hd ERROR) None))
          end
      end
  end
  end.

Definition TAX_RATE : R := (1 / 10)%R.

Definition add_credits (ps : list Player) (player : Z) (income : R) : list Player :=
  (fun p => if player_id p =? player
            then {| player_id := player_id p; credits := (credits p + income)%R |}
            else p) <$> ps.

Definition set_bodies (g : Galaxy) (b : gmap Z Planet) : Galaxy :=
  {| systems := systems g;
     wormholes := wormholes g;
     system_graph := system_graph g;
     celestial_bodies_by_id := b |}.

(** Credits raised from the bodies the player owns. *)
Definition tax_income (g : Galaxy) (player : Z) : R :=
  foldr (fun body acc =>
           if owner_eqb (body_owner body.2) player
           then (population body.2 * TAX_RATE + acc)%R else acc)
        0%R (map_to_list (celestial_bodies_by_id g)).

(** [TurnProcessor.process_turn] for the acting player [current_player],
    as far as it concerns the commanded unit: phase 1 resolves its
    movement and executes its queued jump, phases 2 and 3 grow the
    populations and raise the taxes, phase 4 calls [unit.update()].
    The other units are not advanced.  The unit is taken to be listed
    in at most one cell of the galaxy, as [add_unit] and [remove_unit]
    keep it: the loops over the systems then meet it once, where
    [find_unit_hex] finds it.  (After a system jump into a system that
    the loop of phase 1 visits later the code meets the unit a second
    time; its jump targets are cleared by then, so that visit could
    only move it on sub-light towards a move target left beside the
    jump target, which no order leaves.  That visit is not modelled.) *)
Definition process_turn (depth : nat) (current_player : Z) (s : State) : result State :=
  let w := world s in
  if bool_decide (systems (galaxy w) = ∅) then Ok s
  else
    let mine := bool_decide (owner (unit w) = current_player) in
    do w1 <-
       match find_unit_hex (galaxy w) (id (unit w)) with
       | Some (system_name, current_hex) =>
           if mine then
             do system <- systems_index (galaxy w) (Some system_name);
             do '(w1, movement) <- resolve_movement w system_name system current_hex;
             match movement with
             | None => Ok w1
             | Some (system_jump target_sys_name) => execute_system_jump w1 target_sys_name
             | Some (hex_jump target_hex target_pos) =>
                 execute_hex_jump w1 target_hex target_pos
             end
           else Ok w
       | None => Ok w
       end;
    let w2 := with_galaxy w1
                (set_bodies (galaxy w1)
                   (update_population <$> celestial_bodies_by_id (galaxy w1))) in
    let w3 := with_players w2
                (add_credits (players w2) current_player
                             (tax_income (galaxy w2) current_player)) in
    match find_unit_hex (galaxy w3) (id (unit w3)) with
    | Some _ =>
        if mine
        then Unit_update depth {| commander_component := commander_component s;
                                  world := w3 |}
        else Ok {| commander_component := commander_component s; world := w3 |}
    | None => Ok {| commander_component := commander_component s; world := w3 |}
    end.

End Turn.
(* ================================================================== *)
(** * Properties *)
(* ================================================================== *)

(** ** Hex jump paths *)

Module HexPathFacts.
Import HexPath.

(** C1.  [find_hex_jump_path] at start (0,0), end (1,14), range 2: the
    route ends at the end hex, but the hop from (0,7) to (1,9) has hex
    distance 3, beyond the range the docstring promises to respect.
    Every interpolation parameter here is a multiple of 1/8, so the
    float computation of the source is exact at this input. *)
Theorem find_hex_jump_path_exceeds_range :
  find_hex_jump_path (0, 0) (1, 14) 2
    = Ok [(0, 2); (0, 4); (0, 5); (0, 7); (1, 9); (1, 10); (1, 12); (1, 14)]
  /\ hex_distance (0, 7) (1, 9) = 3
  /\ hops_within 2 (0, 0)
       [(0, 2); (0, 4); (0, 5); (0, 7); (1, 9); (1, 10); (1, 12); (1, 14)] = false.
Proof. vm_compute. auto. Qed.

End HexPathFacts.

(** ** Circle predicates *)

Module GeometryFacts.
Import Geometry.
Local Open Scope R_scope.

Lemma Rleb_true a b : Rleb a b = true <-> a <= b.
Proof. unfold Rleb. destruct (Rle_dec a b); split; auto; discriminate. Qed.

Lemma Rltb_true a b : Rltb a b = true <-> a < b.
Proof. unfold Rltb. destruct (Rlt_dec a b); split; auto; discriminate. Qed.


Lemma Rltb_false a b : Rltb a b = false <-> b <= a.
Proof.
  unfold Rltb. destruct (Rlt_dec a b); split; intros; try discriminate; lra.
Qed.



Lemma distance_refl p : distance p p = 0.
Proof.
  unfold distance, distance_sq.
  replace ((x p - x p) ^ 2 + (y p - y p) ^ 2) with 0 by ring. apply sqrt_0.
Qed.





Example point_on_the_edge_is_inside :
  is_point_in_circle (mkPosition 3 4) (mkCircle (mkPosition 0 0) 5) = true.
Proof. apply Rleb_true. unfold distance_sq. simpl. lra. Qed.

Example touching_circles_do_not_intersect :
  do_circles_intersect (mkCircle (mkPosition 0 0) 2) (mkCircle (mkPosition 5 0) 3) = false.
Proof. apply Rltb_false. unfold distance_sq. simpl. lra. Qed.


End GeometryFacts.

(** ** Colony cargo *)

Module ColonyFacts.
Import Geometry GeometryFacts Entities Components.
Local Open Scope R_scope.

(** The transfer in exact arithmetic.  With the population read as a
    real number, [load_population] and [unload_population] keep the sum
    of the planet's population and the cargo, and a call that returns
    [False] leaves both as they were.  The sign of [amount] plays no
    role.  [ColonyTransferFacts] treats the population as the [int] or
    [float] that Python holds. *)
Theorem colony_transfer_conserves_population :
  forall (unit_owner : Z) (c : ColonyComponent) (planet : Planet) (amount : Z),
    (forall c' planet' ok,
       load_population unit_owner c planet amount = (c', planet', ok) ->
       population planet' + IZR (population_cargo c')
         = population planet + IZR (population_cargo c)
       /\ (ok = false ->
           population planet' = population planet
           /\ population_cargo c' = population_cargo c))
    /\ (forall c' planet' ok,
       unload_population unit_owner c planet amount = (c', planet', ok) ->
       population planet' + IZR (population_cargo c')
         = population planet + IZR (population_cargo c)
       /\ (ok = false ->
           population planet' = population planet
           /\ population_cargo c' = population_cargo c)).
Proof.
  intros unit_owner c planet amount. split; intros c' planet' ok.
  - unfold load_population.
    repeat case_match; intros [= <- <- <-]; simpl;
      rewrite ?plus_IZR; split; try lra; try discriminate; auto.
  - unfold unload_population.
    repeat case_match; intros [= <- <- <-]; simpl;
      rewrite ?minus_IZR; split; try lra; try discriminate; auto.
Qed.

(** A colony ship of player 0 with empty holds at a planet of player 0
    with a population of 100. *)
Definition home : Planet :=
  mkPlanet 5 "Sol" (0, 0)%Z (mkPosition 0 0) (Some 0%Z) 100 1000 (1 / 10).

Lemma load_from_home :
  load_population 0 (mkColony 0 100) home 50
  = (mkColony 50 100, set_population home (Some 0%Z) (100 - 50), true).
Proof.
  unfold load_population. simpl.
  replace (Rltb 100 50) with false; [reflexivity|].
  symmetry. apply Rltb_false. lra.
Qed.

Lemma colony_transfer_conserves_population_witness :
  population (set_population home (Some 0%Z) (100 - 50)) + IZR 50
  = population home + IZR 0.
Proof.
  exact (proj1 (proj1 (colony_transfer_conserves_population 0 (mkColony 0 100) home 50)
                  _ _ _ load_from_home)).
Defined.

End ColonyFacts.

(** ** The order tree *)

Module OrderFacts.
Import Geometry Entities Components Game Orders.

Lemma bind_Ok {A B} (m : result A) (k : A -> result B) (b : B) :
  bind m k = Ok b -> exists a, m = Ok a /\ k a = Ok b.
Proof. destruct m; simpl; intros H; try discriminate. eauto. Qed.

(** Decompose hypotheses [bind m k = Ok b]. *)
Ltac inv_bind :=
  repeat match goal with
         | H : bind _ _ = Ok _ |- _ =>
             let a := fresh "a" in
             let Ha := fresh "Ha" in
             apply bind_Ok in H; destruct H as (a & Ha & H)
         | H : Ok _ = Ok _ |- _ => injection H as H; subst
         | H : (_, _) = (_, _) |- _ => injection H as H; subst
         end.

Lemma OrderStatus_eqb_eq a b : OrderStatus_eqb a b = true <-> a = b.
Proof. destruct a, b; simpl; split; intros; congruence. Qed.

Lemma status_set_status o s : status (set_status o s) = s.
Proof. reflexivity. Qed.

Lemma sub_orders_set_sub_orders o l : sub_orders (set_sub_orders o l) = l.
Proof. reflexivity. Qed.

Lemma set_sub_orders_same o : set_sub_orders o (sub_orders o) = o.
Proof. destruct o; reflexivity. Qed.

(** What no method ever changes of an order. *)
Definition same_order (o o' : Order) : Prop :=
  order_id o' = order_id o
  /\ order_type o' = order_type o
  /\ parameters o' = parameters o.

Lemma same_order_refl o : same_order o o.
Proof. repeat split. Qed.

Lemma same_order_trans o1 o2 o3 :
  same_order o1 o2 -> same_order o2 o3 -> same_order o1 o3.
Proof. unfold same_order. intuition congruence. Qed.

Lemma check_completion_conditions_shape o w o' w' :
  check_completion_conditions o w = Ok (o', w') ->
  o' = o \/ (status o = IN_PROGRESS /\ o' = set_status o COMPLETED).
Proof.
  unfold check_completion_conditions.
  destruct (OrderStatus_eqb (status o) IN_PROGRESS) eqn:E; simpl.
  2:{ intros [= <- <-]. auto. }
  apply OrderStatus_eqb_eq in E.
  destruct (order_type o); intros H; inv_bind;
    repeat (first [ progress inv_bind | case_match; try discriminate ]);
    auto.
Qed.

Lemma make_orders_app_length specs c :
  length (make_orders specs c).1 = length specs.
Proof.
  revert c. induction specs as [|[t p] specs IH]; intros c; simpl; [done|].
  specialize (IH (c + 1)). destruct (make_orders specs (c + 1)). simpl in *. lia.
Qed.

(** A sub-order as [Order(...)] constructs it. *)
Definition fresh (o : Order) : Prop := status o = PENDING /\ sub_orders o = [].

Lemma make_orders_fresh specs c : Forall fresh (make_orders specs c).1.
Proof.
  revert c. induction specs as [|[t p] specs IH]; intros c; simpl; [constructor|].
  specialize (IH (c + 1)). destruct (make_orders specs (c + 1)). simpl in *.
  constructor; [split; reflexivity | done].
Qed.

Lemma execute_shape o w o' w' :
  execute o w = Ok (o', w') ->
  (status o <> PENDING /\ o' = o /\ w' = w)
  \/ (status o = PENDING
      /\ exists w1 st specs,
          execute_body (set_status o IN_PROGRESS) w = Ok (w1, st, specs)
          /\ o' = set_sub_orders (set_status o st)
                    (sub_orders o ++ (make_orders specs (order_counter w1)).1)
          /\ w' = with_order_counter w1 (make_orders specs (order_counter w1)).2).
Proof.
  unfold execute. destruct (OrderStatus_eqb (status o) PENDING) eqn:E; simpl.
  - apply OrderStatus_eqb_eq in E. intros H.
    apply bind_Ok in H as ([[w1 st] specs] & Ha & H). right. split; [done|].
    exists w1, st, specs. split; [done|].
    unfold add_sub_orders in H.
    destruct (make_orders specs (order_counter w1)) as [os c] eqn:Em.
    injection H as <- <-. simpl. split; [|done].
    destruct o; reflexivity.
  - intros [= <- <-]. left. split; [|done].
    intros Hp. rewrite Hp in E. discriminate.
Qed.

(** *** What [update] keeps of the order itself *)

Lemma execute_same_order o w o' w' :
  execute o w = Ok (o', w') -> same_order o o'.
Proof.
  intros H. apply execute_shape in H as [(_ & -> & _)|(_ & w1 & st & specs & _ & -> & _)].
  - apply same_order_refl.
  - destruct o; repeat split.
Qed.

Lemma check_completion_conditions_same_order o w o' w' :
  check_completion_conditions o w = Ok (o', w') -> same_order o o'.
Proof.
  intros H. apply check_completion_conditions_shape in H as [->|[_ ->]].
  - apply same_order_refl.
  - destruct o; repeat split.
Qed.

Lemma check_completion_conditions_sub_orders o w o' w' :
  check_completion_conditions o w = Ok (o', w') -> sub_orders o' = sub_orders o.
Proof.
  intros H. apply check_completion_conditions_shape in H as [->|[_ ->]]; [done|].
  destruct o; reflexivity.
Qed.

(** The three outcomes of [update] at depth [S depth]: the queue was
    drained and the order's own completion was checked, or drained
    without the check, or the call returned from inside the loop. *)
Lemma update_shape depth o w o' w' :
  update (S depth) o w = Ok (o', w') ->
  exists subs w1,
    drain (update depth) (sub_orders o) w = Ok (subs, w1)
    /\ ((subs = [] /\ status o = IN_PROGRESS
         /\ check_completion_conditions (set_sub_orders o []) w1 = Ok (o', w'))
        \/ (subs = [] /\ status o <> IN_PROGRESS /\ o' = set_sub_orders o [] /\ w' = w1)
        \/ (subs <> [] /\ o' = set_sub_orders o subs /\ w' = w1)).
Proof.
  simpl. intros H. apply bind_Ok in H as ([subs w1] & Ha & H).
  exists subs, w1. split; [done|].
  destruct subs as [|s subs].
  - change (status (set_sub_orders o [])) with (status o) in H.
    destruct (OrderStatus_eqb (status o) IN_PROGRESS) eqn:E.
    + apply OrderStatus_eqb_eq in E. left. repeat split; auto.
    + injection H as <- <-. right. left. repeat split; auto.
      intros Hs. rewrite Hs in E. discriminate.
  - injection H as <- <-. right. right. repeat split; auto.
Qed.

Lemma update_same_order depth o w o' w' :
  update depth o w = Ok (o', w') -> same_order o o'.
Proof.
  destruct depth; [discriminate|]. intros H.
  apply update_shape in H as (subs & w1 & _ & [(_ & _ & H)|[(_ & _ & -> & _)|(_ & -> & _)]]).
  - apply check_completion_conditions_same_order in H.
    eapply same_order_trans; [|exact H]. destruct o; repeat split.
  - destruct o; repeat split.
  - destruct o; repeat split.
Qed.

(** [update] never changes the status of an order that is not
    IN_PROGRESS. *)
Lemma update_status depth o w o' w' :
  status o <> IN_PROGRESS ->
  update depth o w = Ok (o', w') -> status o' = status o.
Proof.
  intros Hs. destruct depth; [discriminate|]. intros H.
  apply update_shape in H as (subs & w1 & _ & [(_ & E & _)|[(_ & _ & -> & _)|(_ & -> & _)]]);
    [done|reflexivity|reflexivity].
Qed.

(** *** The shape of the sub-order queues *)

Definition queue_wf (wf : Order -> Prop) (subs : list Order) : Prop :=
  match subs with
  | [] => True
  | front :: rest => wf front /\ Forall fresh rest
  end.

(** Every queue of the tree holds, behind its front element, only
    sub-orders that have not been started. *)
Fixpoint wf (o : Order) : Prop :=
  match o with
  | mkOrder _ _ _ _ subs =>
      match subs with
      | [] => True
      | front :: rest => wf front /\ Forall fresh rest
      end
  end.

Lemma wf_unfold o : wf o <-> queue_wf wf (sub_orders o).
Proof. destruct o as [i t p st [|f r]]; simpl; tauto. Qed.

Lemma fresh_wf o : fresh o -> wf o.
Proof. intros [_ H]. apply wf_unfold. rewrite H. exact I. Qed.

Lemma wf_set_status o s : wf (set_status o s) <-> wf o.
Proof. destruct o as [i t p st [|f r]]; simpl; tauto. Qed.

Lemma queue_wf_app_fresh subs new :
  queue_wf wf subs -> Forall fresh new -> queue_wf wf (subs ++ new).
Proof.
  destruct subs as [|f r]; simpl.
  - intros _ H. destruct H as [|n new Hn H]; simpl; [done|].
    split; [by apply fresh_wf | done].
  - intros [Hf Hr] H. split; [done|]. by apply Forall_app.
Qed.

Lemma execute_wf o w o' w' :
  wf o -> execute o w = Ok (o', w') -> wf o'.
Proof.
  intros Hwf H.
  apply execute_shape in H as [(_ & -> & _)|(_ & w1 & st & specs & _ & -> & _)]; [done|].
  apply wf_unfold. rewrite sub_orders_set_sub_orders.
  apply queue_wf_app_fresh; [by apply wf_unfold | apply make_orders_fresh].
Qed.

Lemma drain_wf upd subs w subs' w' :
  (forall s w s' w', wf s -> upd s w = Ok (s', w') -> wf s') ->
  queue_wf wf subs ->
  drain upd subs w = Ok (subs', w') -> queue_wf wf subs'.
Proof.
  intros Hupd. revert w. induction subs as [|s rest IH]; intros w Hq H; simpl in H.
  - by injection H as <- <-.
  - destruct Hq as [Hs Hrest].
    apply bind_Ok in H as ([s1 w1] & Ha & H).
    apply bind_Ok in H as ([s2 w2] & Hb & H).
    assert (wf s1) as Hs1.
    { destruct (OrderStatus_eqb (status s) PENDING).
      - by eapply execute_wf.
      - by injection Ha as <- <-. }
    assert (wf s2) as Hs2.
    { destruct (OrderStatus_eqb (status s1) IN_PROGRESS).
      - by eapply Hupd.
      - by injection Hb as <- <-. }
    destruct (terminal (status s2)).
    + eapply IH; [|exact H].
      destruct Hrest as [|r rest Hr Hrest]; simpl; [done|].
      split; [by apply fresh_wf | done].
    + injection H as <- <-. by split.
Qed.

Lemma update_wf depth o w o' w' :
  wf o -> update depth o w = Ok (o', w') -> wf o'.
Proof.
  revert o w o' w'. induction depth as [|depth IH]; intros o w o' w' Hwf H;
    [discriminate|].
  apply update_shape in H as (subs & w1 & Hd & Hcases).
  eapply drain_wf in Hd; [|exact IH|by apply wf_unfold].
  destruct Hcases as [(-> & _ & H)|[(-> & _ & -> & _)|(_ & -> & _)]].
  - apply wf_unfold.
    rewrite (check_completion_conditions_sub_orders _ _ _ _ H). exact I.
  - apply wf_unfold. exact I.
  - by apply wf_unfold.
Qed.

(** *** Lifting a property of the world through the order tree *)

Section WorldInvariant.
Variable P : World -> Prop.
Hypothesis P_execute_body :
  forall o w w' st specs, P w -> execute_body o w = Ok (w', st, specs) -> P w'.
Hypothesis P_check :
  forall o w o' w', P w -> check_completion_conditions o w = Ok (o', w') -> P w'.
Hypothesis P_order_counter : forall w c, P w -> P (with_order_counter w c).

Lemma execute_preserves o w o' w' :
  P w -> execute o w = Ok (o', w') -> P w'.
Proof.
  intros HP H.
  apply execute_shape in H as [(_ & _ & ->)|(_ & w1 & st & specs & Hb & _ & ->)]; [done|].
  apply P_order_counter. eauto.
Qed.

Lemma drain_preserves upd subs w subs' w' :
  (forall s w s' w', P w -> upd s w = Ok (s', w') -> P w') ->
  P w -> drain upd subs w = Ok (subs', w') -> P w'.
Proof.
  intros Hupd. revert w. induction subs as [|s rest IH]; intros w HP H; simpl in H.
  - by injection H as <- <-.
  - apply bind_Ok in H as ([s1 w1] & Ha & H).
    apply bind_Ok in H as ([s2 w2] & Hb & H).
    assert (P w1) as HP1.
    { destruct (OrderStatus_eqb (status s) PENDING).
      - by eapply execute_preserves.
      - by injection Ha as <- <-. }
    assert (P w2) as HP2.
    { destruct (OrderStatus_eqb (status s1) IN_PROGRESS).
      - by eapply Hupd.
      - by injection Hb as <- <-. }
    destruct (terminal (status s2)).
    + by eapply IH.
    + by injection H as <- <-.
Qed.

Lemma update_preserves depth o w o' w' :
  P w -> update depth o w = Ok (o', w') -> P w'.
Proof.
  revert o w o' w'. induction depth as [|depth IH]; intros o w o' w' HP H;
    [discriminate|].
  apply update_shape in H as (subs & w1 & Hd & Hcases).
  eapply drain_preserves in Hd; [|exact IH|done].
  destruct Hcases as [(_ & _ & H)|[(_ & _ & _ & ->)|(_ & _ & ->)]]; eauto.
Qed.
End WorldInvariant.

(** *** A COMPLETED order has no sub-orders left *)

Lemma plan_hex_jump_sequence_status w a b p n st specs :
  plan_hex_jump_sequence w a b p n = Ok (st, specs) -> st = None \/ st = Some FAILED.
Proof.
  unfold plan_hex_jump_sequence. intros H.
  repeat (first [ progress inv_bind | case_match; try discriminate ]); auto.
Qed.

Lemma plan_legs_status w path h st draws r :
  (st = None \/ st = Some FAILED) ->
  plan_legs w path h st draws = Ok r ->
  match r with
  | inl _ => True
  | inr (st', _, _, _) => st' = None \/ st' = Some FAILED
  end.
Proof.
  revert h st draws r. induction path as [|a path IH]; intros h st draws r Hst H.
  - simpl in H. injection H as <-. done.
  - simpl in H. destruct path as [|b path']; [injection H as <-; done|].
    destruct (find_wormhole_to_system _ _ _); [|injection H as <-; done].
    apply bind_Ok in H as (ex & _ & H).
    apply bind_Ok in H as ([st1 to_entry] & H1 & H).
    apply bind_Ok in H as ([escape draws1] & _ & H).
    apply bind_Ok in H as (r' & Hr & H).
    apply IH in Hr.
    + destruct r' as [[specs d]|[[[s specs] h'] d]]; injection H as <-; done.
    + match type of H1 with (if ?b then _ else _) = _ => destruct b end.
      * apply plan_hex_jump_sequence_status in H1 as [->| ->]; auto.
      * injection H1 as <- <-. done.
Qed.

Lemma or_status_not_completed st1 st2 :
  (st1 = None \/ st1 = Some FAILED) -> (st2 = None \/ st2 = Some FAILED) ->
  or_status st2 (or_status st1 IN_PROGRESS) <> COMPLETED.
Proof. intros [->| ->] [->| ->]; simpl; discriminate. Qed.

Lemma plan_route_completed params w specs draws :
  plan_route params w = Ok (COMPLETED, specs, draws) -> specs = [].
Proof.
  unfold plan_route. intros H.
  apply bind_Ok in H as (dsys & _ & H).
  apply bind_Ok in H as (dhex & _ & H).
  apply bind_Ok in H as (dpos & _ & H).
  destruct dsys as [dsys|]; [|discriminate].
  destruct dhex as [dhex|]; [|discriminate].
  destruct dpos as [dpos|]; [|discriminate].
  destruct (_ && _ && _); [by injection H as <- <-|].
  apply bind_Ok in H as (escape & _ & H).
  destruct (negb (bool_decide (in_system (unit w) = Some dsys))).
  - destruct (hyperdrive_component (unit w)); [|discriminate].
    destruct (find_wormhole_to_system _ _ _).
    + apply bind_Ok in H as (exit_wh & _ & H).
      apply bind_Ok in H as ([st1 to_entry] & H1 & H).
      apply bind_Ok in H as ([exit_specs draws1] & _ & H).
      apply bind_Ok in H as ([st2 final] & H2 & H).
      injection H as H _ _. exfalso. revert H. apply or_status_not_completed.
      * match type of H1 with (if ?b then _ else _) = _ => destruct b end;
          [by eapply plan_hex_jump_sequence_status|].
        injection H1 as <- <-. auto.
      * match type of H2 with (if ?b then _ else _) = _ => destruct b end;
          [by eapply plan_hex_jump_sequence_status|].
        injection H2 as <- <-. auto.
    + apply bind_Ok in H as (path & _ & H).
      destruct path as [path|]; [|discriminate].
      destruct (_ <? _)%nat; [discriminate|].
      apply bind_Ok in H as (legs & Hlegs & H).
      apply plan_legs_status in Hlegs; [|auto].
      destruct legs as [[specs' d]|[[[st1 specs'] h'] d]]; [discriminate|].
      apply bind_Ok in H as ([st2 final] & H2 & H).
      injection H as H _ _. exfalso. revert H. apply or_status_not_completed; [done|].
      by eapply plan_hex_jump_sequence_status.
  - destruct (negb (bool_decide (in_hex (unit w) = dhex))).
    + apply bind_Ok in H as ([st1 specs'] & H1 & H).
      injection H as H _ _. exfalso.
      apply plan_hex_jump_sequence_status in H1 as [->| ->]; discriminate.
    + destruct (engines_component (unit w)); discriminate.
Qed.

(** The methods that add sub-orders never complete the order in the
    same call. *)
Lemma execute_body_completed o w w' specs :
  execute_body o w = Ok (w', COMPLETED, specs) -> specs = [].
Proof.
  unfold execute_body. destruct (order_type o); intros H.
  - apply bind_Ok in H as ([w1 st] & _ & H). by simplify_eq.
  - apply bind_Ok in H as ([[st sp] d] & Hp & H). simplify_eq.
    by eapply plan_route_completed.
  - discriminate.
  - unfold _execute_attack in H.
    repeat (first [ progress inv_bind | case_match; try discriminate ]).
  - discriminate.
  - apply bind_Ok in H as ([w1 st] & _ & H). by simplify_eq.
  - unfold _execute_colonize in H.
    repeat (first [ progress inv_bind | case_match; try discriminate ]); done.
  - unfold _execute_load_colonists in H.
    repeat (first [ progress inv_bind | case_match; try discriminate ]); done.
  - apply bind_Ok in H as ([w1 st] & _ & H). by simplify_eq.
Qed.

Definition clean (o : Order) : Prop := status o = COMPLETED -> sub_orders o = [].

Lemma execute_clean o w o' w' :
  fresh o -> execute o w = Ok (o', w') -> clean o'.
Proof.
  intros [Hp Hs] H.
  apply execute_shape in H as [(Hn & _ & _)|(_ & w1 & st & specs & Hb & -> & _)]; [done|].
  intros Hst. change (st = COMPLETED) in Hst. subst st.
  apply execute_body_completed in Hb as ->.
  rewrite sub_orders_set_sub_orders, Hs. reflexivity.
Qed.

Lemma drain_nil upd w : drain upd [] w = Ok ([], w).
Proof. reflexivity. Qed.

Lemma update_clean depth o w o' w' :
  clean o -> update depth o w = Ok (o', w') -> clean o'.
Proof.
  destruct depth; [discriminate|]. intros Hc H.
  apply update_shape in H as (subs & w1 & Hd & [(-> & _ & H)|[(-> & _ & -> & _)|(Hne & -> & _)]]).
  - intros _. by rewrite (check_completion_conditions_sub_orders _ _ _ _ H).
  - intros _. reflexivity.
  - intros Hst. change (status o = COMPLETED) in Hst.
    rewrite (Hc Hst) in Hd. by injection Hd as <- _.
Qed.

(** For a clean order the commander's test [is_completed() or status
    in [FAILED, CANCELLED]] is the test for a terminal status. *)
Lemma finished_terminal o :
  clean o ->
  is_completed o || OrderStatus_eqb (status o) FAILED
  || OrderStatus_eqb (status o) CANCELLED = terminal (status o).
Proof.
  intros Hc. destruct o as [i t p st subs]. unfold clean in Hc. simpl in *.
  destruct st; simpl; try reflexivity.
  rewrite Hc by done. reflexivity.
Qed.

End OrderFacts.

(** ** The commander *)

Module CommanderFacts.
Import Geometry Entities Components Game Orders CommanderComponent OrderFacts.

(** The state of a commander between two operations: the current order
    has well-shaped queues and is clean, the backlog holds orders that
    have not been started, and no backlog waits while nothing is
    current. *)
Definition commander_ok (c : Commander) : Prop :=
  (forall o, current_order c = Some o -> wf o /\ clean o)
  /\ Forall fresh (orders_queue c)
  /\ (current_order c = None -> orders_queue c = []).

Lemma commander_ok_empty : commander_ok (mkCommander None []).
Proof. split_and!; simpl; try discriminate; auto. Qed.

Lemma fresh_clean o : fresh o -> clean o.
Proof. intros [_ H] _. exact H. Qed.

Lemma wf_clean_set_status_FAILED o :
  wf o /\ clean o -> wf (set_status o FAILED) /\ clean (set_status o FAILED).
Proof.
  intros [Hw _]. split; [by apply wf_set_status|]. intros H. discriminate.
Qed.

(** [start_next_order] either does nothing, or promotes the head of
    the backlog. *)
Lemma start_next_order_spec depth c w c' w' :
  start_next_order depth c w = Ok (c', w') ->
  (c' = c /\ w' = w /\ (is_Some (current_order c) \/ orders_queue c = []))
  \/ (exists next rest o',
        current_order c = None /\ orders_queue c = next :: rest
        /\ c' = mkCommander (Some o') rest
        /\ same_order next o'
        /\ (fresh next -> wf o' /\ clean o')).
Proof.
  unfold start_next_order.
  destruct (current_order c) as [cur|] eqn:Ec.
  { intros [= <- <-]. left. eauto. }
  destruct (orders_queue c) as [|next rest] eqn:Eq.
  { intros [= <- <-]. left. eauto. }
  intros H. right. exists next, rest.
  destruct (in_galaxy (unit w)).
  - apply bind_Ok in H as ([o1 w1] & He & H).
    apply bind_Ok in H as ([o2 w2] & Hu & H).
    injection H as <- <-. exists o2. split_and!; try done.
    + apply execute_same_order in He.
      destruct (OrderStatus_eqb (status o1) IN_PROGRESS).
      * apply update_same_order in Hu. by eapply same_order_trans.
      * by injection Hu as <- <-.
    + intros Hf. split.
      * destruct (OrderStatus_eqb (status o1) IN_PROGRESS).
        -- eapply update_wf; [|exact Hu]. eapply execute_wf; [|exact He].
           by apply fresh_wf.
        -- injection Hu as <- <-. eapply execute_wf; [|exact He]. by apply fresh_wf.
      * destruct (OrderStatus_eqb (status o1) IN_PROGRESS).
        -- eapply update_clean; [|exact Hu]. by eapply execute_clean.
        -- injection Hu as <- <-. by eapply execute_clean.
  - injection H as <- <-. exists (set_status next FAILED).
    assert (same_order next (set_status next FAILED)) by (destruct next; repeat split).
    split_and!; try done.
    intros Hf. split.
    + apply wf_set_status. by apply fresh_wf.
    + intros ?. discriminate.
Qed.

Lemma start_next_order_ok depth c w c' w' :
  commander_ok c ->
  start_next_order depth c w = Ok (c', w') -> commander_ok c'.
Proof.
  intros (Hcur & Hq & Hnone) H.
  apply start_next_order_spec in H
    as [(-> & _ & _)|(next & rest & o' & Ec & Eq & -> & _ & Ho')]; [done|].
  rewrite Eq in Hq. inversion Hq as [|? ? Hn Hr]; subst.
  split_and!; simpl.
  - intros o [= <-]. by apply Ho'.
  - done.
  - discriminate.
Qed.

Lemma commander_ok_weaken c :
  (forall o, current_order c = Some o -> wf o /\ clean o) ->
  Forall fresh (orders_queue c) ->
  is_Some (current_order c) -> commander_ok c.
Proof.
  intros H1 H2 [o Ho]. split_and!; [done|done|]. rewrite Ho. discriminate.
Qed.

(** The part of [commander_ok] that [start_next_order] needs. *)
Definition promotable (c : Commander) : Prop :=
  (forall o, current_order c = Some o -> wf o /\ clean o)
  /\ Forall fresh (orders_queue c).

Lemma start_next_order_promotes depth c w c' w' :
  promotable c ->
  start_next_order depth c w = Ok (c', w') -> commander_ok c'.
Proof.
  intros (Hcur & Hq) H.
  apply start_next_order_spec in H
    as [(-> & _ & Hcases)|(next & rest & o' & Ec & Eq & -> & _ & Ho')].
  - destruct Hcases as [Hs|Hn].
    + by apply commander_ok_weaken.
    + split_and!; [done|done|]. intros _. done.
  - rewrite Eq in Hq. inversion Hq as [|? ? Hn Hr]; subst.
    split_and!; simpl.
    + intros o [= <-]. by apply Ho'.
    + done.
    + discriminate.
Qed.

Lemma add_order_ok depth c order w c' w' :
  commander_ok c -> fresh order ->
  add_order depth c order w = Ok (c', w') -> commander_ok c'.
Proof.
  intros (Hcur & Hq & Hnone) Hf. unfold add_order. simpl.
  assert (Forall fresh (orders_queue c ++ [order])) as Hq'.
  { apply Forall_app. split; [done|]. by constructor. }
  destruct (current_order c) as [cur|] eqn:Ec.
  - intros [= <- <-]. apply commander_ok_weaken; simpl; [|done|eauto].
    intros o [= <-]. by apply Hcur.
  - apply start_next_order_promotes. split; simpl; [|done]. discriminate.
Qed.

Lemma remove_by_id_fresh i q q' :
  Forall fresh q -> remove_by_id i q = Some q' -> Forall fresh q'.
Proof.
  revert q'. induction q as [|o q IH]; intros q' Hq H; simpl in H; [discriminate|].
  inversion Hq as [|? ? Ho Hq0]; subst.
  destruct (order_id o =? i); [by injection H as <-|].
  destruct (remove_by_id i q) as [r|]; [|discriminate].
  injection H as <-. constructor; [done|]. by apply IH.
Qed.

Lemma cancel_order_ok depth c i w c' w' b :
  commander_ok c ->
  cancel_order depth c i w = Ok (c', w', b) -> commander_ok c'.
Proof.
  intros (Hcur & Hq & Hnone). unfold cancel_order.
  destruct (current_order c) as [cur|] eqn:Ec.
  - destruct (order_id cur =? i).
    + intros H. apply bind_Ok in H as ([c1 w1] & H1 & H). injection H as <- <- <-.
      eapply start_next_order_promotes; [|exact H1]. split; simpl; [discriminate|done].
    + destruct (remove_by_id i (orders_queue c)) as [q|] eqn:Er.
      * intros [= <- <- <-]. apply commander_ok_weaken; simpl.
        -- intros o [= <-]. by apply Hcur.
        -- by eapply remove_by_id_fresh.
        -- eauto.
      * intros [= <- <- <-]. split_and!; rewrite ?Ec; done.
  - rewrite (Hnone eq_refl). simpl. intros [= <- <- <-].
    split_and!; rewrite ?Ec; auto.
Qed.

Lemma clear_orders_ok c w : commander_ok (clear_orders c w).1.
Proof. apply commander_ok_empty. Qed.

(** [Commander.update]: the commander stays in order, and an order
    that is current and terminal afterwards was promoted from the
    backlog by this very call. *)
Lemma update_ok depth c w c' w' :
  commander_ok c ->
  CommanderComponent.update depth c w = Ok (c', w') ->
  commander_ok c'
  /\ (forall o', current_order c' = Some o' -> terminal (status o') = true ->
       exists q, q ∈ orders_queue c /\ same_order q o').
Proof.
  intros Hok H. unfold CommanderComponent.update in H.
  apply bind_Ok in H as ([c1 w1] & H1 & H).
  assert (commander_ok c1 /\ (forall q, q ∈ orders_queue c1 -> q ∈ orders_queue c))
    as (Hok1 & Hsub).
  { destruct (current_order c) as [cur|] eqn:Ec.
    - injection H1 as <- <-. auto.
    - split.
      + eapply start_next_order_promotes; [|exact H1].
        destruct Hok as (? & ? & ?). by split.
      + apply start_next_order_spec in H1
          as [(-> & _ & _)|(next & rest & o' & _ & Eq & -> & _ & _)]; [done|].
        simpl. intros q Hq. rewrite Eq. by apply list_elem_of_further. }
  destruct (current_order c1) as [cur|] eqn:Ec1.
  2:{ injection H as <- <-. split; [done|]. intros o'. rewrite Ec1. discriminate. }
  apply bind_Ok in H as ([cur1 w2] & Hu & H).
  destruct Hok1 as (Hcur1 & Hq1 & Hnone1).
  destruct (Hcur1 cur Ec1) as [Hwf Hclean].
  assert (wf cur1 /\ clean cur1 /\ same_order cur cur1) as (Hwf1 & Hclean1 & Hsame1).
  { destruct (in_galaxy (unit w1)).
    - split_and!; [by eapply update_wf|by eapply update_clean|by eapply update_same_order].
    - injection Hu as <- <-.
      destruct (OrderStatus_eqb (status cur) IN_PROGRESS).
      + split_and!.
        * by apply wf_set_status.
        * intros ?. discriminate.
        * destruct cur; repeat split.
      + split_and!; [done|done|apply same_order_refl]. }
  rewrite (finished_terminal cur1 Hclean1) in H.
  destruct (terminal (status cur1)) eqn:Et.
  - pose proof H as H'. apply start_next_order_promotes in H'.
    2:{ split; simpl; [discriminate|done]. }
    split; [done|].
    apply start_next_order_spec in H
      as [(-> & _ & _)|(next & rest & o' & _ & Eq & -> & Hsame & _)].
    + simpl. discriminate.
    + simpl in *. intros o'' [= <-] _. exists next. split; [|done].
      apply Hsub. rewrite Eq. apply list_elem_of_here.
  - injection H as <- <-. split.
    + apply commander_ok_weaken; simpl; [|done|eauto].
      intros o [= <-]. done.
    + simpl. intros o' [= <-] Ht. congruence.
Qed.

(** *** The orders of a tree *)

Inductive in_tree : Order -> Order -> Prop :=
| in_tree_root o : in_tree o o
| in_tree_sub node s o : s ∈ sub_orders o -> in_tree node s -> in_tree node o.

Lemma wf_sub_order o s : wf o -> s ∈ sub_orders o -> wf s.
Proof.
  intros Hwf Hs. apply wf_unfold in Hwf.
  destruct (sub_orders o) as [|f r]; [by apply elem_of_nil in Hs|].
  destruct Hwf as [Hf Hr]. apply elem_of_cons in Hs as [->|Hs]; [done|].
  apply fresh_wf. rewrite Forall_forall in Hr. by apply Hr.
Qed.

Lemma wf_in_tree node o : wf o -> in_tree node o -> wf node.
Proof.
  intros Hwf Ht. induction Ht as [|node s o Hs _ IH]; [done|].
  apply IH. by eapply wf_sub_order.
Qed.

Lemma wf_rest_pending node i s :
  wf node -> sub_orders node !! S i = Some s -> status s = PENDING.
Proof.
  intros Hwf Hl. apply wf_unfold in Hwf.
  destruct (sub_orders node) as [|f r]; [done|].
  destruct Hwf as [_ Hr]. simpl in Hl.
  rewrite Forall_forall in Hr. apply Hr. by eapply list_elem_of_lookup_2.
Qed.

Definition in_progress (s : Order) : bool := OrderStatus_eqb (status s) IN_PROGRESS.

Lemma fresh_not_in_progress r : Forall fresh r -> List.filter in_progress r = [].
Proof.
  induction 1 as [|s r [Hs _] _ IH]; [done|].
  simpl. unfold in_progress at 1. rewrite Hs. simpl. exact IH.
Qed.

Lemma wf_one_in_progress node :
  wf node -> (length (List.filter in_progress (sub_orders node)) <= 1)%nat.
Proof.
  intros Hwf. apply wf_unfold in Hwf.
  destruct (sub_orders node) as [|f r]; simpl; [lia|].
  destruct Hwf as [_ Hr]. rewrite (fresh_not_in_progress r Hr).
  destruct (in_progress f); simpl; lia.
Qed.

End CommanderFacts.

(** ** Sample data *)

Module Samples.
Import Geometry GeometryFacts Entities Components Game Orders CommanderComponent Turn.
Local Open Scope R_scope.

Definition origin : Position := mkPosition 0 0.
Definition far_point : Position := mkPosition 3 4.

Definition sector : Circle := mkCircle origin 1000.

(** The system "Sol" with two cells; unit 1 is in cell (0, 0). *)
Definition sol : StarSystem :=
  mkSystem (<[(0, 0)%Z := mkHex sector [] [] [1%Z]]>
              (<[(1, 0)%Z := mkHex sector [] [] []]> ∅)).

Definition sample_galaxy : Galaxy :=
  mkGalaxy (<["Sol"%string := sol]> ∅) [] (<["Sol"%string := []]> ∅) ∅.

(** A hyperdrive that is CHARGING with two turns left and has a
    hex-jump target queued. *)
Definition charging_drive : Hyperdrive :=
  mkHyperdrive BASIC 5 (Some ((1, 0)%Z, origin)) None CHARGING 2 3.

Definition idle_drive : Hyperdrive :=
  mkHyperdrive BASIC 5 None None READY 0 3.

(** Unit 1 of player 0: engines and a hyperdrive, no other component. *)
Definition sample_unit (hd : Hyperdrive) : Unit :=
  mkUnit 1 0 true (Some "Sol"%string) (0, 0)%Z origin 100
         (Some (mkEngines 100 None)) (Some hd) None None None None.

Definition sample_world (hd : Hyperdrive) : World :=
  mkWorld (sample_unit hd) sample_galaxy ∅ [mkPlayer 0 2000] 2 10 (fun _ => 0) 0.

Definition waypoint (h : HexCoord) (p : Position) : Parameters :=
  mkParameters (Val "Sol"%string) (Val h) (Val p)
               Absent Absent Absent Absent Absent Absent.

Definition toggle_on : Parameters :=
  mkParameters Absent Absent Absent (Val true) Absent Absent Absent Absent Absent.

(** A MOVE order whose planning failed after a first waypoint, a jump
    to the next cell, had been added: FAILED, the waypoint still
    queued. *)
Definition failed_move : Order :=
  mkOrder 0 MOVE (waypoint (1, 0)%Z far_point) FAILED
          [mkOrder 1 REACH_WAYPOINT (waypoint (1, 0)%Z far_point) PENDING []].

Definition completed_toggle : Order :=
  mkOrder 0 TOGGLE_INHIBITOR toggle_on COMPLETED [].

Definition new_toggle : Order := mkOrder 0 TOGGLE_INHIBITOR toggle_on PENDING [].

Definition failed_toggle : Order := mkOrder 0 TOGGLE_INHIBITOR toggle_on FAILED [].

(** "Sol" and "Vega", joined by the wormholes 7 and 8. *)
Definition two_system_galaxy : Galaxy :=
  mkGalaxy (<["Vega"%string := sol]> (<["Sol"%string := sol]> ∅))
           [(7%Z, mkWormhole 7 "Sol" (1, 0)%Z origin "Vega" (Some 8%Z));
            (8%Z, mkWormhole 8 "Vega" (1, 0)%Z origin "Sol" (Some 7%Z))]
           (<["Vega"%string := ["Sol"%string]]> (<["Sol"%string := ["Vega"%string]]> ∅))
           ∅.

Definition two_system_world : World :=
  mkWorld (sample_unit charging_drive) two_system_galaxy ∅ [mkPlayer 0 2000]
          2 10 (fun _ => 0) 0.

(** A commander whose current order has failed, with a REACH_WAYPOINT
    order for "Vega" waiting behind it. *)
Definition waiting_commander : Commander :=
  mkCommander (Some failed_toggle)
    [mkOrder 1 REACH_WAYPOINT
       (mkParameters (Val "Vega"%string) (Val (1, 0)%Z) (Val origin)
                     Absent Absent Absent Absent Absent Absent)
       PENDING []].

(** Unit 1 with an emitter of radius 50 that is switched off. *)
Definition emitter : HyperspaceInhibitionFieldEmitter := mkEmitter 50 false.

Definition emitter_world : World :=
  mkWorld (mkUnit 1 0 true (Some "Sol"%string) (0, 0)%Z origin 100
                  (Some (mkEngines 100 None)) (Some idle_drive) (Some emitter)
                  None None None)
          sample_galaxy ∅ [mkPlayer 0 2000] 2 10 (fun _ => 0) 0.

End Samples.

(** ** Orders and commander: the claims *)

Module OrderClaims.
Import Geometry Entities Components Game Orders CommanderComponent Turn.
Import OrderFacts CommanderFacts Samples.

(** C3, as amended.  On an order that is COMPLETED, FAILED or
    CANCELLED, [Order.update] never changes the order's own status, and
    when the order has no sub-orders queued the call changes nothing:
    it returns the order and the world as they were. *)
Theorem update_on_terminal_order :
  forall (depth : nat) (o : Order) (w : World),
    terminal (status o) = true ->
    (forall o' w', Orders.update depth o w = Ok (o', w') -> status o' = status o)
    /\ (sub_orders o = [] -> Orders.update (S depth) o w = Ok (o, w)).
Proof.
  intros depth o w Ht. split.
  - intros o' w'. apply update_status. intros Hs. rewrite Hs in Ht. discriminate.
  - intros Hs. simpl. rewrite Hs. simpl.
    change (status (set_sub_orders o [])) with (status o).
    destruct (status o); try discriminate; simpl;
      by rewrite <- Hs, set_sub_orders_same.
Qed.

Lemma update_on_terminal_order_witness :
  (forall o' w',
     Orders.update 2 completed_toggle (sample_world idle_drive) = Ok (o', w') ->
     status o' = COMPLETED)
  /\ Orders.update 3 completed_toggle (sample_world idle_drive)
     = Ok (completed_toggle, sample_world idle_drive).
Proof.
  destruct (update_on_terminal_order 2 completed_toggle (sample_world idle_drive)
              eq_refl) as [H1 H2].
  split; [exact H1 | exact (H2 eq_refl)].
Defined.

(** C3 as stated fails on a FAILED order that still has a sub-order
    queued: [update] executes the queued REACH_WAYPOINT, which is then
    IN_PROGRESS, and the unit's hyperdrive receives a hex-jump target. *)
Lemma update_on_failed_order_runs_its_queue :
  terminal (status failed_move) = true
  /\ (hyperdrive_component (unit (sample_world idle_drive)) ≫= hex_jump_target) = None
  /\ exists o' w',
       Orders.update 2 failed_move (sample_world idle_drive) = Ok (o', w')
       /\ status o' = FAILED
       /\ status <$> sub_orders o' = [IN_PROGRESS]
       /\ (hyperdrive_component (unit w') ≫= hex_jump_target)
          = Some ((1, 0), far_point).
Proof.
  split; [reflexivity|]. split; [reflexivity|].
  eexists _, _. split; [vm_compute; reflexivity|].
  split; [reflexivity|]. split; [reflexivity|]. vm_compute. reflexivity.
Qed.

(** Cancelling an order cancels its sub-orders, and an update of the
    cancelled order then empties its queue. *)
Example update_on_cancelled_order_pops :
  exists w',
    Orders.update 2 (cancel (set_status failed_move IN_PROGRESS))
                  (sample_world idle_drive)
    = Ok (mkOrder 0 MOVE (waypoint (1, 0) far_point) CANCELLED [], w').
Proof. eexists. vm_compute. reflexivity. Qed.

Lemma Unit_update_ok depth s s' :
  commander_ok (commander_component s) ->
  Unit_update depth s = Ok s' -> commander_ok (commander_component s').
Proof.
  intros Hok H. unfold Unit_update in H.
  apply bind_Ok in H as ([c w4] & Hu & H). injection H as <-. simpl.
  by apply update_ok in Hu as [? _].
Qed.

Lemma process_turn_ok depth player s s' :
  commander_ok (commander_component s) ->
  process_turn depth player s = Ok s' -> commander_ok (commander_component s').
Proof.
  intros Hok H. unfold process_turn in H.
  case_bool_decide; [by injection H as <-|].
  apply bind_Ok in H as (w1 & _ & H).
  repeat case_match; try (by injection H as <-).
  by eapply Unit_update_ok in H.
Qed.

(** An order of the commander: the current one or one of the backlog. *)
Definition in_commander (c : Commander) (o : Order) : Prop :=
  current_order c = Some o \/ o ∈ orders_queue c.

(** C5.  [commander_ok] holds of a new commander and is kept by every
    commander operation (with orders added as [Order(...)] constructs
    them) and by a turn; and under it, in every queue of every order
    tree of the commander, each sub-order behind the front one is
    PENDING, so that at most one sub-order per queue is IN_PROGRESS. *)
Theorem single_active_leaf :
  commander_ok (mkCommander None [])
  /\ (forall depth c w,
        commander_ok c ->
        (forall order c' w',
           fresh order -> add_order depth c order w = Ok (c', w') -> commander_ok c')
        /\ (forall i c' w' b,
              cancel_order depth c i w = Ok (c', w', b) -> commander_ok c')
        /\ commander_ok (clear_orders c w).1
        /\ (forall c' w',
              CommanderComponent.update depth c w = Ok (c', w') -> commander_ok c')
        /\ (forall player s',
              process_turn depth player (Turn.mkState c w) = Ok s' ->
              commander_ok (commander_component s')))
  /\ (forall c top node,
        commander_ok c -> in_commander c top -> in_tree node top ->
        (forall i s, sub_orders node !! S i = Some s -> status s = PENDING)
        /\ (length (List.filter in_progress (sub_orders node)) <= 1)%nat).
Proof.
  split; [apply commander_ok_empty|]. split.
  - intros depth c w Hok. split_and!.
    + intros order c' w' Hf H. by eapply add_order_ok.
    + intros i c' w' b H. by eapply cancel_order_ok.
    + apply clear_orders_ok.
    + intros c' w' H. by apply update_ok in H as [? _].
    + intros player s' H. by eapply process_turn_ok in H.
  - intros c top node (Hcur & Hq & _) Hin Ht.
    assert (wf top) as Hwf.
    { destruct Hin as [Hc|Hin]; [by apply Hcur|].
      apply fresh_wf. rewrite Forall_forall in Hq. by apply Hq. }
    pose proof (wf_in_tree _ _ Hwf Ht) as Hnode. split.
    + intros i s. by apply wf_rest_pending.
    + by apply wf_one_in_progress.
Qed.

(** A MOVE in progress whose first waypoint is in progress and whose
    second waypoint waits. *)
Definition move_in_progress : Order :=
  mkOrder 0 MOVE (waypoint (2, 0) far_point) IN_PROGRESS
    [mkOrder 1 REACH_WAYPOINT (waypoint (1, 0) far_point) IN_PROGRESS [];
     mkOrder 2 REACH_WAYPOINT (waypoint (2, 0) far_point) PENDING []].

Lemma move_in_progress_ok : commander_ok (mkCommander (Some move_in_progress) []).
Proof.
  split_and!; simpl.
  - intros o [= <-]. split.
    + simpl. split; [exact I|]. constructor; [split; reflexivity|constructor].
    + intros ?. discriminate.
  - constructor.
  - discriminate.
Qed.

Lemma single_active_leaf_witness :
  (forall i s, sub_orders move_in_progress !! S i = Some s -> status s = PENDING)
  /\ (length (List.filter in_progress (sub_orders move_in_progress)) <= 1)%nat.
Proof.
  apply (proj2 (proj2 single_active_leaf)
           (mkCommander (Some move_in_progress) []) move_in_progress move_in_progress).
  - exact move_in_progress_ok.
  - left. reflexivity.
  - constructor.
Defined.

(** C4 as stated fails right after [add_order]: a TOGGLE_INHIBITOR order
    added to an idle commander of a unit without emitter is promoted,
    fails inside its own [execute], and stays the current order. *)
Lemma add_order_keeps_failed_order :
  exists c' w' o,
    add_order 3 (mkCommander None []) new_toggle (sample_world idle_drive) = Ok (c', w')
    /\ current_order c' = Some o
    /\ terminal (status o) = true.
Proof. eexists _, _, _. split; [vm_compute; reflexivity|]. split; reflexivity. Qed.

(** C4, as amended.  Between operations no backlog waits while no order
    is current: [add_order], [cancel_order], [clear_orders] and [update]
    keep [commander_ok], whose last part says so, and [clear_orders]
    leaves no current order.  [update] keeps the order it has updated
    only while that order is not terminal: an order that is current and
    terminal after [update] was promoted from the backlog by this very
    call. *)
Theorem commander_promotes_and_discards :
  forall depth c w,
    commander_ok c ->
    (forall c' w',
       CommanderComponent.update depth c w = Ok (c', w') ->
       commander_ok c'
       /\ (current_order c' = None -> orders_queue c' = [])
       /\ (forall o', current_order c' = Some o' -> terminal (status o') = true ->
            exists q, q ∈ orders_queue c /\ same_order q o'))
    /\ (forall order c' w',
          fresh order -> add_order depth c order w = Ok (c', w') ->
          commander_ok c' /\ (current_order c' = None -> orders_queue c' = []))
    /\ (forall i c' w' b,
          cancel_order depth c i w = Ok (c', w', b) ->
          commander_ok c' /\ (current_order c' = None -> orders_queue c' = []))
    /\ (current_order (clear_orders c w).1 = None
        /\ orders_queue (clear_orders c w).1 = []).
Proof.
  intros depth c w Hok. split_and!.
  - intros c' w' H. apply update_ok in H as [Hok' Hterm]; [|done].
    split_and!; [done| |done]. by destruct Hok' as (_ & _ & ?).
  - intros order c' w' Hf H. eapply add_order_ok in H; [|done|done].
    split; [done|]. by destruct H as (_ & _ & ?).
  - intros i c' w' b H. eapply cancel_order_ok in H; [|done].
    split; [done|]. by destruct H as (_ & _ & ?).
  - reflexivity.
  - reflexivity.
Qed.

Lemma failed_toggle_ok : commander_ok (mkCommander (Some failed_toggle) []).
Proof.
  split_and!; simpl.
  - intros o [= <-]. split; [exact I|]. intros ?. discriminate.
  - constructor.
  - discriminate.
Qed.

Lemma commander_promotes_and_discards_witness :
  commander_ok (mkCommander (Some failed_toggle) [])
  /\ (forall c' w',
        CommanderComponent.update 3 (mkCommander (Some failed_toggle) [])
                                  (sample_world idle_drive) = Ok (c', w') ->
        commander_ok c'
        /\ (current_order c' = None -> orders_queue c' = [])
        /\ (forall o', current_order c' = Some o' -> terminal (status o') = true ->
             exists q, q ∈ [] /\ same_order q o')).
Proof.
  split; [exact failed_toggle_ok|].
  exact (proj1 (commander_promotes_and_discards 3 (mkCommander (Some failed_toggle) [])
                  (sample_world idle_drive) failed_toggle_ok)).
Defined.

(** The failed order of [add_order_keeps_failed_order] is dropped by the
    next [update]. *)
Example update_drops_the_failed_order :
  CommanderComponent.update 3 (mkCommander (Some failed_toggle) [])
                            (sample_world idle_drive)
  = Ok (mkCommander None [], sample_world idle_drive).
Proof. vm_compute. reflexivity. Qed.

End OrderClaims.

(** ** The hyperdrive under orders *)

Module DriveFacts.
Import Geometry Entities Components Game Orders CommanderComponent Turn.
Import OrderFacts.

(** At most one of the two jump targets is set. *)
Definition exclusive (hd : Hyperdrive) : Prop :=
  hex_jump_target hd = None \/ wormhole_jump_target hd = None.

(** What orders may do to a unit: they never move it and never touch
    the state of its drive or the recharge countdown; the jump targets
    stay as they are or end up with at most one of them set. *)
Definition steers (u u' : Unit) : Prop :=
  position u' = position u
  /\ id u' = id u
  /\ match hyperdrive_component u, hyperdrive_component u' with
     | Some hd, Some hd' =>
         jump_status hd' = jump_status hd
         /\ recharge_time_remaining hd' = recharge_time_remaining hd
         /\ ((hex_jump_target hd' = hex_jump_target hd
              /\ wormhole_jump_target hd' = wormhole_jump_target hd)
             \/ exclusive hd')
     | None, None => True
     | _, _ => False
     end.

Lemma steers_refl u : steers u u.
Proof.
  split_and!; try done. destruct (hyperdrive_component u); [|done].
  split_and!; auto.
Qed.

Lemma steers_trans u1 u2 u3 : steers u1 u2 -> steers u2 u3 -> steers u1 u3.
Proof.
  intros (Hp1 & Hi1 & H1) (Hp2 & Hi2 & H2). split_and!; try congruence.
  destruct (hyperdrive_component u1), (hyperdrive_component u2),
    (hyperdrive_component u3); try done.
  destruct H1 as (? & ? & H1), H2 as (? & ? & H2). split_and!; try congruence.
  destruct H2 as [[? ?]|?]; [|by right].
  destruct H1 as [[? ?]|[?|?]]; [left; split; congruence|right; left; congruence
                                 |right; right; congruence].
Qed.

Lemma steers_same u u' :
  position u' = position u -> id u' = id u ->
  hyperdrive_component u' = hyperdrive_component u -> steers u u'.
Proof.
  intros Hp Hi Hh. split_and!; try done. rewrite Hh.
  destruct (hyperdrive_component u); [|done]. split_and!; auto.
Qed.

Lemma steers_clear_jump_targets u : steers u (clear_jump_targets u).
Proof.
  split_and!; try done. simpl.
  destruct (hyperdrive_component u); [|done]. simpl. split_and!; try done.
  right. by left.
Qed.

Lemma steers_clear_move_target u : steers u (clear_move_target u).
Proof. by apply steers_same. Qed.

Ltac same_drive := apply steers_same; reflexivity.

Ltac retarget :=
  split_and!; try reflexivity; simpl;
  repeat match goal with
    | E : hyperdrive_component _ = _ |- _ => rewrite E; clear E
    end;
  simpl; split_and!; try reflexivity; right; ((by left) || (by right)).

Ltac steers_tac :=
  simpl;
  first [ apply steers_refl
        | same_drive
        | eapply steers_trans; [|apply steers_clear_jump_targets]; steers_tac
        | eapply steers_trans; [|apply steers_clear_move_target]; steers_tac
        | retarget ].

Lemma _execute_reach_waypoint_steers params w w' st :
  _execute_reach_waypoint params w = Ok (w', st) -> steers (unit w) (unit w').
Proof.
  unfold _execute_reach_waypoint. intros H.
  repeat (first [ progress inv_bind | case_match; try discriminate ]); steers_tac.
Qed.

Lemma execute_body_steers o w w' st specs :
  execute_body o w = Ok (w', st, specs) -> steers (unit w) (unit w').
Proof.
  unfold execute_body. intros H. destruct (order_type o).
  - apply bind_Ok in H as ([w1 st1] & H1 & H). injection H as <- _ _.
    by eapply _execute_reach_waypoint_steers.
  - apply bind_Ok in H as ([[st1 specs1] d] & _ & H). injection H as <- _ _.
    steers_tac.
  - injection H as <- _ _. steers_tac.
  - unfold _execute_attack in H.
    repeat (first [ progress inv_bind | case_match; try discriminate ]); steers_tac.
  - injection H as <- _ _. steers_tac.
  - apply bind_Ok in H as ([w1 st1] & H1 & H). injection H as <- _ _.
    unfold _execute_toggle_inhibitor in H1.
    repeat (first [ progress inv_bind | case_match; try discriminate ]); steers_tac.
  - unfold _execute_colonize in H.
    repeat (first [ progress inv_bind | case_match; try discriminate ]); steers_tac.
  - unfold _execute_load_colonists in H.
    repeat (first [ progress inv_bind | case_match; try discriminate ]); steers_tac.
  - apply bind_Ok in H as ([w1 st1] & H1 & H). injection H as <- _ _.
    unfold _execute_construct in H1.
    repeat (first [ progress inv_bind | case_match; try discriminate ]); steers_tac.
Qed.

Lemma check_completion_conditions_steers o w o' w' :
  check_completion_conditions o w = Ok (o', w') -> steers (unit w) (unit w').
Proof.
  unfold check_completion_conditions. intros H.
  repeat (first [ progress inv_bind | case_match; try discriminate ]); steers_tac.
Qed.

Lemma execute_steers o w o' w' :
  execute o w = Ok (o', w') -> steers (unit w) (unit w').
Proof.
  apply (execute_preserves (fun w' => steers (unit w) (unit w'))).
  - intros ? ? ? ? ? HP Hb. eapply steers_trans; [exact HP|].
    by eapply execute_body_steers.
  - done.
  - apply steers_refl.
Qed.

Lemma update_steers depth o w o' w' :
  Orders.update depth o w = Ok (o', w') -> steers (unit w) (unit w').
Proof.
  apply (update_preserves (fun w' => steers (unit w) (unit w'))).
  - intros ? ? ? ? ? HP Hb. eapply steers_trans; [exact HP|].
    by eapply execute_body_steers.
  - intros ? ? ? ? HP Hb. eapply steers_trans; [exact HP|].
    by eapply check_completion_conditions_steers.
  - done.
  - apply steers_refl.
Qed.

Lemma start_next_order_steers depth c w c' w' :
  start_next_order depth c w = Ok (c', w') -> steers (unit w) (unit w').
Proof.
  unfold start_next_order. intros H.
  destruct (current_order c), (orders_queue c) as [|next rest];
    try (injection H as _ <-; apply steers_refl).
  destruct (in_galaxy (unit w)); [|injection H as _ <-; apply steers_refl].
  apply bind_Ok in H as ([o1 w1] & He & H).
  apply bind_Ok in H as ([o2 w2] & Hu & H). injection H as _ <-.
  apply execute_steers in He. eapply steers_trans; [exact He|].
  destruct (OrderStatus_eqb (status o1) IN_PROGRESS).
  - by eapply update_steers.
  - injection Hu as _ <-. apply steers_refl.
Qed.

Lemma add_order_steers depth c order w c' w' :
  add_order depth c order w = Ok (c', w') -> steers (unit w) (unit w').
Proof.
  unfold add_order. simpl. intros H. destruct (current_order c) eqn:E.
  - injection H as _ <-. apply steers_refl.
  - by eapply start_next_order_steers.
Qed.

Lemma cancel_order_steers depth c i w c' w' b :
  cancel_order depth c i w = Ok (c', w', b) -> steers (unit w) (unit w').
Proof.
  unfold cancel_order. intros H.
  repeat (first [ progress inv_bind | case_match; try discriminate ]);
    try apply steers_refl.
  match goal with
  | H : start_next_order _ _ _ = _ |- _ => by apply start_next_order_steers in H
  end.
Qed.

Lemma clear_orders_steers c w : steers (unit w) (unit (clear_orders c w).2).
Proof. unfold clear_orders. steers_tac. Qed.

Lemma commander_update_steers depth c w c' w' :
  CommanderComponent.update depth c w = Ok (c', w') -> steers (unit w) (unit w').
Proof.
  unfold CommanderComponent.update. intros H.
  apply bind_Ok in H as ([c1 w1] & H1 & H).
  assert (steers (unit w) (unit w1)) as S1.
  { destruct (current_order c).
    - injection H1 as _ <-. apply steers_refl.
    - by eapply start_next_order_steers. }
  eapply steers_trans; [exact S1|].
  destruct (current_order c1) as [cur|]; [|injection H as _ <-; apply steers_refl].
  apply bind_Ok in H as ([cur1 w2] & H2 & H).
  assert (steers (unit w1) (unit w2)) as S2.
  { destruct (in_galaxy (unit w1)).
    - by eapply update_steers.
    - injection H2 as _ <-. apply steers_refl. }
  eapply steers_trans; [exact S2|].
  match type of H with
  | (if ?b then _ else _) = _ => destruct b
  end.
  - by eapply start_next_order_steers.
  - injection H as _ <-. apply steers_refl.
Qed.

(** *** The weapons and the constructor leave the drive alone *)

Definition same_drive_state (w w' : World) : Prop :=
  position (unit w') = position (unit w)
  /\ id (unit w') = id (unit w)
  /\ hyperdrive_component (unit w') = hyperdrive_component (unit w).

Lemma take_damage_drive w r n : same_drive_state w (take_damage w r n).
Proof.
  unfold take_damage. repeat case_match; done.
Qed.

Lemma fire_turrets_drive ts w : same_drive_state w (fire_turrets ts w).2.
Proof.
  revert w. induction ts as [|t rest IH]; intros w; simpl; [done|].
  set (step := match target t ≫= resolve w with None => (t, w) | Some r => _ end).
  assert (same_drive_state w step.2) as Hs.
  { unfold step, fire. repeat case_match; simpl; try done. apply take_damage_drive. }
  destruct step as [t1 w1]. simpl in Hs.
  specialize (IH w1). destruct (fire_turrets rest w1) as [rest1 w2]. simpl in *.
  destruct Hs as (? & ? & ?), IH as (? & ? & ?). split_and!; congruence.
Qed.

Lemma Weapons_update_drive weapons w : same_drive_state w (Weapons_update weapons w).
Proof.
  unfold Weapons_update.
  pose proof (fire_turrets_drive (Turret_update <$> turrets weapons) w) as H.
  destruct (fire_turrets _ w) as [ts w1]. exact H.
Qed.

Lemma Constructor_update_drive c w : same_drive_state w (Constructor_update c w).
Proof.
  unfold Constructor_update, create_unit_from_template, add_unit.
  repeat case_match; done.
Qed.

(** *** Mutual exclusion of the jump targets *)

Definition exclusive_unit (u : Unit) : Prop :=
  forall hd, hyperdrive_component u = Some hd -> exclusive hd.

Lemma steers_exclusive u u' : steers u u' -> exclusive_unit u -> exclusive_unit u'.
Proof.
  intros (_ & _ & H) Hex hd' E. rewrite E in H.
  destruct (hyperdrive_component u) as [hd|] eqn:E0; [|done].
  destruct H as (_ & _ & [[H1 H2]|H]); [|done].
  destruct (Hex hd E0) as [?|?]; [left|right]; congruence.
Qed.

Lemma same_drive_state_exclusive w w' :
  same_drive_state w w' -> exclusive_unit (unit w) -> exclusive_unit (unit w').
Proof. intros (_ & _ & H) Hex hd E. apply Hex. congruence. Qed.

Lemma update_recharge_targets hd :
  hex_jump_target (update_recharge hd) = hex_jump_target hd
  /\ wormhole_jump_target (update_recharge hd) = wormhole_jump_target hd.
Proof. unfold update_recharge. repeat case_match; done. Qed.

Lemma Unit_update_unfold depth s :
  exists w1 w3,
    position (unit w1) = position (unit (world s))
    /\ id (unit w1) = id (unit (world s))
    /\ hyperdrive_component (unit w1)
       = update_recharge <$> hyperdrive_component (unit (world s))
    /\ same_drive_state w1 w3
    /\ Unit_update depth s
       = (do '(c, w4) <- CommanderComponent.update depth (commander_component s) w3;
          Ok (Turn.mkState c w4)).
Proof.
  unfold Unit_update. cbv zeta.
  set (w1 := with_unit (world s) _).
  set (w2 := match weapons_component (unit w1) with Some _ => _ | None => _ end).
  set (w3 := match constructor_component (unit w2) with Some _ => _ | None => _ end).
  exists w1, w3. split_and!; try reflexivity.
  assert (same_drive_state w1 w2) as H2.
  { unfold w2. repeat case_match; try done. apply Weapons_update_drive. }
  assert (same_drive_state w2 w3) as H3.
  { unfold w3. repeat case_match; try done. apply Constructor_update_drive. }
  destruct H2 as (? & ? & ?), H3 as (? & ? & ?). split_and!; congruence.
Qed.

Lemma Unit_update_steps depth s s' :
  Unit_update depth s = Ok s' ->
  exists w1 w3,
    position (unit w1) = position (unit (world s))
    /\ id (unit w1) = id (unit (world s))
    /\ hyperdrive_component (unit w1)
       = update_recharge <$> hyperdrive_component (unit (world s))
    /\ same_drive_state w1 w3
    /\ steers (unit w3) (unit (world s')).
Proof.
  destruct (Unit_update_unfold depth s) as (w1 & w3 & Hp & Hi & Hd & Hs & ->).
  intros H. apply bind_Ok in H as ([c w4] & Hc & H). injection H as <-. simpl.
  apply commander_update_steers in Hc. exists w1, w3. done.
Qed.

Lemma Unit_update_exclusive depth s s' :
  Unit_update depth s = Ok s' ->
  exclusive_unit (unit (world s)) -> exclusive_unit (unit (world s')).
Proof.
  intros H Hex. apply Unit_update_steps in H as (w1 & w3 & _ & _ & Hd & Hs & Hc).
  eapply steers_exclusive; [exact Hc|].
  eapply same_drive_state_exclusive; [exact Hs|].
  intros hd E. rewrite Hd in E.
  destruct (hyperdrive_component (unit (world s))) as [hd0|] eqn:E0; [|done].
  injection E as <-. destruct (update_recharge_targets hd0) as [E1 E2].
  unfold exclusive. rewrite E1, E2. by apply Hex.
Qed.

Lemma begin_jump_Some hd_comp hd :
  begin_jump hd_comp = Some hd -> hd = set_jump_status hd_comp JUMPING.
Proof. unfold begin_jump. destruct (jump_status hd_comp); congruence. Qed.

Lemma resolve_movement_drive w name sys h w' m :
  resolve_movement w name sys h = Ok (w', m) ->
  id (unit w') = id (unit w)
  /\ hyperdrive_component (unit w') = hyperdrive_component (unit w)
  /\ ((hyperdrive_component (unit w) ≫= wormhole_jump_target) <> None
      \/ (hyperdrive_component (unit w) ≫= hex_jump_target) <> None -> w' = w).
Proof.
  unfold resolve_movement. intros H.
  repeat (first [ progress inv_bind | case_match; try discriminate ]);
    split_and!; try done; intros [?|?]; done.
Qed.

Ltac exclusive_tac Hex :=
  intros ? E; simpl in E;
  first [ by apply Hex
        | injection E as <-; unfold exclusive; simpl;
          first [ by left | by right | by apply Hex ] ].

Lemma execute_system_jump_exclusive w name w' :
  execute_system_jump w name = Ok w' ->
  exclusive_unit (unit w) -> exclusive_unit (unit w').
Proof.
  unfold execute_system_jump. intros H Hex.
  repeat (first [ progress inv_bind | case_match; try discriminate ]);
    try (match goal with
         | B : begin_jump _ = Some _ |- _ => apply begin_jump_Some in B; subst
         end);
    try (match goal with
         | M : move_unit_between_systems _ _ _ _ = Ok _ |- _ => clear M
         end);
    exclusive_tac Hex.
Qed.

Lemma execute_hex_jump_exclusive w h p w' :
  execute_hex_jump w h p = Ok w' ->
  exclusive_unit (unit w) -> exclusive_unit (unit w').
Proof.
  unfold execute_hex_jump. intros H Hex.
  repeat (first [ progress inv_bind | case_match; try discriminate ]);
    try (match goal with
         | B : begin_jump _ = Some _ |- _ => apply begin_jump_Some in B; subst
         end);
    exclusive_tac Hex.
Qed.

End DriveFacts.

(** ** Turns in which the orders make no progress *)

Module WaitFacts.
Import Geometry Entities Components Game Orders CommanderComponent Turn.
Import OrderFacts CommanderFacts DriveFacts.

(** *** An order that [update] hands back unchanged left the world alone *)

Lemma plan_route_not_pending params w st specs draws :
  plan_route params w = Ok (st, specs, draws) -> st <> PENDING.
Proof.
  unfold plan_route. intros H.
  apply bind_Ok in H as (dsys & _ & H).
  apply bind_Ok in H as (dhex & _ & H).
  apply bind_Ok in H as (dpos & _ & H).
  destruct dsys as [dsys|]; [|by injection H as <- _ _].
  destruct dhex as [dhex|]; [|by injection H as <- _ _].
  destruct dpos as [dpos|]; [|by injection H as <- _ _].
  destruct (_ && _ && _); [by injection H as <- _ _|].
  apply bind_Ok in H as (escape & _ & H).
  assert (forall st1 st2,
            (st1 = None \/ st1 = Some FAILED) -> (st2 = None \/ st2 = Some FAILED) ->
            or_status st2 (or_status st1 IN_PROGRESS) <> PENDING) as Hor.
  { intros ? ? [->| ->] [->| ->]; simpl; discriminate. }
  destruct (negb (bool_decide (in_system (unit w) = Some dsys))).
  - destruct (hyperdrive_component (unit w)); [|by injection H as <- _ _].
    destruct (find_wormhole_to_system _ _ _).
    + apply bind_Ok in H as (exit_wh & _ & H).
      apply bind_Ok in H as ([st1 to_entry] & H1 & H).
      apply bind_Ok in H as ([exit_specs draws1] & _ & H).
      apply bind_Ok in H as ([st2 final] & H2 & H).
      injection H as <- _ _. apply Hor.
      * match type of H1 with (if ?b then _ else _) = _ => destruct b end;
          [by eapply plan_hex_jump_sequence_status|].
        injection H1 as <- <-. auto.
      * match type of H2 with (if ?b then _ else _) = _ => destruct b end;
          [by eapply plan_hex_jump_sequence_status|].
        injection H2 as <- <-. auto.
    + apply bind_Ok in H as (path & _ & H).
      destruct path as [path|]; [|by injection H as <- _ _].
      destruct (_ <? _)%nat; [by injection H as <- _ _|].
      apply bind_Ok in H as (legs & Hlegs & H).
      apply plan_legs_status in Hlegs; [|auto].
      destruct legs as [[specs' d]|[[[st1 specs'] h'] d]]; [by injection H as <- _ _|].
      apply bind_Ok in H as ([st2 final] & H2 & H).
      injection H as <- _ _. apply Hor; [done|].
      by eapply plan_hex_jump_sequence_status.
  - destruct (negb (bool_decide (in_hex (unit w) = dhex))).
    + apply bind_Ok in H as ([st1 specs'] & H1 & H).
      injection H as <- _ _.
      apply plan_hex_jump_sequence_status in H1 as [->| ->]; discriminate.
    + destruct (engines_component (unit w)); by injection H as <- _ _.
Qed.

(** No method that [execute] dispatches to leaves the order PENDING. *)
Lemma execute_body_not_pending o w w' st specs :
  execute_body o w = Ok (w', st, specs) -> st <> PENDING.
Proof.
  unfold execute_body. destruct (order_type o); intros H.
  - apply bind_Ok in H as ([w1 st1] & H1 & H). injection H as _ <- _.
    unfold _execute_reach_waypoint in H1.
    repeat (first [ progress inv_bind | case_match; try discriminate ]); done.
  - apply bind_Ok in H as ([[st1 sp] d] & Hp & H). injection H as _ <- _.
    by eapply plan_route_not_pending.
  - by injection H as _ <- _.
  - unfold _execute_attack in H.
    repeat (first [ progress inv_bind | case_match; try discriminate ]); done.
  - by injection H as _ <- _.
  - apply bind_Ok in H as ([w1 st1] & H1 & H). injection H as _ <- _.
    unfold _execute_toggle_inhibitor in H1.
    repeat (first [ progress inv_bind | case_match; try discriminate ]); done.
  - unfold _execute_colonize in H.
    repeat (first [ progress inv_bind | case_match; try discriminate ]); done.
  - unfold _execute_load_colonists in H.
    repeat (first [ progress inv_bind | case_match; try discriminate ]); done.
  - apply bind_Ok in H as ([w1 st1] & H1 & H). injection H as _ <- _.
    unfold _execute_construct in H1.
    repeat (first [ progress inv_bind | case_match; try discriminate ]); done.
Qed.

Lemma execute_status o w o' w' :
  execute o w = Ok (o', w') -> status o = PENDING -> status o' <> PENDING.
Proof.
  intros H Hp. apply execute_shape in H as [(Hn & _)|(_ & w1 & st & specs & Hb & -> & _)];
    [done|].
  simpl. by eapply execute_body_not_pending.
Qed.

Lemma update_status_cases depth o w o' w' :
  Orders.update depth o w = Ok (o', w') ->
  status o' = status o \/ status o' = COMPLETED.
Proof.
  destruct depth; [discriminate|]. intros H.
  apply update_shape in H
    as (subs & w1 & _ & [(_ & _ & H)|[(_ & _ & -> & _)|(_ & -> & _)]]); auto.
  apply check_completion_conditions_shape in H as [->|[_ ->]]; auto.
Qed.

Lemma check_completion_conditions_fixed o w w' :
  check_completion_conditions o w = Ok (o, w') -> w' = w.
Proof.
  unfold check_completion_conditions.
  destruct (OrderStatus_eqb (status o) IN_PROGRESS) eqn:E; simpl;
    [|by intros [= <-]].
  apply OrderStatus_eqb_eq in E. intros H.
  assert (set_status o COMPLETED <> o) as Hne.
  { intros Heq. apply (f_equal status) in Heq. simpl in Heq. congruence. }
  destruct (order_type o);
    repeat (first [ progress inv_bind | case_match; try discriminate ]);
    try done; simplify_eq; done.
Qed.

Lemma drain_length upd subs w subs' w' :
  drain upd subs w = Ok (subs', w') -> (length subs' <= length subs)%nat.
Proof.
  revert w. induction subs as [|s rest IH]; intros w H; simpl in H.
  - by injection H as <- <-.
  - apply bind_Ok in H as ([s1 w1] & _ & H).
    apply bind_Ok in H as ([s2 w2] & _ & H).
    destruct (terminal (status s2)).
    + apply IH in H. simpl. lia.
    + injection H as <- <-. done.
Qed.

Lemma drain_fixed depth subs w w' :
  (forall s w s' w', Orders.update depth s w = Ok (s', w') -> s' = s -> w' = w) ->
  drain (Orders.update depth) subs w = Ok (subs, w') -> w' = w.
Proof.
  intros IH H. destruct subs as [|s rest]; simpl in H; [by injection H as <-|].
  apply bind_Ok in H as ([s1 w1] & H1 & H).
  apply bind_Ok in H as ([s2 w2] & H2 & H).
  destruct (terminal (status s2)).
  { apply drain_length in H. simpl in H. lia. }
  injection H as E1 E2. subst s2 w2.
  destruct (OrderStatus_eqb (status s) PENDING) eqn:Ep.
  - apply OrderStatus_eqb_eq in Ep. exfalso.
    pose proof (execute_status _ _ _ _ H1 Ep) as Hn.
    destruct (OrderStatus_eqb (status s1) IN_PROGRESS) eqn:Ei.
    + apply OrderStatus_eqb_eq in Ei.
      apply update_status_cases in H2 as [H2|H2]; congruence.
    + injection H2 as E1 _. congruence.
  - injection H1 as E1 E2. subst s1 w1.
    destruct (OrderStatus_eqb (status s) IN_PROGRESS).
    + by eapply IH.
    + by injection H2 as ->.
Qed.

Lemma update_fixed depth o w o' w' :
  Orders.update depth o w = Ok (o', w') -> o' = o -> w' = w.
Proof.
  revert o w o' w'. induction depth as [|depth IH]; intros o w o' w' H ->; [done|].
  apply update_shape in H as (subs & w1 & Hd & [(-> & _ & H)|[(-> & _ & E & ->)|(_ & E & ->)]]).
  - pose proof (check_completion_conditions_sub_orders _ _ _ _ H) as Hs. simpl in Hs.
    assert (set_sub_orders o [] = o) as Heq.
    { rewrite <- Hs. apply set_sub_orders_same. }
    rewrite Heq in H. rewrite Hs in Hd. simpl in Hd. injection Hd as <-.
    by apply check_completion_conditions_fixed in H.
  - apply (f_equal sub_orders) in E. simpl in E. rewrite E in Hd.
    simpl in Hd. by injection Hd as <-.
  - apply (f_equal sub_orders) in E. simpl in E. rewrite <- E in Hd.
    by eapply drain_fixed.
Qed.

(** When [Commander.update] hands the commander back as it was, it
    left the world as it was. *)
Lemma commander_update_fixed depth c w w' :
  CommanderComponent.update depth c w = Ok (c, w') -> w' = w.
Proof.
  unfold CommanderComponent.update. intros H.
  apply bind_Ok in H as ([c1 w1] & H1 & H).
  assert (forall c0 w0 c2 w2,
            start_next_order depth c0 w0 = Ok (c2, w2) ->
            (length (orders_queue c2) <= length (orders_queue c0))%nat
            /\ (c2 = c0 -> w2 = w0)
            /\ (current_order c0 = None -> is_Some (current_order c2) ->
                (length (orders_queue c2) < length (orders_queue c0))%nat)) as Hnext.
  { intros c0 w0 c2 w2 Hs. apply start_next_order_spec in Hs
      as [(-> & -> & Hc)|(next & rest & o' & Hc & Hq & -> & _)].
    - split_and!; try done. intros Hn [? Hsome]. congruence.
    - rewrite Hq. simpl. split_and!; try lia.
      intros Heq. rewrite <- Heq in Hc. done. }
  destruct (current_order c) as [cur|] eqn:Ec.
  - injection H1 as <- <-. rewrite Ec in H.
    apply bind_Ok in H as ([cur1 w2] & H2 & H).
    assert (cur1 = cur -> w2 = w) as Hcur.
    { intros ->. destruct (in_galaxy (unit w)).
      - by eapply update_fixed.
      - by destruct (OrderStatus_eqb _ _); injection H2 as _ <-. }
    destruct (_ || _).
    + apply Hnext in H as (Hl & _ & Hlt). simpl in Hl, Hlt.
      specialize (Hlt eq_refl). rewrite Ec in Hlt. specialize (Hlt ltac:(eauto)). lia.
    + injection H as Hc <-. apply Hcur.
      rewrite <- Hc in Ec. simpl in Ec. by injection Ec.
  - pose proof (Hnext _ _ _ _ H1) as (Hl1 & Hfix & Hlt1).
    destruct (current_order c1) as [cur|] eqn:Ec1.
    + specialize (Hlt1 Ec ltac:(eauto)).
      apply bind_Ok in H as ([cur1 w2] & H2 & H). exfalso.
      destruct (_ || _).
      * apply Hnext in H as (Hl & _). simpl in Hl. lia.
      * injection H as Hc _. rewrite <- Hc in Hlt1. simpl in Hlt1. lia.
    + injection H as -> <-. by apply Hfix.
Qed.

(** *** An order that waits for the jump *)

(** A REACH_WAYPOINT in progress for another hex than the unit's, or an
    order in progress whose front sub-order waits in this way. *)
Inductive waits (current_hex : HexCoord) : Order -> Prop :=
| waits_leaf i params dsys dhex dpos :
    index (destination_system_name params) = Ok dsys ->
    index (destination_hex_coord params) = Ok dhex ->
    index (destination_position params) = Ok dpos ->
    dhex <> Some current_hex ->
    waits current_hex (mkOrder i REACH_WAYPOINT params IN_PROGRESS [])
| waits_front i t params s rest :
    waits current_hex s ->
    waits current_hex (mkOrder i t params IN_PROGRESS (s :: rest)).

Lemma waits_status h o : waits h o -> status o = IN_PROGRESS.
Proof. by destruct 1. Qed.

Lemma update_waits h o :
  waits h o ->
  exists d0 : nat, forall (w : World) (d : nat),
    in_hex (unit w) = h -> (d0 <= d)%nat -> Orders.update d o w = Ok (o, w).
Proof.
  induction 1 as [i params dsys dhex dpos H1 H2 H3 Hne|i t params s rest Hs [d0 IH]].
  - exists 1%nat. intros w [|d] Hh Hd; [lia|]. simpl.
    unfold check_completion_conditions. simpl. rewrite H1, H2, H3. simpl.
    unfold arrived. rewrite Hh.
    rewrite (bool_decide_eq_false_2 (Some _ = dhex)) by done.
    by rewrite andb_false_r.
  - exists (S d0). intros w [|d] Hh Hd; [lia|]. simpl.
    rewrite (waits_status _ _ Hs). simpl. rewrite IH by (done || lia). simpl.
    rewrite (waits_status _ _ Hs). simpl.
    rewrite (waits_status _ _ Hs). simpl. reflexivity.
Qed.

Lemma commander_update_waits h c cur :
  current_order c = Some cur ->
  waits h cur ->
  exists d0 : nat, forall (w : World) (d : nat),
    in_galaxy (unit w) = true -> in_hex (unit w) = h -> (d0 <= d)%nat ->
    CommanderComponent.update d c w = Ok (c, w).
Proof.
  intros Hc Hw. destruct (update_waits h cur Hw) as [d0 Hd0].
  exists d0. intros w d Hg Hh Hd. unfold CommanderComponent.update.
  rewrite Hc. simpl. rewrite Hc, Hg, (Hd0 w d Hh Hd). simpl.
  assert (status cur = IN_PROGRESS) as Hs by (by eapply waits_status).
  assert (is_completed cur = false) as ->.
  { destruct cur. simpl in *. by rewrite Hs. }
  rewrite Hs. simpl. f_equal. f_equal. destruct c. simpl in *. by rewrite Hc.
Qed.

(** *** The unit stays in its hex, with its galaxy, until the commander
    is updated *)

Definition same_place (w w' : World) : Prop :=
  in_hex (unit w') = in_hex (unit w) /\ in_galaxy (unit w') = in_galaxy (unit w).

Lemma take_damage_place w r n : same_place w (take_damage w r n).
Proof. unfold take_damage, same_place. repeat case_match; done. Qed.

Lemma fire_turrets_place ts w : same_place w (fire_turrets ts w).2.
Proof.
  revert w. induction ts as [|t rest IH]; intros w; simpl; [done|].
  set (step := match target t ≫= resolve w with None => (t, w) | Some r => _ end).
  assert (same_place w step.2) as Hs.
  { unfold step, fire. repeat case_match; simpl; try done. apply take_damage_place. }
  destruct step as [t1 w1]. simpl in Hs.
  specialize (IH w1). destruct (fire_turrets rest w1) as [rest1 w2]. simpl in *.
  destruct Hs as [? ?], IH as [? ?]. split; congruence.
Qed.

Lemma Weapons_update_place weapons w : same_place w (Weapons_update weapons w).
Proof.
  unfold Weapons_update.
  pose proof (fire_turrets_place (Turret_update <$> turrets weapons) w) as H.
  destruct (fire_turrets _ w) as [ts w1]. exact H.
Qed.

Lemma Constructor_update_place c w : same_place w (Constructor_update c w).
Proof.
  unfold Constructor_update, create_unit_from_template, add_unit, same_place.
  repeat case_match; done.
Qed.

(** [Unit.update] up to the call of the commander. *)
Lemma Unit_update_before_commander depth s :
  exists w3,
    same_place (world s) w3
    /\ hyperdrive_component (unit w3)
       = update_recharge <$> hyperdrive_component (unit (world s))
    /\ Unit_update depth s
       = (do '(c, w4) <- CommanderComponent.update depth (commander_component s) w3;
          Ok (Turn.mkState c w4)).
Proof.
  unfold Unit_update. cbv zeta.
  set (w1 := with_unit (world s) _).
  set (w2 := match weapons_component (unit w1) with Some _ => _ | None => _ end).
  set (w3 := match constructor_component (unit w2) with Some _ => _ | None => _ end).
  exists w3.
  assert (same_place w1 w2 /\ same_drive_state w1 w2) as [H2 D2].
  { unfold w2. repeat case_match; try done.
    split; [apply Weapons_update_place|apply Weapons_update_drive]. }
  assert (same_place w2 w3 /\ same_drive_state w2 w3) as [H3 D3].
  { unfold w3. repeat case_match; try done.
    split; [apply Constructor_update_place|apply Constructor_update_drive]. }
  assert (in_hex (unit w1) = in_hex (unit (world s))) as E1 by reflexivity.
  assert (in_galaxy (unit w1) = in_galaxy (unit (world s))) as E2 by reflexivity.
  assert (hyperdrive_component (unit w1)
          = update_recharge <$> hyperdrive_component (unit (world s))) as E3
    by reflexivity.
  destruct H2 as [? ?], H3 as [? ?], D2 as (_ & _ & ?), D3 as (_ & _ & ?).
  split_and!; [split; congruence|congruence|reflexivity].
Qed.

End WaitFacts.

(** ** Jump targets and the recharging drive: the claims *)

Module DriveClaims.
Import Geometry Entities Components Game Orders CommanderComponent Turn.
Import OrderFacts CommanderFacts DriveFacts WaitFacts Samples.

Lemma process_turn_exclusive depth player s s' :
  process_turn depth player s = Ok s' ->
  exclusive_unit (unit (world s)) -> exclusive_unit (unit (world s')).
Proof.
  unfold process_turn. intros H Hex.
  case_bool_decide; [by injection H as <-|].
  apply bind_Ok in H as (w1 & H1 & H).
  assert (exclusive_unit (unit w1)) as Hex1.
  { destruct (find_unit_hex _ _) as [[name h]|]; [|by injection H1 as <-].
    case_bool_decide; [|by injection H1 as <-].
    apply bind_Ok in H1 as (sys & _ & H1).
    apply bind_Ok in H1 as ([w0 m] & Hr & H1).
    apply resolve_movement_drive in Hr as (_ & Hd & _).
    assert (exclusive_unit (unit w0)) as Hex0.
    { intros hd E. apply Hex. congruence. }
    destruct m as [[target|th tp]|].
    - by eapply execute_system_jump_exclusive.
    - by eapply execute_hex_jump_exclusive.
    - by injection H1 as <-. }
  clear H1. simpl in H. repeat case_match; try (by injection H as <-).
  eapply Unit_update_exclusive; [exact H|exact Hex1].
Qed.

(** What [_execute_reach_waypoint] leaves when it has assigned
    something: at most one jump target, and no sub-light target beside
    a jump target. *)
Definition one_target (u : Unit) : Prop :=
  forall hd, hyperdrive_component u = Some hd ->
    exclusive hd
    /\ (hex_jump_target hd <> None \/ wormhole_jump_target hd <> None ->
        engines_component u ≫= move_target = None).

Lemma _execute_reach_waypoint_one_target params w w' st :
  _execute_reach_waypoint params w = Ok (w', st) -> w' = w \/ one_target (unit w').
Proof.
  unfold _execute_reach_waypoint. intros H.
  repeat (first [ progress inv_bind | case_match; try discriminate ]);
    try (by left); right; intros hd' E; simpl in E.
  all: try (injection E as <-); unfold exclusive; simpl.
  all: try (destruct (hyperdrive_component (unit w)); simplify_eq/=).
  all: split; [(by left) || (by right)|];
       try (intros _; by destruct (engines_component (unit w)));
       try (intros [?|?]; done).
Qed.

(** C8.  A new hyperdrive and a recharging one have no jump target; the
    one operation that assigns a jump target, [_execute_reach_waypoint],
    leaves the world as it was or leaves at most one jump target set and
    then no sub-light target; and no commander operation and no turn
    ever makes both targets set. *)
Theorem jump_targets_mutually_exclusive :
  (forall dt rd jr, exclusive (Hyperdrive_init dt rd jr))
  /\ (forall hd, exclusive (start_recharge hd))
  /\ (forall params w w' st,
        _execute_reach_waypoint params w = Ok (w', st) ->
        w' = w \/ one_target (unit w'))
  /\ (forall depth c w,
        exclusive_unit (unit w) ->
        (forall order c' w',
           add_order depth c order w = Ok (c', w') -> exclusive_unit (unit w'))
        /\ (forall i c' w' b,
              cancel_order depth c i w = Ok (c', w', b) -> exclusive_unit (unit w'))
        /\ exclusive_unit (unit (clear_orders c w).2)
        /\ (forall c' w',
              CommanderComponent.update depth c w = Ok (c', w') ->
              exclusive_unit (unit w'))
        /\ (forall player s',
              process_turn depth player (Turn.mkState c w) = Ok s' ->
              exclusive_unit (unit (world s')))).
Proof.
  split_and!.
  - intros. by left.
  - intros. by left.
  - apply _execute_reach_waypoint_one_target.
  - intros depth c w Hex. split_and!.
    + intros order c' w' H. eapply steers_exclusive; [|exact Hex].
      by eapply add_order_steers.
    + intros i c' w' b H. eapply steers_exclusive; [|exact Hex].
      by eapply cancel_order_steers.
    + eapply steers_exclusive; [|exact Hex]. apply clear_orders_steers.
    + intros c' w' H. eapply steers_exclusive; [|exact Hex].
      by eapply commander_update_steers.
    + intros player s' H. by eapply process_turn_exclusive in H.
Qed.

Lemma jump_targets_mutually_exclusive_witness :
  exclusive_unit (unit (sample_world charging_drive))
  /\ exclusive_unit
       (unit (clear_orders (mkCommander None []) (sample_world charging_drive)).2).
Proof.
  assert (exclusive_unit (unit (sample_world charging_drive))) as Hex.
  { intros hd E. injection E as <-. right. reflexivity. }
  split; [exact Hex|].
  exact (proj1 (proj2 (proj2
           (proj2 (proj2 (proj2 jump_targets_mutually_exclusive))
              0%nat (mkCommander None []) (sample_world charging_drive) Hex)))).
Defined.

(** *** A drive that is CHARGING defers its jump *)

Lemma execute_hex_jump_charging w h p hd name sys :
  in_system (unit w) = Some name -> systems (galaxy w) !! name = Some sys ->
  hyperdrive_component (unit w) = Some hd -> jump_status hd = CHARGING ->
  execute_hex_jump w h p = Ok w.
Proof.
  intros Hn Hs Hh Hc. unfold execute_hex_jump, systems_index, begin_jump.
  rewrite Hn, Hs, Hh, Hc. reflexivity.
Qed.

Lemma execute_system_jump_charging w target hd name sys :
  in_system (unit w) = Some name -> systems (galaxy w) !! name = Some sys ->
  hyperdrive_component (unit w) = Some hd -> jump_status hd = CHARGING ->
  execute_system_jump w target = Ok w.
Proof.
  intros Hn Hs Hh Hc. unfold execute_system_jump, systems_index, begin_jump.
  rewrite Hn, Hs, Hh, Hc. reflexivity.
Qed.

Lemma resolve_movement_targeted w name sys h hd t :
  hyperdrive_component (unit w) = Some hd -> hex_jump_target hd = Some t ->
  exists m, resolve_movement w name sys h = Ok (w, m).
Proof.
  intros Hh Ht. unfold resolve_movement. rewrite Hh. simpl. rewrite Ht.
  repeat case_match; eauto.
Qed.

(** The phases of [process_turn] before [unit.update()], for a unit
    whose drive is CHARGING and has a hex-jump target: the world handed
    to [unit.update()] holds the same unit in the same systems. *)
Lemma process_turn_defers depth c w hd t name h sys :
  hyperdrive_component (unit w) = Some hd ->
  jump_status hd = CHARGING ->
  hex_jump_target hd = Some t ->
  find_unit_hex (galaxy w) (id (unit w)) = Some (name, h) ->
  in_system (unit w) = Some name ->
  systems (galaxy w) !! name = Some sys ->
  exists w3,
    process_turn depth (owner (unit w)) (Turn.mkState c w)
    = Unit_update depth (Turn.mkState c w3)
    /\ unit w3 = unit w.
Proof.
  intros Hh Hc Ht Hf Hn Hs. unfold process_turn. simpl.
  rewrite bool_decide_false by (intros E; rewrite E, lookup_empty in Hs; done).
  rewrite Hf, bool_decide_true by done.
  rewrite Hs. simpl.
  destruct (resolve_movement_targeted w name sys h hd t Hh Ht) as [m ->]. simpl.
  assert ((match m with
           | Some (system_jump target_sys_name) => execute_system_jump w target_sys_name
           | Some (hex_jump target_hex target_pos) =>
               execute_hex_jump w target_hex target_pos
           | None => Ok w
           end) = Ok w) as ->.
  { destruct m as [[?|? ?]|]; [| |done].
    - by eapply execute_system_jump_charging.
    - by eapply execute_hex_jump_charging. }
  simpl. unfold find_unit_hex in *. simpl. rewrite Hf. eauto.
Qed.

Lemma update_recharge_charging hd :
  jump_status hd = CHARGING -> recharge_time_remaining hd = 2 ->
  update_recharge hd = set_recharge_time_remaining hd 1.
Proof. intros Hc Hr. unfold update_recharge. rewrite Hc, Hr. reflexivity. Qed.

Lemma commander_update_idle depth c w :
  current_order c = None -> orders_queue c = [] ->
  CommanderComponent.update depth c w = Ok (c, w).
Proof.
  intros Hc Hq. unfold CommanderComponent.update, start_next_order.
  rewrite Hc, Hq. simpl. rewrite Hc. reflexivity.
Qed.

Lemma Unit_update_idle depth c w :
  current_order c = None -> orders_queue c = [] ->
  exists w',
    Unit_update depth (Turn.mkState c w) = Ok (Turn.mkState c w')
    /\ position (unit w') = position (unit w)
    /\ hyperdrive_component (unit w') = update_recharge <$> hyperdrive_component (unit w).
Proof.
  intros Hc Hq.
  destruct (Unit_update_unfold depth (Turn.mkState c w))
    as (w1 & w3 & Hp & _ & Hd & (Hp3 & _ & Hd3) & ->).
  simpl in *. rewrite (commander_update_idle depth c w3 Hc Hq). simpl.
  exists w3. split; [reflexivity|]. split; congruence.
Qed.

(** C6, as amended.  A unit of the acting player, listed in the system
    it is in, whose hyperdrive is CHARGING with two turns left and has a
    hex-jump target.  The jump phase of the turn skips the jump and
    hands the unit unchanged to [unit.update()]; when the turn returns,
    the unit has not moved, the drive is still CHARGING and one turn is
    left.  The hex-jump target is still set after every such turn that
    leaves the commander's orders as they were.  The turn does return
    in this way, with the target still set, for a commander without
    orders, and for a commander whose current order waits for the jump:
    a REACH_WAYPOINT in progress for another hex, alone or at the front
    of the sub-orders of orders in progress. *)
Theorem charging_drive_defers_hex_jump :
  forall depth c w hd t name h sys,
    hyperdrive_component (unit w) = Some hd ->
    jump_status hd = CHARGING ->
    recharge_time_remaining hd = 2 ->
    hex_jump_target hd = Some t ->
    find_unit_hex (galaxy w) (id (unit w)) = Some (name, h) ->
    in_system (unit w) = Some name ->
    systems (galaxy w) !! name = Some sys ->
    (exists w3,
       process_turn depth (owner (unit w)) (Turn.mkState c w)
       = Unit_update depth (Turn.mkState c w3)
       /\ unit w3 = unit w)
    /\ (forall s',
          process_turn depth (owner (unit w)) (Turn.mkState c w) = Ok s' ->
          position (unit (world s')) = position (unit w)
          /\ exists hd',
               hyperdrive_component (unit (world s')) = Some hd'
               /\ jump_status hd' = CHARGING
               /\ recharge_time_remaining hd' = 1)
    /\ (current_order c = None -> orders_queue c = [] ->
        exists s' hd',
          process_turn depth (owner (unit w)) (Turn.mkState c w) = Ok s'
          /\ hyperdrive_component (unit (world s')) = Some hd'
          /\ hex_jump_target hd' = Some t)
    /\ (forall s',
          process_turn depth (owner (unit w)) (Turn.mkState c w) = Ok s' ->
          commander_component s' = c ->
          exists hd',
            hyperdrive_component (unit (world s')) = Some hd'
            /\ hex_jump_target hd' = Some t
            /\ wormhole_jump_target hd' = wormhole_jump_target hd)
    /\ (forall cur,
          in_galaxy (unit w) = true ->
          current_order c = Some cur ->
          waits (in_hex (unit w)) cur ->
          exists d0 : nat, forall d : nat, (d0 <= d)%nat ->
            exists s' hd',
              process_turn d (owner (unit w)) (Turn.mkState c w) = Ok s'
              /\ commander_component s' = c
              /\ hyperdrive_component (unit (world s')) = Some hd'
              /\ hex_jump_target hd' = Some t).
Proof.
  intros depth c w hd t name h sys Hh Hc Hr Ht Hf Hn Hs.
  destruct (process_turn_defers depth c w hd t name h sys Hh Hc Ht Hf Hn Hs)
    as (w3 & Hturn & Hu).
  destruct (update_recharge_targets hd) as [Ht1 Ht2].
  split_and!.
  - eauto.
  - intros s' H. rewrite Hturn in H.
    apply Unit_update_steps in H as (w1 & w4 & Hp1 & _ & Hd1 & (Hp4 & _ & Hd4) & Hst).
    simpl in Hp1, Hd1. rewrite Hu in Hp1, Hd1. rewrite Hh in Hd1. simpl in Hd1.
    rewrite (update_recharge_charging hd Hc Hr) in Hd1.
    destruct Hst as (Hp & _ & Hst). rewrite Hd4, Hd1 in Hst.
    split; [congruence|].
    destruct (hyperdrive_component (unit (world s'))) as [hd'|]; [|done].
    destruct Hst as (Hs1 & Hs2 & _). exists hd'. split_and!; [done| |done].
    by rewrite Hs1.
  - intros Hcur Hq. rewrite Hturn.
    destruct (Unit_update_idle depth c w3 Hcur Hq) as (w' & -> & _ & Hd).
    rewrite Hu, Hh in Hd. simpl in Hd.
    eexists _, _. split_and!; [reflexivity|exact Hd|].
    rewrite Ht1. exact Ht.
  - intros s' H Hsame. rewrite Hturn in H.
    destruct (Unit_update_before_commander depth (Turn.mkState c w3))
      as (w4 & _ & Hd & Hup).
    rewrite Hup in H. simpl in H, Hd.
    apply bind_Ok in H as ([c' w5] & Hcu & H). injection H as <-.
    simpl in Hsame. subst c'. apply commander_update_fixed in Hcu. subst w5.
    simpl. rewrite Hd, Hu, Hh. simpl. eexists. split; [reflexivity|].
    rewrite Ht1, Ht2. done.
  - intros cur Hg Hcur Hw.
    destruct (commander_update_waits _ c cur Hcur Hw) as [d0 Hd0].
    exists d0. intros d Hd.
    destruct (process_turn_defers d c w hd t name h sys Hh Hc Ht Hf Hn Hs)
      as (w3' & Hturn' & Hu').
    destruct (Unit_update_before_commander d (Turn.mkState c w3'))
      as (w4 & [Hp1 Hp2] & Hdr & Hup).
    simpl in Hp1, Hp2, Hdr. rewrite Hu' in Hp1, Hp2, Hdr.
    rewrite Hturn', Hup. simpl.
    rewrite (Hd0 w4 d) by (done || congruence). simpl.
    eexists _, _. split_and!; [reflexivity|reflexivity| |].
    + simpl. rewrite Hdr, Hh. reflexivity.
    + simpl. rewrite Ht1. exact Ht.
Qed.

(** A MOVE in progress whose first waypoint, the next hex, is being
    reached by the hex jump that the drive holds. *)
Definition moving_commander : Commander :=
  mkCommander
    (Some (mkOrder 0 MOVE (waypoint (1, 0) origin) IN_PROGRESS
             [mkOrder 1 REACH_WAYPOINT (waypoint (1, 0) origin) IN_PROGRESS []]))
    [].

Lemma charging_drive_defers_hex_jump_witness :
  exists d0 : nat, forall d : nat, (d0 <= d)%nat ->
    exists s' hd',
      process_turn d 0 (Turn.mkState moving_commander (sample_world charging_drive))
      = Ok s'
      /\ commander_component s' = moving_commander
      /\ hyperdrive_component (unit (world s')) = Some hd'
      /\ hex_jump_target hd' = Some ((1, 0), origin).
Proof.
  apply (proj2 (proj2 (proj2 (proj2
           (charging_drive_defers_hex_jump 3 moving_commander
              (sample_world charging_drive) charging_drive ((1, 0), origin)
              "Sol"%string (0, 0) sol
              eq_refl eq_refl eq_refl eq_refl
              ltac:(vm_compute; reflexivity) eq_refl ltac:(vm_compute; reflexivity)))))
         _ eq_refl eq_refl).
  apply waits_front. by eapply waits_leaf.
Defined.

(** C6 as stated fails on the jump target.  The commander holds a
    TOGGLE_INHIBITOR order that has failed (see C4) and, waiting behind
    it, a REACH_WAYPOINT order for the system "Vega": in the turn that
    defers the hex jump, the commander drops the failed order and
    executes the waiting one, which sets the wormhole as the jump
    target and clears the hex-jump target. *)
Lemma queued_order_clears_the_jump_target :
  jump_status charging_drive = CHARGING
  /\ recharge_time_remaining charging_drive = 2
  /\ hex_jump_target charging_drive = Some ((1, 0), origin)
  /\ exists s' hd',
       process_turn 3 0 (Turn.mkState waiting_commander two_system_world) = Ok s'
       /\ hyperdrive_component (unit (world s')) = Some hd'
       /\ jump_status hd' = CHARGING
       /\ recharge_time_remaining hd' = 1
       /\ hex_jump_target hd' = None.
Proof.
  split_and!; try reflexivity.
  eexists _, _. split; [vm_compute; reflexivity|].
  split_and!; reflexivity.
Qed.

End DriveClaims.

(** ** TOGGLE_INHIBITOR: the claim *)

Module InhibitorClaims.
Import Geometry Entities Components Game Orders CommanderComponent Turn.
Import OrderFacts Samples.



Lemma set_sub_orders_app_nil o : set_sub_orders o (sub_orders o ++ []) = o.
Proof. destruct o. unfold set_sub_orders. simpl. by rewrite app_nil_r. Qed.

(** The circle an emitter would cover around its unit. *)
Definition proposed_field (w : World) (e : HyperspaceInhibitionFieldEmitter) : Circle :=
  mkCircle (position (unit w)) (field_radius e).

(** The two validations of the turn-on branch. *)
Definition rejected (w : World) (e : HyperspaceInhibitionFieldEmitter) (hex : Hex) : bool :=
  negb (is_circle_contained (proposed_field w e) (boundary_circle hex))
  || existsb (do_circles_intersect (proposed_field w e)) (get_all_inhibition_zones hex).



(** At the centre of an empty cell of radius 1000 the field of radius
    50 is accepted. *)
Example field_at_the_centre_is_accepted :
  rejected emitter_world emitter (mkHex sector [] [] [1]) = false.
Proof.
  unfold rejected, proposed_field, is_circle_contained. simpl.
  rewrite GeometryFacts.distance_refl.
  replace (Rleb (0 + 50) 1000) with true; [reflexivity|].
  symmetry. apply GeometryFacts.Rleb_true. lra.
Qed.

End InhibitorClaims.

(** ** Paths between systems *)

Module InterSystemFacts.
Import InterSystem.

(** "A" lists "X" and "B" as neighbours; "X" is not a key. *)
Definition dangling : Graph :=
  <["A"%string := ["X"%string; "B"%string]]> (<["B"%string := []]> ∅).

(** C2.  [find_intersystem_path] does not tolerate a neighbour that is
    no key of the graph, although its loop has a branch meant to warn
    about such a node: on the graph [dangling] a path from "A" to "B"
    exists, and the call raises [KeyError] when it reads
    [distances[neighbor]] for the neighbour "X" instead of returning
    the path. *)
Lemma find_intersystem_path_dangling_neighbour :
  walk dangling "A" ["A"%string; "B"%string] "B"
  /\ find_intersystem_path dangling "A" "B" = Raise KeyError.
Proof.
  split.
  - apply walk_cons with (v := "B"%string).
    + exists ["X"%string; "B"%string]. split; [reflexivity|]. set_solver.
    + apply walk_one. by eexists.
  - vm_compute. reflexivity.
Qed.

End InterSystemFacts.

(** ** Paths between systems: graphs whose neighbours are all keys *)

Module InterSystemProof.
Import InterSystem.

(** *** Walks, counted by their edges *)

Inductive reach (g : Graph) (s : string) : nat -> string -> Prop :=
| reach_O : is_Some (g !! s) -> reach g s 0 s
| reach_S k u v : reach g s k u -> edge g u v -> reach g s (S k) v.

Lemma walk_start g u p w : walk g u p w -> is_Some (g !! u).
Proof. destruct 1 as [u H|u v p w [ns [H _]] _]; [done|by eexists]. Qed.

Lemma walk_snoc g u p v w :
  walk g u p v -> edge g v w -> is_Some (g !! w) -> walk g u (p ++ [w]) w.
Proof.
  intros H Hvw Hw. induction H as [u Hu|u v0 p v Huv _ IH].
  - simpl. eapply walk_cons; [exact Hvw|]. by apply walk_one.
  - simpl. eapply walk_cons; [exact Huv|]. by apply IH.
Qed.

Lemma walk_reach g u p w : walk g u p w -> forall s k, reach g s k u -> reach g s (k + (length p - 1)) w.
Proof.
  induction 1 as [u Hu|u v p w Huv Hw IH]; intros s k Hr.
  - simpl. by rewrite Nat.add_0_r.
  - simpl. rewrite Nat.sub_0_r.
    assert (length p = S (length p - 1)) as Hl.
    { destruct Hw; simpl; lia. }
    specialize (IH s (S k) (reach_S g s k u v Hr Huv)).
    replace (k + length p)%nat with (S k + (length p - 1))%nat by lia. exact IH.
Qed.

Lemma walk_length g u p w : walk g u p w -> (1 <= length p)%nat.
Proof. destruct 1; simpl; lia. Qed.

(** *** The queue *)

Lemma entry_ltb_true a b : entry_ltb a b = true -> (a.1 <= b.1)%nat.
Proof.
  unfold entry_ltb. intros H. apply orb_true_iff in H as [H|H].
  - apply Nat.ltb_lt in H. lia.
  - apply andb_true_iff in H as [H _]. apply Nat.eqb_eq in H. lia.
Qed.

Lemma entry_ltb_false a b : entry_ltb a b = false -> (b.1 <= a.1)%nat.
Proof.
  unfold entry_ltb. intros H. apply orb_false_iff in H as [H _].
  apply Nat.ltb_ge in H. lia.
Qed.

Lemma extract_min_spec e q m r :
  extract_min e q = (m, r) ->
  m :: r ≡ₚ e :: q /\ forall x, x ∈ e :: q -> (m.1 <= x.1)%nat.
Proof.
  revert e m r. induction q as [|e' q IH]; intros e m r H; simpl in H.
  - injection H as <- <-. split; [done|]. intros x Hx.
    apply list_elem_of_singleton in Hx as ->. lia.
  - destruct (extract_min e' q) as [m' r'] eqn:E.
    destruct (IH e' m' r' E) as [Hp Hmin].
    destruct (entry_ltb m' e) eqn:L; injection H as <- <-.
    + split.
      * rewrite Permutation_swap. by rewrite Hp.
      * intros x Hx. apply elem_of_cons in Hx as [->|Hx].
        -- by apply entry_ltb_true.
        -- by apply Hmin.
    + split; [done|]. intros x Hx. apply elem_of_cons in Hx as [->|Hx]; [lia|].
      apply entry_ltb_false in L. specialize (Hmin x Hx). lia.
Qed.

Lemma heappop_spec q m r :
  heappop q = Some (m, r) ->
  m :: r ≡ₚ q /\ forall x, x ∈ q -> (m.1 <= x.1)%nat.
Proof.
  destruct q as [|e q]; [discriminate|]. simpl. intros [= H].
  by apply extract_min_spec.
Qed.

(** *** The state of the search *)

Definition finite (st : state) (v : string) (k : nat) : Prop :=
  distances st !! v = Some (Some k).

(** The invariant of the main loop for the start [s] and the end [e].
    The queue holds entries of the levels [m] and [m + 1], each with
    the distance of its node; every node within [m] steps of the start
    has a distance; a node with a distance that is not in the queue has
    been expanded: all its neighbours have a distance, the edges in
    [pending] apart. *)
Record inv (g : Graph) (s e : string) (m : nat)
    (pending : string -> string -> Prop) (st : state) : Prop := {
  inv_dom_d : forall v, is_Some (distances st !! v) <-> is_Some (g !! v);
  inv_dom_p : forall v, is_Some (predecessors st !! v) <-> is_Some (g !! v);
  inv_start_d : finite st s 0;
  inv_start_p : predecessors st !! s = Some None;
  inv_pred : forall v k,
    finite st v k -> v <> s ->
    exists u j, k = S j /\ predecessors st !! v = Some (Some u)
                /\ finite st u j /\ edge g u v;
  inv_sound : forall v k, finite st v k -> reach g s k v;
  inv_min : forall v k j, finite st v k -> reach g s j v -> (k <= j)%nat;
  inv_queue : forall k v,
    (k, v) ∈ priority_queue st -> finite st v k /\ (m <= k <= S m)%nat;
  inv_bound : forall v k, finite st v k -> (k <= S m)%nat;
  inv_disc : forall v j, reach g s j v -> (j <= m)%nat -> exists k, finite st v k;
  inv_closed : forall u k v,
    finite st u k -> (k, u) ∉ priority_queue st -> edge g u v ->
    pending u v \/ exists k', finite st v k';
  inv_end : forall k, finite st e k -> (k, e) ∈ priority_queue st
}.

Lemma inv_weaken g s e m (pending pending' : string -> string -> Prop) st :
  (forall u v, pending u v -> pending' u v \/ exists k', finite st v k') ->
  inv g s e m pending st -> inv g s e m pending' st.
Proof.
  intros Hp [].
  split; try done.
  intros u k v Hu Hq He.
  destruct (inv_closed0 u k v Hu Hq He) as [H|H]; [by apply Hp|by right].
Qed.

(** The nodes without a distance, and the measure of the main loop. *)
Definition unknown (st : state) : nat :=
  size (filter (fun kv : string * option nat => kv.2 = None) (distances st)).

Definition measure (st : state) : nat := (unknown st + length (priority_queue st))%nat.

Lemma unknown_insert (d : gmap string (option nat)) (v : string) (k : nat) :
  d !! v = Some None ->
  S (size (filter (fun kv : string * option nat => kv.2 = None) (<[v := Some k]> d)))
  = size (filter (fun kv : string * option nat => kv.2 = None) d).
Proof.
  intros H. rewrite map_filter_insert_False by done.
  rewrite map_filter_delete.
  rewrite <- (insert_delete_id (filter _ d) v None) at 2.
  - rewrite map_size_insert_None; [done|]. apply lookup_delete_eq.
  - apply map_lookup_filter_Some. done.
Qed.

(** *** The loop over the neighbours *)

(** The state after [distances[neighbor] = ...], [predecessors[neighbor]
    = ...] and [heappush]. *)
Definition discover (u : string) (k : nat) (v : string) (st : state) : state :=
  {| distances := <[v := Some (k + 1)%nat]> (distances st);
     predecessors := <[v := Some u]> (predecessors st);
     priority_queue := heappush (priority_queue st) ((k + 1)%nat, v) |}.

Lemma finite_discover u m v st x k :
  finite (discover u m v st) x k
  <-> (x = v /\ k = S m) \/ (x <> v /\ finite st x k).
Proof.
  unfold finite, discover. simpl. destruct (decide (v = x)) as [->|Hne].
  - rewrite lookup_insert_eq. split.
    + intros [= <-]. left. split; [done|lia].
    + intros [[_ ->]|[? _]]; [|done]. do 2 f_equal. lia.
  - rewrite lookup_insert_ne by done. split; [by right|].
    intros [[-> _]|[_ ?]]; done.
Qed.

Lemma discover_inv g s e m u v rest st :
  edge g u v ->
  is_Some (g !! v) ->
  distances st !! v = Some None ->
  finite st u m ->
  inv g s e m (fun x y => x = u /\ y ∈ v :: rest) st ->
  inv g s e m (fun x y => x = u /\ y ∈ rest) (discover u m v st).
Proof.
  intros Huv Hv Hd Hu [].
  assert (forall x k, finite st x k -> x <> v) as Hfin.
  { intros x k Hx ->. unfold finite in Hx. congruence. }
  assert (forall x k, finite st x k -> finite (discover u m v st) x k) as Hkeep.
  { intros x k Hx. apply finite_discover. right. split; [by eapply Hfin|done]. }
  split.
  - intros x. simpl. destruct (decide (v = x)) as [->|Hne].
    + rewrite lookup_insert_eq. split; [done|by eexists].
    + rewrite lookup_insert_ne by done. apply inv_dom_d0.
  - intros x. simpl. destruct (decide (v = x)) as [->|Hne].
    + rewrite lookup_insert_eq. split; [done|by eexists].
    + rewrite lookup_insert_ne by done. apply inv_dom_p0.
  - by apply Hkeep.
  - simpl. rewrite lookup_insert_ne; [done|]. intros ->. by eapply (Hfin s 0%nat).
  - intros x k Hx Hxs. apply finite_discover in Hx as [[-> ->]|[Hne Hx]].
    + exists u, m. split_and!; [done| |by apply Hkeep|done].
      simpl. by rewrite lookup_insert_eq.
    + destruct (inv_pred0 x k Hx Hxs) as (u0 & j & -> & Hp & Hu0 & He).
      exists u0, j. split_and!; [done| |by apply Hkeep|done].
      simpl. by rewrite lookup_insert_ne.
  - intros x k Hx. apply finite_discover in Hx as [[-> ->]|[Hne Hx]].
    + eapply reach_S; [|exact Huv]. by apply inv_sound0.
    + by apply inv_sound0.
  - intros x k j Hx Hr. apply finite_discover in Hx as [[-> ->]|[Hne Hx]].
    + destruct (decide (j <= m)%nat) as [Hj|Hj]; [|lia].
      destruct (inv_disc0 v j Hr Hj) as [k' Hk']. unfold finite in Hk'. congruence.
    + by eapply inv_min0.
  - intros k x Hx. simpl in Hx. unfold heappush in Hx.
    apply elem_of_cons in Hx as [[= -> ->]|Hx].
    + split; [|lia]. apply finite_discover. left. split; [done|lia].
    + destruct (inv_queue0 k x Hx) as [Hf Hb]. split; [by apply Hkeep|done].
  - intros x k Hx. apply finite_discover in Hx as [[-> ->]|[Hne Hx]]; [lia|].
    by eapply inv_bound0.
  - intros x j Hr Hj. destruct (inv_disc0 x j Hr Hj) as [k Hk].
    exists k. by apply Hkeep.
  - intros x k y Hx Hq He. simpl in Hq. unfold heappush in Hq.
    apply not_elem_of_cons in Hq as [Hhd Hq].
    apply finite_discover in Hx as [[-> ->]|[Hne Hx]].
    { exfalso. apply Hhd. f_equal. lia. }
    destruct (inv_closed0 x k y Hx Hq He) as [[-> Hy]|[k' Hk']].
    + apply elem_of_cons in Hy as [->|Hy]; [|by left].
      right. exists (S m). apply finite_discover. by left.
    + right. exists k'. by apply Hkeep.
  - intros k Hx. simpl. unfold heappush.
    apply finite_discover in Hx as [[-> ->]|[Hne Hx]].
    + apply elem_of_cons. left. f_equal. lia.
    + apply elem_of_cons. right. by apply inv_end0.
Qed.

Lemma relax_inv g s e m u :
  closed g ->
  forall rest st,
    (forall v, v ∈ rest -> edge g u v) ->
    inv g s e m (fun x y => x = u /\ y ∈ rest) st ->
    finite st u m ->
    exists st',
      relax u m rest st = Ok st'
      /\ inv g s e m (fun _ _ => False) st'
      /\ measure st' = measure st.
Proof.
  intros Hcl rest. induction rest as [|v rest IH]; intros st Hedges Hinv Hu.
  - exists st. split; [reflexivity|]. split; [|done].
    eapply inv_weaken; [|exact Hinv]. intros x y [_ Hy]. by apply elem_of_nil in Hy.
  - simpl.
    assert (edge g u v) as Huv by (apply Hedges; left).
    assert (is_Some (g !! v)) as Hv.
    { destruct Huv as (ns & Hns & Hin). by eapply Hcl. }
    destruct (proj2 (inv_dom_d _ _ _ _ _ _ Hinv v) Hv) as [d Hd]. rewrite Hd.
    destruct d as [kd|]; simpl.
    + assert (kd <= S m)%nat as Hkd by (eapply inv_bound; eauto).
      replace (m + 1 <? kd)%nat with false by (symmetry; apply Nat.ltb_ge; lia).
      apply IH; [intros; apply Hedges; by right| |done].
      eapply inv_weaken; [|exact Hinv]. intros x y [-> Hy].
      apply elem_of_cons in Hy as [->|Hy]; [right; by exists kd|by left].
    + destruct (IH (discover u m v st)) as (st' & Hr & Hinv' & Hm).
      * intros; apply Hedges; by right.
      * by eapply discover_inv.
      * apply finite_discover. right. split; [|done].
        intros ->. unfold finite in Hu. congruence.
      * exists st'. split; [exact Hr|]. split; [done|]. rewrite Hm.
        unfold measure, unknown, discover, heappush. simpl.
        rewrite <- (unknown_insert (distances st) v (m + 1) Hd). lia.
Qed.

(** *** The reconstruction of the path *)

Lemma finite_start g s e m pending st v :
  inv g s e m pending st -> finite st v 0 -> v = s.
Proof.
  intros Hinv Hv. destruct (decide (v = s)) as [|Hne]; [done|].
  destruct (inv_pred _ _ _ _ _ _ Hinv v 0%nat Hv Hne) as (? & ? & ? & _). lia.
Qed.

(** The predecessors of a node with distance [k] form a chain of
    [k + 1] different nodes. *)
Lemma chain g s e m pending st :
  inv g s e m pending st ->
  forall k v, finite st v k ->
    exists l : list string,
      length l = S k /\ NoDup l
      /\ forall x, x ∈ l -> exists j, (j <= k)%nat /\ finite st x j.
Proof.
  intros Hinv. induction k as [|k IH]; intros v Hv.
  - exists [v]. split_and!; [done|apply NoDup_singleton|].
    intros x Hx. apply list_elem_of_singleton in Hx as ->. by exists 0%nat.
  - assert (v <> s) as Hne.
    { intros ->. pose proof (inv_start_d _ _ _ _ _ _ Hinv) as H0.
      unfold finite in *. congruence. }
    destruct (inv_pred _ _ _ _ _ _ Hinv v (S k) Hv Hne) as (u & j & [= <-] & _ & Hu & _).
    destruct (IH u Hu) as (l & Hl & Hnd & Hall).
    exists (v :: l). split_and!; [simpl; lia| |].
    + apply NoDup_cons. split; [|done]. intros Hin.
      destruct (Hall v Hin) as (j & Hj & Hvj). unfold finite in *.
      rewrite Hv in Hvj. injection Hvj as <-. lia.
    + intros x Hx. apply elem_of_cons in Hx as [->|Hx]; [by exists (S k)|].
      destruct (Hall x Hx) as (j & Hj & Hxj). exists j. split; [lia|done].
Qed.

Lemma finite_bound g s e m pending st k v :
  inv g s e m pending st -> finite st v k -> (k < size (predecessors st))%nat.
Proof.
  intros Hinv Hv. destruct (chain _ _ _ _ _ _ Hinv k v Hv) as (l & Hl & Hnd & Hall).
  assert (list_to_set l ⊆ dom (predecessors st)) as Hsub.
  { intros x Hx. apply elem_of_list_to_set in Hx.
    destruct (Hall x Hx) as (j & _ & Hxj). apply elem_of_dom.
    apply (inv_dom_p _ _ _ _ _ _ Hinv). apply (inv_dom_d _ _ _ _ _ _ Hinv).
    by eexists. }
  apply subseteq_size in Hsub. rewrite size_list_to_set in Hsub by done.
  rewrite size_dom in Hsub. lia.
Qed.

Lemma trace_walk g s e m pending st :
  inv g s e m pending st ->
  forall k v acc fuel,
    finite st v k -> (k < fuel)%nat ->
    exists p,
      trace fuel (predecessors st) (Some v) acc = Ok (acc ++ p)
      /\ walk g s (rev p) v /\ length p = S k.
Proof.
  intros Hinv. induction k as [|k IH]; intros v acc fuel Hv Hf;
    (destruct fuel as [|fuel]; [lia|]); simpl.
  - apply (finite_start _ _ _ _ _ _ _ Hinv) in Hv as ->.
    rewrite (inv_start_p _ _ _ _ _ _ Hinv). exists [s]. split_and!; [by destruct fuel| |done].
    simpl. apply walk_one. apply (inv_dom_p _ _ _ _ _ _ Hinv).
    rewrite (inv_start_p _ _ _ _ _ _ Hinv). by eexists.
  - assert (v <> s) as Hne.
    { intros ->. pose proof (inv_start_d _ _ _ _ _ _ Hinv) as H0.
      unfold finite in *. congruence. }
    destruct (inv_pred _ _ _ _ _ _ Hinv v (S k) Hv Hne)
      as (u & j & [= <-] & Hp & Hu & Huv).
    rewrite Hp. destruct (IH u (acc ++ [v]) fuel Hu ltac:(lia)) as (p & Ht & Hw & Hl).
    exists (v :: p). split_and!.
    + rewrite Ht. by rewrite <- app_assoc.
    + simpl. eapply walk_snoc; [exact Hw|exact Huv|].
      apply (inv_dom_d _ _ _ _ _ _ Hinv). by eexists.
    + simpl. lia.
Qed.

(** *** The main loop *)

Definition with_queue (st : state) (q : list entry) : state :=
  {| distances := distances st; predecessors := predecessors st; priority_queue := q |}.

(** After [heappop]: the invariant at the level of the popped entry,
    with the edges of the popped node pending. *)
Lemma pop_inv g s e m st k u q ns :
  inv g s e m (fun _ _ => False) st ->
  (k, u) :: q ≡ₚ priority_queue st ->
  (forall x, x ∈ priority_queue st -> (k <= x.1)%nat) ->
  u <> e ->
  g !! u = Some ns ->
  inv g s e k (fun x y => x = u /\ y ∈ ns) (with_queue st q).
Proof.
  intros [] Hperm Hmin Hue Hns.
  assert ((k, u) ∈ priority_queue st) as Hin by (rewrite <- Hperm; left).
  destruct (inv_queue0 k u Hin) as [Hu Hk].
  assert (forall x, x ∈ q -> x ∈ priority_queue st) as Hsub.
  { intros x Hx. rewrite <- Hperm. by right. }
  split; try done.
  - intros k' x Hx. simpl in Hx. specialize (Hsub _ Hx).
    destruct (inv_queue0 k' x Hsub) as [Hf Hb]. split; [done|].
    specialize (Hmin _ Hsub). simpl in Hmin. lia.
  - intros x k' Hx. specialize (inv_bound0 x k' Hx). lia.
  - intros x j Hr Hj. destruct (decide (j <= m)%nat) as [Hjm|Hjm]; [by eapply inv_disc0|].
    assert (j = S m) as -> by lia. assert (k = S m) as -> by lia.
    inversion Hr as [|j' w x' Hrw Hwx]; subst.
    destruct (inv_disc0 w m Hrw ltac:(lia)) as [kw Hw].
    assert (kw <= m)%nat as Hkw by (by eapply inv_min0).
    destruct (inv_closed0 w kw x Hw) as [[]|Hx]; [|done|done].
    intros Hq. specialize (Hmin _ Hq). simpl in Hmin. lia.
  - intros x kx y Hx Hq Hxy. simpl in Hq.
    destruct (decide (x = u)) as [->|Hne].
    + left. split; [done|]. destruct Hxy as (ns' & Hns' & Hy). congruence.
    + right. destruct (inv_closed0 x kx y Hx) as [[]|Hy]; [|done|done].
      rewrite <- Hperm. intros Hq'. apply elem_of_cons in Hq' as [[= _ ->]|Hq']; done.
  - intros ke He. simpl. specialize (inv_end0 ke He). rewrite <- Hperm in inv_end0.
    apply elem_of_cons in inv_end0 as [[= _ ->]|H]; done.
Qed.

Lemma heappop_None q : heappop q = None -> q = [].
Proof.
  destruct q as [|e q]; [done|]. simpl. destruct (extract_min e q). discriminate.
Qed.

Lemma search_correct g s e :
  closed g ->
  forall fuel st m,
    inv g s e m (fun _ _ => False) st ->
    (measure st < fuel)%nat ->
    match search fuel g e st with
    | Ok (Some p) => walk g s p e /\ forall j, reach g s j e -> (length p <= S j)%nat
    | Ok None => forall j, ~ reach g s j e
    | Raise _ | OutOfFuel => False
    end.
Proof.
  intros Hcl. induction fuel as [|fuel IH]; intros st m Hinv Hfuel; [lia|].
  simpl. destruct (heappop (priority_queue st)) as [[[k u] q]|] eqn:Hpop.
  - apply heappop_spec in Hpop as [Hperm Hmin].
    assert ((k, u) ∈ priority_queue st) as Hin by (rewrite <- Hperm; left).
    destruct (inv_queue _ _ _ _ _ _ Hinv k u Hin) as [Hu Hk].
    unfold finite in Hu. rewrite Hu. simpl. rewrite Nat.ltb_irrefl.
    assert (length (priority_queue st) = S (length q)) as Hlen.
    { by rewrite <- Hperm. }
    case_bool_decide as Hue.
    + subst u.
      destruct (trace_walk _ _ _ _ _ _ Hinv k e [] (S (size (predecessors st))) Hu)
        as (p & Ht & Hw & Hl).
      { pose proof (finite_bound _ _ _ _ _ _ _ _ Hinv Hu). lia. }
      simpl in Ht. rewrite Ht. simpl. split; [done|].
      intros j Hr. rewrite length_rev, Hl.
      pose proof (inv_min _ _ _ _ _ _ Hinv e k j Hu Hr). lia.
    + destruct (proj1 (inv_dom_d _ _ _ _ _ _ Hinv u)) as [ns Hns]; [by eexists|].
      rewrite Hns.
      destruct (relax_inv g s e k u Hcl ns (with_queue st q)) as (st' & Hr & Hinv' & Hm).
      * intros v Hv. by exists ns.
      * by eapply pop_inv.
      * done.
      * fold (with_queue st q). rewrite Hr. simpl.
        apply (IH st' k Hinv'). rewrite Hm.
        unfold measure in *. simpl. unfold unknown in *. simpl. lia.
  - apply heappop_None in Hpop.
    assert (forall j v, reach g s j v -> exists k, finite st v k) as Hall.
    { intros j v Hr. induction Hr as [Hs|j u v Hr [ku Hu] Huv].
      - exists 0%nat. by apply (inv_start_d _ _ _ _ _ _ Hinv).
      - destruct (inv_closed _ _ _ _ _ _ Hinv u ku v Hu) as [[]|Hv]; [|done|done].
        rewrite Hpop. apply not_elem_of_nil. }
    intros j Hr. destruct (Hall j e Hr) as [k He].
    apply (inv_end _ _ _ _ _ _ Hinv) in He. rewrite Hpop in He.
    by apply not_elem_of_nil in He.
Qed.

(** *** The first state *)

Definition initial (g : Graph) (s : string) : state :=
  {| distances := <[s := Some 0%nat]> ((fun _ => None) <$> g);
     predecessors := (fun _ => @None string) <$> g;
     priority_queue := [(0%nat, s)] |}.

Lemma finite_initial g s v k : finite (initial g s) v k -> v = s /\ k = 0%nat.
Proof.
  unfold finite, initial. simpl. destruct (decide (s = v)) as [->|Hne].
  - rewrite lookup_insert_eq. by intros [= <-].
  - rewrite lookup_insert_ne by done. rewrite lookup_fmap.
    destruct (g !! v); simpl; discriminate.
Qed.

Lemma initial_inv g s e :
  is_Some (g !! s) -> s <> e ->
  inv g s e 0 (fun _ _ => False) (initial g s).
Proof.
  intros Hs Hse.
  assert (finite (initial g s) s 0) as H0.
  { unfold finite, initial. simpl. by rewrite lookup_insert_eq. }
  split; try done.
  - intros v. simpl. destruct (decide (s = v)) as [->|Hne].
    + rewrite lookup_insert_eq. split; [done|by eexists].
    + rewrite lookup_insert_ne by done. rewrite lookup_fmap.
      by rewrite fmap_is_Some.
  - intros v. simpl. rewrite lookup_fmap. by rewrite fmap_is_Some.
  - simpl. rewrite lookup_fmap. destruct Hs as [ns ->]. done.
  - intros v k Hv Hne. by apply finite_initial in Hv as [-> _].
  - intros v k Hv. apply finite_initial in Hv as [-> ->]. by apply reach_O.
  - intros v k j Hv _. apply finite_initial in Hv as [_ ->]. lia.
  - intros k v Hv. simpl in Hv. apply list_elem_of_singleton in Hv as [= -> ->].
    split; [done|lia].
  - intros v k Hv. apply finite_initial in Hv as [_ ->]. lia.
  - intros v j Hr Hj. assert (j = 0%nat) as -> by lia.
    inversion Hr; subst. by exists 0%nat.
  - intros u k v Hu Hq. apply finite_initial in Hu as [-> ->].
    exfalso. apply Hq. simpl. left.
  - intros k He. by apply finite_initial in He as [-> _].
Qed.

Lemma initial_measure g s :
  is_Some (g !! s) -> (measure (initial g s) <= size g)%nat.
Proof.
  intros [ns Hs]. unfold measure, unknown, initial. simpl.
  rewrite map_filter_insert_False by done.
  rewrite map_filter_delete.
  assert (size (delete s (filter (fun kv : string * option nat => kv.2 = None)
                                 ((fun _ => None) <$> g)))
          <= size (delete s ((fun _ : list string => @None nat) <$> g)))%nat as H.
  { apply map_subseteq_size. apply delete_mono. apply map_filter_subseteq. }
  assert (is_Some (((fun _ : list string => @None nat) <$> g) !! s)) as Hx.
  { rewrite lookup_fmap, Hs. by eexists. }
  rewrite (map_size_delete_Some s _ Hx), map_size_fmap in H.
  assert (0 < size g)%nat.
  { destruct (decide (size g = 0%nat)) as [E|]; [|lia].
    apply map_size_empty_inv in E. rewrite E in Hs. by rewrite lookup_empty in Hs. }
  lia.
Qed.

Lemma walk_end g u p w : walk g u p w -> is_Some (g !! w).
Proof. induction 1; done. Qed.

(** On graphs whose neighbours are all keys, as the galaxy builds them,
    the search returns, a path it returns is a walk from the start to
    the end with the fewest nodes among all such walks, and it returns
    [None] only when there is no walk from the start to the end. *)
Theorem find_intersystem_path_closed :
  forall (g : Graph) (s e : string),
    closed g ->
    match find_intersystem_path g s e with
    | Ok (Some p) =>
        walk g s p e /\ forall p', walk g s p' e -> (length p <= length p')%nat
    | Ok None => forall p', ~ walk g s p' e
    | Raise _ | OutOfFuel => False
    end.
Proof.
  intros g s e Hcl. unfold find_intersystem_path.
  destruct (decide (is_Some (g !! s))) as [Hs|Hs].
  2: { rewrite (bool_decide_false _ Hs). simpl. intros p' Hw.
       by apply walk_start in Hw. }
  destruct (decide (is_Some (g !! e))) as [He|He].
  2: { rewrite (bool_decide_true _ Hs), (bool_decide_false _ He). simpl.
       intros p' Hw. by apply walk_end in Hw. }
  rewrite (bool_decide_true _ Hs), (bool_decide_true _ He). cbn [negb orb].
  case_bool_decide as Hse.
  - subst e. split; [by apply walk_one|].
    intros p' Hw. apply walk_length in Hw. simpl. lia.
  - pose proof (search_correct g s e Hcl (S (size g)) (initial g s) 0%nat
                  (initial_inv g s e Hs Hse)) as H.
    pose proof (initial_measure g s Hs) as Hm.
    specialize (H ltac:(lia)). fold (initial g s).
    destruct (search (S (size g)) g e (initial g s)) as [[p|]| |]; [| |done|done].
    + destruct H as [Hw Hmin]. split; [done|].
      intros p' Hw'. pose proof (walk_length _ _ _ _ Hw').
      pose proof (walk_reach _ _ _ _ Hw' s 0%nat (reach_O g s Hs)) as Hr.
      specialize (Hmin _ Hr). simpl in Hmin. lia.
    + intros p' Hw'.
      pose proof (walk_reach _ _ _ _ Hw' s 0%nat (reach_O g s Hs)) as Hr.
      by apply H in Hr.
Qed.

(** [closed] as a check that can be run. *)
Lemma closed_check (g : Graph) :
  map_Forall (fun _ ns => Forall (fun v => is_Some (g !! v)) ns) g -> closed g.
Proof.
  intros H u ns v Hu Hv. specialize (H u ns Hu). rewrite Forall_forall in H.
  by apply H.
Qed.

(** "A" -> "B" -> "C", and a longer way round through "D". *)
Definition two_ways : Graph :=
  <["A"%string := ["D"%string; "B"%string]]>
    (<["B"%string := ["C"%string]]>
       (<["C"%string := []]>
          (<["D"%string := ["A"%string; "C"%string]]> ∅))).

Lemma two_ways_closed : closed two_ways.
Proof. apply closed_check. apply (bool_decide_unpack _). vm_compute. exact I. Qed.

Lemma find_intersystem_path_closed_witness :
  match find_intersystem_path two_ways "A" "C" with
  | Ok (Some p) =>
      walk two_ways "A" p "C"
      /\ forall p', walk two_ways "A" p' "C" -> (length p <= length p')%nat
  | Ok None => forall p', ~ walk two_ways "A" p' "C"
  | Raise _ | OutOfFuel => False
  end.
Proof. exact (find_intersystem_path_closed two_ways "A" "C" two_ways_closed). Defined.

Example find_intersystem_path_two_ways :
  find_intersystem_path two_ways "A" "C" = Ok (Some ["A"%string; "B"%string; "C"%string])
  /\ find_intersystem_path two_ways "C" "A" = Ok None
  /\ find_intersystem_path two_ways "A" "Z" = Ok None.
Proof. vm_compute. done. Qed.

End InterSystemProof.

(** ** The colony transfer on Python's numbers *)

Module ColonyTransferFacts.
Import Entities Components PyNumber ColonyTransfer.
Import Floats.

(** C10, as amended.  [load_population] and [unload_population] on the
    planet's population as Python holds it.  A call that returns
    [False] leaves the component and the planet as they were.  A call
    that returns [True] changes the cargo by exactly [amount]; it
    changes the population by exactly [amount] when the population is
    an [int], and replaces it by the binary64 result of the
    subtraction or addition when it is a [float].  A call raises
    [OverflowError] only for a [float] population and an [amount] too
    large for a [float], with cargo and population unchanged.  So on an
    [int] population every call returns and keeps the sum of
    population and cargo. *)
Theorem colony_transfer_on_numbers :
  forall (unit_owner : Z) (c : ColonyComponent) (planet : Planet) (amount : Z),
    match load_population unit_owner c planet amount with
    | Returns c' planet' false => c' = c /\ planet' = planet
    | Returns c' planet' true =>
        population_cargo c' = population_cargo c + amount
        /\ max_cargo c' = max_cargo c
        /\ planet_owner planet' = planet_owner planet
        /\ match population planet with
           | Int z => population planet' = Int (z - amount)
           | Float f =>
               exists fz, float_of_int amount = Some fz
                          /\ population planet' = Float (PrimFloat.sub f fz)
           end
    | RaisesOverflowError c' planet' =>
        c' = c /\ planet' = planet
        /\ (exists f, population planet = Float f) /\ float_of_int amount = None
    end
    /\ match unload_population unit_owner c planet amount with
       | Returns c' planet' false => c' = c /\ planet' = planet
       | Returns c' planet' true =>
           population_cargo c' = population_cargo c - amount
           /\ max_cargo c' = max_cargo c
           /\ planet_owner planet' = Some unit_owner
           /\ match population planet with
              | Int z => population planet' = Int (z + amount)
              | Float f =>
                  exists fz, float_of_int amount = Some fz
                             /\ population planet' = Float (PrimFloat.add f fz)
              end
       | RaisesOverflowError c' planet' =>
           c' = c /\ population planet' = population planet
           /\ planet_owner planet' = Some unit_owner
           /\ (exists f, population planet = Float f) /\ float_of_int amount = None
       end
    /\ (forall z : Z, population planet = Int z ->
        (exists c' planet' ok z',
           load_population unit_owner c planet amount = Returns c' planet' ok
           /\ population planet' = Int z'
           /\ z' + population_cargo c' = z + population_cargo c)
        /\ (exists c' planet' ok z',
              unload_population unit_owner c planet amount = Returns c' planet' ok
              /\ population planet' = Int z'
              /\ z' + population_cargo c' = z + population_cargo c)).
Proof.
  intros unit_owner c [o p] amount. split_and!.
  - unfold load_population. simpl.
    destruct (negb _); [done|]. destruct (lt_int _ _); [done|].
    destruct (_ <? _); [done|].
    destruct p as [z|f]; simpl; [done|].
    destruct (float_of_int amount) as [fz|]; simpl; eauto 10.
  - unfold unload_population. simpl.
    destruct (_ <? _); [done|].
    destruct o as [q|]; simpl.
    + destruct (Z.eqb_spec q unit_owner) as [->|Hq]; simpl; [|done].
      destruct p as [z|f]; simpl; [done|].
      destruct (float_of_int amount) as [fz|]; simpl; eauto 10.
    + rewrite Z.eqb_refl. simpl.
      destruct p as [z|f]; simpl; [done|].
      destruct (float_of_int amount) as [fz|]; simpl; eauto 10.
  - simpl. intros z ->. split.
    + unfold load_population. simpl.
      destruct (negb _); [by eexists _, _, _, _|].
      destruct (z <? amount); [by eexists _, _, _, _|].
      destruct (_ <? _); [by eexists _, _, _, _|].
      eexists _, _, _, _. split_and!; [reflexivity|reflexivity|]. simpl. lia.
    + unfold unload_population. simpl.
      destruct (_ <? _); [by eexists _, _, _, _|].
      destruct o as [q|]; simpl.
      * destruct (q =? unit_owner); simpl; [|by eexists _, _, _, _].
        eexists _, _, _, _. split_and!; [reflexivity|reflexivity|]. simpl. lia.
      * rewrite Z.eqb_refl. simpl. eexists _, _, _, _.
        split_and!; [reflexivity|reflexivity|]. simpl. lia.
Qed.

(** C10 as stated fails once the population is a [float].  Loading one
    colonist from a population of 2.0**54 succeeds and leaves the
    population as it is, so a colonist appears from nowhere.  And
    unloading 25 colonists onto a population of 1000.1 (the [float]
    8796972631510221 * 2**-43) gives 4508437478532710 * 2**-42, which
    is 2**-43 less than the exact sum. *)
Lemma float_population_is_not_conserved :
  load_population 0 (mkColony 0 100) (mkPlanet (Some 0) (Float 0x1p+54)) 1
  = Returns (mkColony 1 100) (mkPlanet (Some 0) (Float 0x1p+54)) true
  /\ unload_population 0 (mkColony 25 100)
       (mkPlanet (Some 0) (Float 0x1.f40cccccccccdp+9)) 25
     = Returns (mkColony 0 100) (mkPlanet (Some 0) (Float 0x1.0046666666666p+10)) true
  /\ Prim2SF 0x1.f40cccccccccdp+9 = S754_finite false 8796972631510221 (-43)
  /\ Prim2SF 0x1.0046666666666p+10 = S754_finite false 4508437478532710 (-42)
  /\ 4508437478532710 * 2 + 1 = 8796972631510221 + 25 * 2 ^ 43.
Proof.
  split_and!; vm_compute; reflexivity.
Qed.

End ColonyTransferFacts.

(** ** Hex coordinates: distance and rounding *)

Module HexFacts.
Import HexPath.

Lemma hex_distance_formula a b :
  hex_distance a b
  = Z.max (Z.abs (a.1 - b.1))
          (Z.max (Z.abs (a.2 - b.2)) (Z.abs (a.1 + a.2 - b.1 - b.2))).
Proof.
  destruct a as [q1 r1], b as [q2 r2]. unfold hex_distance. simpl.
  symmetry. apply Z.div_unique with (r := 0); lia.
Qed.

Lemma max3_le (a b c m : Z) : Z.max a (Z.max b c) <= m <-> a <= m /\ b <= m /\ c <= m.
Proof. lia. Qed.

Lemma max3_ge (a b c : Z) :
  a <= Z.max a (Z.max b c) /\ b <= Z.max a (Z.max b c) /\ c <= Z.max a (Z.max b c).
Proof. lia. Qed.

(** X1.  [hex_distance] is a metric on hex coordinates: it is never
    negative, zero exactly between equal coordinates, symmetric, and
    satisfies the triangle inequality. *)
Theorem hex_distance_metric :
  forall a b c : HexCoord,
    0 <= hex_distance a b
    /\ (hex_distance a b = 0 <-> a = b)
    /\ hex_distance a b = hex_distance b a
    /\ hex_distance a c <= hex_distance a b + hex_distance b c.
Proof.
  intros a b c. rewrite !hex_distance_formula.
  destruct a as [q1 r1], b as [q2 r2], c as [q3 r3]. simpl.
  split_and!.
  - lia.
  - split; [intros H; f_equal; lia|intros [= -> ->]; lia].
  - replace (q2 - q1) with (- (q1 - q2)) by lia.
    replace (r2 - r1) with (- (r1 - r2)) by lia.
    replace (q2 + r2 - q1 - r1) with (- (q1 + r1 - q2 - r2)) by lia.
    by rewrite !Z.abs_opp.
  - pose proof (max3_ge (Z.abs (q1 - q2)) (Z.abs (r1 - r2)) (Z.abs (q1 + r1 - q2 - r2)))
      as (A1 & A2 & A3).
    pose proof (max3_ge (Z.abs (q2 - q3)) (Z.abs (r2 - r3)) (Z.abs (q2 + r2 - q3 - r3)))
      as (B1 & B2 & B3).
    apply max3_le.
    pose proof (Z.abs_triangle (q1 - q2) (q2 - q3)) as T1.
    pose proof (Z.abs_triangle (r1 - r2) (r2 - r3)) as T2.
    pose proof (Z.abs_triangle (q1 + r1 - q2 - r2) (q2 + r2 - q3 - r3)) as T3.
    replace (q1 - q2 + (q2 - q3)) with (q1 - q3) in T1 by lia.
    replace (r1 - r2 + (r2 - r3)) with (r1 - r3) in T2 by lia.
    replace (q1 + r1 - q2 - r2 + (q2 + r2 - q3 - r3)) with (q1 + r1 - q3 - r3) in T3 by lia.
    generalize dependent (Z.abs (q1 - q2)). generalize dependent (Z.abs (r1 - r2)).
    generalize dependent (Z.abs (q1 + r1 - q2 - r2)).
    generalize dependent (Z.abs (q2 - q3)). generalize dependent (Z.abs (r2 - r3)).
    generalize dependent (Z.abs (q2 + r2 - q3 - r3)).
    generalize dependent (Z.abs (q1 - q3)). generalize dependent (Z.abs (r1 - r3)).
    generalize dependent (Z.abs (q1 + r1 - q3 - r3)).
    intros. lia.
Qed.

(** X2.  The two implementations of the hex distance agree. *)
Theorem hex_distance_agree :
  forall q1 r1 q2 r2 : Z,
    HexGrid.hex_distance q1 r1 q2 r2 = hex_distance (q1, r1) (q2, r2).
Proof.
  intros. rewrite hex_distance_formula. unfold HexGrid.hex_distance. simpl.
  symmetry. apply Z.div_unique with (r := 0); lia.
Qed.

(** *** Rounding *)

Lemma py_round_Z (x : Q) (k : Z) : (x == inject_Z k)%Q -> py_round x = k.
Proof.
  intros H. unfold py_round.
  assert (Qfloor x = k) as ->.
  { rewrite (Qfloor_comp _ _ H). apply Qfloor_Z. }
  assert ((x - inject_Z k ?= 1 # 2)%Q = Lt) as ->; [|done].
  assert (x - inject_Z k == 0)%Q as Hx by (rewrite H; ring).
  by rewrite (Qcompare_comp _ _ Hx (1 # 2)%Q (1 # 2)%Q (Qeq_refl _)).
Qed.

Lemma Qgtb_zero (a b x y : Q) :
  (a == x)%Q -> (b == y)%Q -> Qgtb (Qabs (a - x)%Q) (Qabs (b - y)%Q) = false.
Proof.
  intros Ha Hb. unfold Qgtb.
  assert (Qabs (a - x) == 0)%Q as H1.
  { rewrite (Qabs_wd (a - x) 0); [reflexivity|]. rewrite Ha. ring. }
  assert (Qabs (b - y) == 0)%Q as H2.
  { rewrite (Qabs_wd (b - y) 0); [reflexivity|]. rewrite Hb. ring. }
  by rewrite (Qcompare_comp _ _ H1 _ _ H2).
Qed.

(** [_cube_round] on a cube whose coordinates are the integers [x],
    [y], [z] with sum zero. *)
Lemma _cube_round_Z (c0 c1 c2 : Q) (x y z : Z) :
  (c0 == inject_Z x)%Q -> (c1 == inject_Z y)%Q -> (c2 == inject_Z z)%Q ->
  x + y + z = 0 ->
  _cube_round (c0, c1, c2) = (x, y, z).
Proof.
  intros H0 H1 H2 Hs. unfold _cube_round.
  rewrite (py_round_Z c0 x H0), (py_round_Z c1 y H1), (py_round_Z c2 z H2).
  rewrite (Qgtb_zero (inject_Z x) (inject_Z y) c0 c1) by (by symmetry).
  rewrite (Qgtb_zero (inject_Z y) (inject_Z z) c1 c2) by (by symmetry).
  simpl. f_equal. lia.
Qed.

(** X3.  [_cube_round] always returns a cube coordinate, with sum zero,
    and rounding the cube of a hex gives the hex back. *)
Theorem cube_round_trip :
  (forall cube : Cube,
     let '(x, y, z) := _cube_round cube in x + y + z = 0)
  /\ (forall h : HexCoord, _cube_to_axial (_cube_round (_axial_to_cube h)) = h).
Proof.
  split.
  - intros [[c0 c1] c2]. unfold _cube_round.
    repeat case_match; simplify_eq; lia.
  - intros [q r]. unfold _axial_to_cube.
    rewrite (_cube_round_Z _ _ _ q (- q - r) r); [done|reflexivity| |reflexivity|lia].
    unfold Z.sub. rewrite inject_Z_plus, !inject_Z_opp. ring.
Qed.

(** X4.  [hex_round] gives back every hex whose coordinates it is
    handed as fractions. *)
Theorem hex_round_fixes_hexes :
  forall q r : Z, HexGrid.hex_round (inject_Z q) (inject_Z r) = (q, r).
Proof.
  intros q r. unfold HexGrid.hex_round.
  assert (- inject_Z q - inject_Z r == inject_Z (- q - r))%Q as Hs.
  { unfold Z.sub. rewrite inject_Z_plus, !inject_Z_opp. ring. }
  rewrite (py_round_Z (inject_Z q) q), (py_round_Z (inject_Z r) r) by reflexivity.
  rewrite (py_round_Z _ _ Hs).
  rewrite (Qgtb_zero (inject_Z q) (inject_Z r) (inject_Z q) (inject_Z r))
    by reflexivity.
  rewrite (Qgtb_zero (inject_Z r) (inject_Z (- q - r)) (inject_Z r)
             (- inject_Z q - inject_Z r)%Q) by (reflexivity || by symmetry).
  reflexivity.
Qed.

(** *** The waypoints of a hex jump *)

Lemma hex_eqb_eq a b : hex_eqb a b = true <-> a = b.
Proof.
  destruct a, b. unfold hex_eqb. simpl. rewrite andb_true_iff, !Z.eqb_eq.
  split; [by intros [-> ->]|by intros [= -> ->]].
Qed.

Lemma hex_distance_zero a b : hex_distance a b = 0 <-> a = b.
Proof.
  rewrite hex_distance_formula. destruct a as [q1 r1], b as [q2 r2]. simpl.
  split; [intros H; f_equal; lia|intros [= -> ->]; lia].
Qed.

(** X5.  [find_hex_jump_path] divides by [max_range]: it raises
    [ZeroDivisionError] exactly for a zero range between different
    hexes.  Otherwise it returns a list that ends with [end_hex], and
    the list is [[end_hex]] when the distance is within the range. *)
Theorem find_hex_jump_path_ends_at_end :
  forall (a b : HexCoord) (r : Z),
    (find_hex_jump_path a b r = Raise ZeroDivisionError <-> r = 0 /\ a <> b)
    /\ (r <> 0 \/ a = b ->
        exists path, find_hex_jump_path a b r = Ok path /\ last path = Some b)
    /\ (hex_distance a b <= r -> find_hex_jump_path a b r = Ok [b]).
Proof.
  intros a b r.
  assert (0 <= hex_distance a b) as Hd.
  { rewrite hex_distance_formula. lia. }
  pose proof (hex_distance_zero a b) as Hz.
  unfold find_hex_jump_path.
  destruct (Z.leb_spec (hex_distance a b) r) as [Hle|Hgt].
  { split_and!.
    - split; [discriminate|]. intros [-> Hne]. exfalso. apply Hne, Hz. lia.
    - intros _. by exists [b].
    - done. }
  destruct (Z.eqb_spec r 0) as [->|Hr].
  { split_and!.
    - split; [|done]. intros _. split; [done|]. intros E. apply Hz in E. lia.
    - intros [?|E]; [done|]. apply Hz in E. lia.
    - lia. }
  set (path := fold_left _ _ _).
  assert (exists p, match last path with
                    | Some l =>
                        if hex_eqb l b then Ok path
                        else if hex_distance l b =? 0 then Ok (set_last path b)
                        else Ok (path ++ [b])
                    | None => Ok (path ++ [b])
                    end = Ok p /\ last p = Some b) as (p & -> & Hp).
  { destruct (last path) as [l|] eqn:El.
    - destruct (hex_eqb l b) eqn:Eb.
      + apply hex_eqb_eq in Eb as ->. by exists path.
      + destruct (hex_distance l b =? 0).
        * eexists. split; [done|]. unfold set_last. apply last_snoc.
        * eexists. split; [done|]. apply last_snoc.
    - eexists. split; [done|]. apply last_snoc. }
  split_and!.
  - split; [discriminate|]. by intros [? _].
  - intros _. by exists p.
  - lia.
Qed.

Lemma waypoint_step_length sc ec n path i :
  (length (waypoint_step sc ec n path i) <= S (length path))%nat.
Proof.
  unfold waypoint_step. repeat case_match; rewrite ?length_app; simpl; lia.
Qed.

Lemma waypoints_length sc ec n idx path :
  (length (fold_left (waypoint_step sc ec n) idx path) <= length path + length idx)%nat.
Proof.
  revert path. induction idx as [|i idx IH]; intros path; simpl; [lia|].
  specialize (IH (waypoint_step sc ec n path i)).
  pose proof (waypoint_step_length sc ec n path i). lia.
Qed.

(** The last sample of the interpolation, at [t = 1], is the end. *)
Lemma waypoint_step_end a b n path :
  n <> 0 ->
  last (waypoint_step (_axial_to_cube a) (_axial_to_cube b) n path n) = Some b.
Proof.
  intros Hn. unfold waypoint_step.
  assert (_cube_to_axial
            (_cube_round
               (_cube_lerp (_axial_to_cube a) (_axial_to_cube b)
                           (inject_Z n / inject_Z n))) = b) as ->.
  { destruct a as [qa ra], b as [qb rb]. unfold _axial_to_cube, _cube_lerp.
    assert (inject_Z n / inject_Z n == 1)%Q as Ht.
    { apply Qmult_inv_r. intros E. apply Hn.
      change 0%Q with (inject_Z 0) in E. by apply (inject_Z_injective n 0). }
    rewrite (_cube_round_Z _ _ _ qb (- qb - rb) rb); [done| | | |lia].
    - rewrite Ht. ring.
    - rewrite Ht. unfold Z.sub. rewrite inject_Z_plus, !inject_Z_opp. ring.
    - rewrite Ht. ring. }
  destruct (last path) as [l|] eqn:El.
  - destruct (hex_eqb l b) eqn:Eb; [|apply last_snoc].
    apply hex_eqb_eq in Eb as ->. done.
  - apply last_snoc.
Qed.

Lemma range1_snoc n : 0 < n -> range1 n = range1 (n - 1) ++ [n].
Proof.
  intros Hn. unfold range1.
  replace (Z.to_nat n) with (S (Z.to_nat (n - 1))) by lia.
  rewrite seq_S, fmap_app. simpl. do 2 f_equal. lia.
Qed.

Lemma range1_length n : length (range1 n) = Z.to_nat n.
Proof. unfold range1. by rewrite length_fmap, length_seq. Qed.

(** X6.  For a positive range the result ends with [end_hex] and has
    at most [ceil(distance / max_range)] waypoints, a single one when
    the distance is within the range: the correction after the loop
    never adds a waypoint. *)
Theorem find_hex_jump_path_length :
  forall (a b : HexCoord) (r : Z),
    0 < r ->
    exists path,
      find_hex_jump_path a b r = Ok path
      /\ last path = Some b
      /\ Z.of_nat (length path)
         <= Z.max 1 (Qceiling (inject_Z (hex_distance a b) / inject_Z r)).
Proof.
  intros a b r Hr. unfold find_hex_jump_path.
  destruct (Z.leb_spec (hex_distance a b) r) as [Hle|Hgt].
  { exists [b]. split_and!; [done|done|simpl; lia]. }
  destruct (Z.eqb_spec r 0) as [->|_]; [lia|].
  set (n := Qceiling _).
  assert (0 < n) as Hn.
  { unfold n.
    assert (0 < inject_Z (hex_distance a b) / inject_Z r)%Q as Hpos.
    { apply Qlt_shift_div_l.
      - change 0%Q with (inject_Z 0). rewrite <- Zlt_Qlt. lia.
      - rewrite Qmult_0_l. change 0%Q with (inject_Z 0). rewrite <- Zlt_Qlt. lia. }
    pose proof (Qle_ceiling (inject_Z (hex_distance a b) / inject_Z r)) as Hc.
    assert (0 < inject_Z (Qceiling (inject_Z (hex_distance a b) / inject_Z r)))%Q as H0.
    { eapply Qlt_le_trans; [exact Hpos|exact Hc]. }
    change 0%Q with (inject_Z 0) in H0. by rewrite <- Zlt_Qlt in H0. }
  set (path := fold_left _ _ _).
  assert (last path = Some b) as Hlast.
  { unfold path. rewrite (range1_snoc n Hn), fold_left_app. simpl.
    apply waypoint_step_end. lia. }
  assert (length path <= Z.to_nat n)%nat as Hlen.
  { unfold path.
    pose proof (waypoints_length (_axial_to_cube a) (_axial_to_cube b) n (range1 n) []).
    rewrite range1_length in H. simpl in H. lia. }
  rewrite Hlast. rewrite (proj2 (hex_eqb_eq b b) eq_refl).
  exists path. split_and!; [done|done|lia].
Qed.

Lemma find_hex_jump_path_length_witness :
  exists path,
    find_hex_jump_path (0, 0) (1, 14) 2 = Ok path
    /\ last path = Some (1, 14)
    /\ Z.of_nat (length path)
       <= Z.max 1 (Qceiling (inject_Z (hex_distance (0, 0) (1, 14)) / inject_Z 2)).
Proof. apply (find_hex_jump_path_length (0, 0) (1, 14) 2). lia. Defined.

End HexFacts.

(** ** Paths between systems: every graph *)

Module InterSystemGeneral.
Import InterSystem InterSystemProof.

Lemma relax_any g s e m u :
  forall rest st,
    (forall v, v ∈ rest -> edge g u v) ->
    inv g s e m (fun x y => x = u /\ y ∈ rest) st ->
    finite st u m ->
    match relax u m rest st with
    | Ok st' => inv g s e m (fun _ _ => False) st' /\ measure st' = measure st
    | Raise KeyError => ~ closed g
    | Raise _ | OutOfFuel => False
    end.
Proof.
  intros rest. induction rest as [|v rest IH]; intros st Hedges Hinv Hu.
  - simpl. split; [|done].
    eapply inv_weaken; [|exact Hinv]. intros x y [_ Hy]. by apply elem_of_nil in Hy.
  - simpl.
    assert (edge g u v) as Huv by (apply Hedges; left).
    destruct (distances st !! v) as [d|] eqn:Hd.
    2: { intros Hcl. destruct Huv as (ns & Hns & Hin).
         pose proof (Hcl u ns v Hns Hin) as Hv.
         apply (inv_dom_d _ _ _ _ _ _ Hinv) in Hv as [d' Hd']. congruence. }
    assert (is_Some (g !! v)) as Hv.
    { apply (inv_dom_d _ _ _ _ _ _ Hinv). by eexists. }
    destruct d as [kd|]; simpl.
    + assert (kd <= S m)%nat as Hkd by (eapply inv_bound; eauto).
      replace (m + 1 <? kd)%nat with false by (symmetry; apply Nat.ltb_ge; lia).
      apply IH; [intros; apply Hedges; by right| |done].
      eapply inv_weaken; [|exact Hinv]. intros x y [-> Hy].
      apply elem_of_cons in Hy as [->|Hy]; [right; by exists kd|by left].
    + specialize (IH (discover u m v st)).
      fold (discover u m v st).
      destruct (relax u m rest (discover u m v st)) as [st'|[]|];
        (apply IH;
         [intros; apply Hedges; by right
         |by eapply discover_inv
         |apply finite_discover; right; split; [|done];
          intros ->; unfold finite in Hu; congruence]) || idtac.
      destruct IH as [Hinv' Hm].
      * intros; apply Hedges; by right.
      * by eapply discover_inv.
      * apply finite_discover. right. split; [|done].
        intros ->. unfold finite in Hu. congruence.
      * split; [done|]. rewrite Hm.
        unfold measure, unknown, discover, heappush. simpl.
        rewrite <- (unknown_insert (distances st) v (m + 1) Hd). lia.
Qed.

Lemma search_any g s e :
  forall fuel st m,
    inv g s e m (fun _ _ => False) st ->
    (measure st < fuel)%nat ->
    match search fuel g e st with
    | Ok (Some p) => walk g s p e /\ forall j, reach g s j e -> (length p <= S j)%nat
    | Ok None => forall j, ~ reach g s j e
    | Raise KeyError => ~ closed g
    | Raise _ | OutOfFuel => False
    end.
Proof.
  induction fuel as [|fuel IH]; intros st m Hinv Hfuel; [lia|].
  simpl. destruct (heappop (priority_queue st)) as [[[k u] q]|] eqn:Hpop.
  - apply heappop_spec in Hpop as [Hperm Hmin].
    assert ((k, u) ∈ priority_queue st) as Hin by (rewrite <- Hperm; left).
    destruct (inv_queue _ _ _ _ _ _ Hinv k u Hin) as [Hu Hk].
    unfold finite in Hu. rewrite Hu. simpl. rewrite Nat.ltb_irrefl.
    assert (length (priority_queue st) = S (length q)) as Hlen.
    { by rewrite <- Hperm. }
    case_bool_decide as Hue.
    + subst u.
      destruct (trace_walk _ _ _ _ _ _ Hinv k e [] (S (size (predecessors st))) Hu)
        as (p & Ht & Hw & Hl).
      { pose proof (finite_bound _ _ _ _ _ _ _ _ Hinv Hu). lia. }
      simpl in Ht. rewrite Ht. simpl. split; [done|].
      intros j Hr. rewrite length_rev, Hl.
      pose proof (inv_min _ _ _ _ _ _ Hinv e k j Hu Hr). lia.
    + destruct (proj1 (inv_dom_d _ _ _ _ _ _ Hinv u)) as [ns Hns]; [by eexists|].
      rewrite Hns. fold (with_queue st q).
      pose proof (relax_any g s e k u ns (with_queue st q)) as Hrel.
      destruct (relax u k ns (with_queue st q)) as [st'|ex|]; simpl.
      * destruct Hrel as [Hinv' Hm].
        -- intros v Hv. by exists ns.
        -- by eapply pop_inv.
        -- done.
        -- apply (IH st' k Hinv'). rewrite Hm.
           unfold measure in *. simpl. unfold unknown in *. simpl. lia.
      * assert (inv g s e k (fun x y => x = u /\ y ∈ ns) (with_queue st q)) as Hp
          by (by eapply pop_inv).
        destruct ex; apply Hrel; try done; intros v Hv; by exists ns.
      * apply Hrel; [intros v Hv; by exists ns|by eapply pop_inv|done].
  - apply heappop_None in Hpop.
    assert (forall j v, reach g s j v -> exists k, finite st v k) as Hall.
    { intros j v Hr. induction Hr as [Hs|j u v Hr [ku Hu] Huv].
      - exists 0%nat. by apply (inv_start_d _ _ _ _ _ _ Hinv).
      - destruct (inv_closed _ _ _ _ _ _ Hinv u ku v Hu) as [[]|Hv]; [|done|done].
        rewrite Hpop. apply not_elem_of_nil. }
    intros j Hr. destruct (Hall j e Hr) as [k He].
    apply (inv_end _ _ _ _ _ _ Hinv) in He. rewrite Hpop in He.
    by apply not_elem_of_nil in He.
Qed.

(** X7.  On every graph [find_intersystem_path] comes to an end, and
    what it returns is right: a returned path is a walk from the start
    to the end with the fewest nodes, and [None] means that there is no
    walk.  The only exception it raises is [KeyError], and only on a
    graph that lists a neighbour which is not a key. *)
Theorem find_intersystem_path_sound :
  forall (g : Graph) (s e : string),
    match find_intersystem_path g s e with
    | Ok (Some p) =>
        walk g s p e /\ forall p', walk g s p' e -> (length p <= length p')%nat
    | Ok None => forall p', ~ walk g s p' e
    | Raise KeyError => ~ closed g
    | Raise _ | OutOfFuel => False
    end.
Proof.
  intros g s e. unfold find_intersystem_path.
  destruct (decide (is_Some (g !! s))) as [Hs|Hs].
  2: { rewrite (bool_decide_false _ Hs). simpl. intros p' Hw.
       by apply walk_start in Hw. }
  destruct (decide (is_Some (g !! e))) as [He|He].
  2: { rewrite (bool_decide_true _ Hs), (bool_decide_false _ He). simpl.
       intros p' Hw. by apply walk_end in Hw. }
  rewrite (bool_decide_true _ Hs), (bool_decide_true _ He). cbn [negb orb].
  case_bool_decide as Hse.
  - subst e. split; [by apply walk_one|].
    intros p' Hw. apply walk_length in Hw. simpl. lia.
  - pose proof (search_any g s e (S (size g)) (initial g s) 0%nat
                  (initial_inv g s e Hs Hse)) as H.
    pose proof (initial_measure g s Hs) as Hm.
    specialize (H ltac:(lia)). fold (initial g s).
    destruct (search (S (size g)) g e (initial g s)) as [[p|]|ex|]; [| |exact H|done].
    + destruct H as [Hw Hmin]. split; [done|].
      intros p' Hw'. pose proof (walk_length _ _ _ _ Hw').
      pose proof (walk_reach _ _ _ _ Hw' s 0%nat (reach_O g s Hs)) as Hr.
      specialize (Hmin _ Hr). simpl in Hmin. lia.
    + intros p' Hw'.
      pose proof (walk_reach _ _ _ _ Hw' s 0%nat (reach_O g s Hs)) as Hr.
      by apply H in Hr.
Qed.

End InterSystemGeneral.

(** ** Distances, circles and steps *)

Module GeometryMore.
Import Geometry GeometryFacts.
Local Open Scope R_scope.









(** *** Unit vectors *)

Lemma magnitude_nonneg v : 0 <= magnitude v.
Proof. apply sqrt_pos. Qed.






(** *** Circles *)






(** *** Steps *)




End GeometryMore.

(** ** Components: hyperdrive, colony, population *)

Module ComponentFacts.
Import Geometry GeometryFacts Entities Components.

(** *** The recharge countdown *)

Lemma update_recharge_step hd :
  jump_status hd = CHARGING ->
  (2 <= recharge_time_remaining hd ->
   update_recharge hd
   = set_recharge_time_remaining hd (recharge_time_remaining hd - 1))
  /\ (recharge_time_remaining hd = 1 ->
      update_recharge hd = set_recharge_time_remaining (set_jump_status
        (set_recharge_time_remaining hd 0) READY) 0)
  /\ (recharge_time_remaining hd <= 0 -> update_recharge hd = hd).
Proof.
  intros Hc. unfold update_recharge. rewrite Hc. simpl. split_and!; intros H.
  - destruct (Z.ltb_spec 0 (recharge_time_remaining hd)); [|lia]. simpl.
    destruct (Z.leb_spec (recharge_time_remaining hd - 1) 0); [lia|done].
  - rewrite H. reflexivity.
  - destruct (Z.ltb_spec 0 (recharge_time_remaining hd)); [lia|done].
Qed.

Lemma countdown hd (k : nat) :
  jump_status hd = CHARGING ->
  Z.of_nat k < recharge_time_remaining hd ->
  Nat.iter k update_recharge hd
  = set_recharge_time_remaining hd (recharge_time_remaining hd - Z.of_nat k).
Proof.
  intros Hc. induction k as [|k IH]; intros Hk.
  - simpl. rewrite Z.sub_0_r. by destruct hd.
  - simpl. rewrite IH by lia.
    destruct (update_recharge_step
                (set_recharge_time_remaining hd (recharge_time_remaining hd - Z.of_nat k)))
      as (H2 & _ & _); [done|].
    rewrite H2 by (simpl; lia). simpl. unfold set_recharge_time_remaining. simpl.
    f_equal. lia.
Qed.

(** X14.  The countdown that [start_recharge] starts.  With a positive
    RECHARGE_DURATION [d] the drive is CHARGING with [d - k] turns left
    after [k < d] calls of [update_recharge], and READY with no turn
    left after [d] calls; a drive that is READY stays as it is.  With a
    RECHARGE_DURATION that is not positive the drive stays CHARGING
    whatever the number of calls. *)
Theorem recharge_countdown :
  forall hd : Hyperdrive,
    let d := RECHARGE_DURATION hd in
    let run (k : nat) := Nat.iter k update_recharge (start_recharge hd) in
    (0 < d ->
     (forall k : nat, Z.of_nat k < d ->
        jump_status (run k) = CHARGING
        /\ recharge_time_remaining (run k) = d - Z.of_nat k)
     /\ (forall k : nat, d <= Z.of_nat k ->
        jump_status (run k) = READY /\ recharge_time_remaining (run k) = 0))
    /\ (d <= 0 -> forall k : nat, run k = start_recharge hd).
Proof.
  intros hd. cbv zeta. split.
  - intros Hd.
    assert (forall k : nat, Z.of_nat k < RECHARGE_DURATION hd ->
              Nat.iter k update_recharge (start_recharge hd)
              = set_recharge_time_remaining (start_recharge hd)
                  (RECHARGE_DURATION hd - Z.of_nat k)) as Hrun.
    { intros k Hk. by rewrite countdown. }
    split.
    + intros k Hk. by rewrite Hrun.
    + assert (exists n : nat, RECHARGE_DURATION hd = Z.of_nat (S n)) as [n Hn].
      { exists (Z.to_nat (RECHARGE_DURATION hd - 1)). lia. }
      assert (jump_status (Nat.iter (S n) update_recharge (start_recharge hd)) = READY
              /\ recharge_time_remaining
                   (Nat.iter (S n) update_recharge (start_recharge hd)) = 0) as Hready.
      { simpl. rewrite Hrun by lia.
        destruct (update_recharge_step
                    (set_recharge_time_remaining (start_recharge hd)
                       (RECHARGE_DURATION hd - Z.of_nat n))) as (_ & H1 & _); [done|].
        rewrite H1 by (simpl; lia). done. }
      intros k Hk. assert (exists j : nat, k = (j + S n)%nat) as [j ->].
      { exists (k - S n)%nat. lia. }
      clear Hk. induction j as [|j IH]; [exact Hready|].
      simpl. destruct IH as [IH1 IH2]. unfold update_recharge at 1 3.
      simpl in IH1. rewrite IH1. done.
  - intros Hd k. induction k as [|k IH]; [done|]. simpl. rewrite IH.
    destruct (update_recharge_step (start_recharge hd)) as (_ & _ & H0); [done|].
    by apply H0.
Qed.

(** *** Colonists *)

Local Open Scope R_scope.



(** X16.  For an amount that is not negative, loading and unloading
    keep the cargo between zero and [max_cargo] and the population of
    the planet non-negative. *)
Theorem colony_transfer_bounds :
  forall (unit_owner : Z) (c : ColonyComponent) (planet : Planet) (amount : Z),
    (0 <= amount)%Z ->
    (0 <= population_cargo c <= max_cargo c)%Z ->
    0 <= population planet ->
    (forall c' planet' ok,
       load_population unit_owner c planet amount = (c', planet', ok) ->
       (0 <= population_cargo c' <= max_cargo c')%Z /\ 0 <= population planet')
    /\ (forall c' planet' ok,
       unload_population unit_owner c planet amount = (c', planet', ok) ->
       (0 <= population_cargo c' <= max_cargo c')%Z /\ 0 <= population planet').
Proof.
  intros o c planet a Ha Hc Hp. split; intros c' planet' ok.
  - unfold load_population.
    destruct (negb _); [by intros [= <- <- <-]|].
    destruct (Rltb (population planet) (IZR a)) eqn:El; [by intros [= <- <- <-]|].
    destruct (Z.ltb_spec (max_cargo c) (population_cargo c + a));
      [by intros [= <- <- <-]|].
    intros [= <- <- <-]. simpl. apply Rltb_false in El. split; [lia|lra].
  - unfold unload_population.
    destruct (Z.ltb_spec (population_cargo c) a); [by intros [= <- <- <-]|].
    assert (0 <= IZR a) as Ha' by (by apply IZR_le).
    destruct (body_owner planet) as [q|]; simpl.
    + destruct (negb _); intros [= <- <- <-]; simpl; split; try lia; lra.
    + rewrite Z.eqb_refl. simpl. intros [= <- <- <-]. simpl. split; [lia|lra].
Qed.

Lemma colony_transfer_bounds_witness :
  (0 <= population_cargo (mkColony 50 100) <= max_cargo (mkColony 50 100))%Z
  /\ 0 <= population (set_population ColonyFacts.home (Some 0%Z) (100 - 50)).
Proof.
  apply (proj1 (colony_transfer_bounds 0 (mkColony 0 100) ColonyFacts.home 50
                  ltac:(lia) ltac:(simpl; lia) ltac:(simpl; lra))
           _ _ true ColonyFacts.load_from_home).
Defined.

(** *** Population growth *)

(** X17.  [update_population] leaves a body without owner as it is,
    never changes the owner, and never lets a population that is within
    [max_population] grow beyond it; with a growth rate that is not
    negative a non-negative population does not shrink, and an empty
    colony stays empty. *)
Theorem update_population_bounds :
  forall planet : Planet,
    body_owner (update_population planet) = body_owner planet
    /\ (body_owner planet = None -> update_population planet = planet)
    /\ (population planet <= max_population planet ->
        population (update_population planet) <= max_population planet)
    /\ (0 <= population planet -> 0 <= population_growth_rate planet ->
        population planet <= population (update_population planet))
    /\ (population planet = 0 -> population (update_population planet) = 0).
Proof.
  intros planet. unfold update_population.
  destruct (body_owner planet) as [q|] eqn:Eq; [|by split_and!].
  destruct (Rltb (population planet) (max_population planet)) eqn:E1.
  2: { split_and!; try done; lra. }
  destruct (Rltb (max_population planet)
              (population planet + population planet * population_growth_rate planet))
    eqn:E2; simpl.
  - apply Rltb_true in E1, E2. split_and!; try done; intros; try lra; nra.
  - apply Rltb_true in E1. apply Rltb_false in E2.
    split_and!; try done; intros; try lra; nra.
Qed.

End ComponentFacts.

(** ** Order trees and the commander's bookkeeping *)

Module TreeFacts.
Import Geometry Entities Components Game Orders CommanderComponent.
Import OrderFacts CommanderFacts.

(** Induction on order trees. *)
Fixpoint Order_tree_ind (P : Order -> Prop)
    (H : forall i t p st subs, Forall P subs -> P (mkOrder i t p st subs))
    (o : Order) : P o :=
  match o with
  | mkOrder i t p st subs =>
      H i t p st subs
        ((fix go (l : list Order) : Forall P l :=
            match l with
            | [] => List.Forall_nil P
            | s :: r => @List.Forall_cons _ P s r (Order_tree_ind P H s) (go r)
            end) subs)
  end.

Lemma in_tree_inv node o :
  in_tree node o <-> node = o \/ exists s, s ∈ sub_orders o /\ in_tree node s.
Proof.
  split.
  - destruct 1 as [|node s o Hs Hn]; [by left|right; eauto].
  - intros [->|(s & Hs & Hn)]; [constructor|by econstructor].
Qed.

(** X18.  [Order.cancel] cancels the whole tree: afterwards every order
    of the tree is CANCELLED, so the order is not completed and has no
    active sub-order; the tree keeps its shape and its ids, and
    cancelling again changes nothing. *)
Theorem cancel_whole_tree :
  forall o : Order,
    (forall node, in_tree node (cancel o) -> status node = CANCELLED)
    /\ cancel (cancel o) = cancel o
    /\ order_id (cancel o) = order_id o
    /\ order_id <$> sub_orders (cancel o) = order_id <$> sub_orders o
    /\ is_completed (cancel o) = false
    /\ has_active_sub_orders (cancel o) = false.
Proof.
  induction o as [i t p st subs IH] using Order_tree_ind.
  simpl. split_and!; try done.
  - intros node Hn. apply in_tree_inv in Hn as [->|(s & Hs & Hn)]; [done|].
    simpl in Hs. apply list_elem_of_In, in_map_iff in Hs as (s0 & <- & Hs0).
    rewrite Forall_forall in IH. apply list_elem_of_In in Hs0.
    by apply (IH s0 Hs0).
  - f_equal. rewrite map_map. apply map_ext_Forall.
    eapply Forall_impl; [exact IH|]. by intros s (_ & ? & _).
  - induction IH as [|s r (_ & _ & Hs & _) _ IHr]; [done|].
    simpl. f_equal; [done|]. exact IHr.
  - induction IH as [|s r (_ & _ & _ & _ & _ & Hs) _ IHr]; [done|].
    simpl. rewrite Hs, IHr. by destruct s.
Qed.

Lemma active_status st :
  OrderStatus_eqb st IN_PROGRESS || OrderStatus_eqb st PENDING = true
  <-> st = IN_PROGRESS \/ st = PENDING.
Proof. destruct st; simpl; split; intros H; try done; (by left) || (by right) || (by destruct H). Qed.

(** X19.  [is_completed] holds exactly when every order of the tree is
    COMPLETED, and [has_active_sub_orders] exactly when some order
    strictly below the root is IN_PROGRESS or PENDING. *)
Theorem order_tree_status :
  forall o : Order,
    (is_completed o = true
     <-> forall node, in_tree node o -> status node = COMPLETED)
    /\ (has_active_sub_orders o = true
        <-> exists s node, s ∈ sub_orders o /\ in_tree node s
                           /\ (status node = IN_PROGRESS \/ status node = PENDING)).
Proof.
  induction o as [i t p st subs IH] using Order_tree_ind.
  rewrite Forall_forall in IH. split.
  - simpl. rewrite andb_true_iff, forallb_forall, OrderStatus_eqb_eq. split.
    + intros [-> Hs] node Hn. apply in_tree_inv in Hn as [->|(s & Hin & Hn)]; [done|].
      simpl in Hin. apply (proj1 (proj1 (IH s Hin))); [|done].
      apply Hs. by apply list_elem_of_In.
    + intros H. split; [apply (H _ (in_tree_root _))|].
      intros s Hin. apply list_elem_of_In in Hin. apply (proj1 (IH s Hin)).
      intros node Hn. apply H. by eapply in_tree_sub.
  - simpl. rewrite existsb_exists. split.
    + intros (s & Hin & Hs). apply list_elem_of_In in Hin.
      apply orb_true_iff in Hs as [Hs|Hs].
      * exists s, s. split_and!; [done|constructor|]. destruct s. by apply active_status.
      * apply (proj2 (IH s Hin)) in Hs as (s' & node & Hs' & Hn & Hst).
        exists s, node. split_and!; [done| |done]. by eapply in_tree_sub.
    + intros (s & node & Hin & Hn & Hst). exists s. split; [by apply list_elem_of_In|].
      apply orb_true_iff. apply in_tree_inv in Hn as [->|(s' & Hs' & Hn)].
      * left. destruct s. by apply active_status.
      * right. apply (proj2 (IH s Hin)). eauto.
Qed.

(** *** Sub-order ids *)

Lemma make_orders_spec specs c :
  (make_orders specs c).2 = c + Z.of_nat (length specs)
  /\ order_id <$> (make_orders specs c).1 = (fun k => c + Z.of_nat k) <$> seq 0 (length specs)
  /\ (fun o => (order_type o, parameters o)) <$> (make_orders specs c).1 = specs.
Proof.
  revert c. induction specs as [|[t p] rest IH]; intros c; simpl.
  - split_and!; try done. lia.
  - destruct (make_orders rest (c + 1)) as [os c'] eqn:E.
    destruct (IH (c + 1)) as (H1 & H2 & H3). rewrite E in H1, H2, H3. simpl in *.
    split_and!.
    + lia.
    + f_equal; [lia|]. change (list_fmap Order Z order_id os) with (order_id <$> os).
      rewrite H2, <- seq_shift. change (list_fmap nat Z ?f ?l) with (List.map f l).
      rewrite map_map. apply map_ext. intros k. lia.
    + f_equal. exact H3.
Qed.

(** X20.  [add_sub_order] on orders made by [Order(...)]: the new
    sub-orders go behind the ones the order has, in the order asked
    for, each PENDING and without sub-orders; their ids are the next
    values of the counter, so they differ from each other and lie at or
    above the old counter and below the new one. *)
Theorem add_sub_orders_ids :
  forall (o : Order) (specs : list OrderSpec) (w : World),
    let o' := (add_sub_orders o specs w).1 in
    let w' := (add_sub_orders o specs w).2 in
    exists new,
      sub_orders o' = sub_orders o ++ new
      /\ (fun s => (order_type s, parameters s)) <$> new = specs
      /\ Forall fresh new
      /\ order_counter w' = order_counter w + Z.of_nat (length specs)
      /\ NoDup (order_id <$> new)
      /\ (forall s, s ∈ new -> order_counter w <= order_id s < order_counter w')
      /\ status o' = status o /\ order_id o' = order_id o.
Proof.
  intros o specs w. unfold add_sub_orders.
  destruct (make_orders_spec specs (order_counter w)) as (H1 & H2 & H3).
  pose proof (make_orders_fresh specs (order_counter w)) as Hf.
  destruct (make_orders specs (order_counter w)) as [os c]. simpl in *.
  exists os. split_and!; try done.
  - rewrite H2. apply NoDup_fmap_2; [intros a b; lia|apply NoDup_seq].
  - intros s Hs. assert (order_id s ∈ order_id <$> os) as Hi by (by apply list_elem_of_fmap_2).
    rewrite H2 in Hi. apply list_elem_of_fmap in Hi as (k & -> & Hk).
    apply list_elem_of_In, in_seq in Hk. lia.
Qed.

End TreeFacts.

(** ** What the commander and its orders do to the unit *)

Module CommanderMore.
Import Geometry Entities Components Game Orders CommanderComponent Turn.
Import OrderFacts CommanderFacts DriveFacts Samples.

(** The unit and its surroundings as orders leave them: the unit keeps
    its identity, its place and its hit points, and the other units and
    the object counter are not touched. *)
Definition unmoved (w w' : World) : Prop :=
  id (unit w') = id (unit w)
  /\ owner (unit w') = owner (unit w)
  /\ in_galaxy (unit w') = in_galaxy (unit w)
  /\ in_system (unit w') = in_system (unit w)
  /\ in_hex (unit w') = in_hex (unit w)
  /\ position (unit w') = position (unit w)
  /\ current_hit_points (unit w') = current_hit_points (unit w)
  /\ other_units w' = other_units w
  /\ object_counter w' = object_counter w.

Lemma unmoved_refl w : unmoved w w.
Proof. by unfold unmoved. Qed.

Lemma unmoved_trans w1 w2 w3 : unmoved w1 w2 -> unmoved w2 w3 -> unmoved w1 w3.
Proof. unfold unmoved. intros H1 H2. split_and!; etrans; try apply H2; apply H1. Qed.

Ltac unmoved_tac :=
  repeat (first [ progress inv_bind | case_match; try discriminate ]);
  by unfold unmoved.

Lemma execute_body_unmoved o w w' st specs :
  execute_body o w = Ok (w', st, specs) -> unmoved w w'.
Proof.
  unfold execute_body. intros H. destruct (order_type o).
  - apply bind_Ok in H as ([w1 st1] & H1 & H). injection H as <- _ _.
    unfold _execute_reach_waypoint in H1. unmoved_tac.
  - apply bind_Ok in H as ([[st1 specs1] d] & _ & H). injection H as <- _ _. done.
  - injection H as <- _ _. done.
  - unfold _execute_attack in H. unmoved_tac.
  - injection H as <- _ _. done.
  - apply bind_Ok in H as ([w1 st1] & H1 & H). injection H as <- _ _.
    unfold _execute_toggle_inhibitor in H1. unmoved_tac.
  - unfold _execute_colonize in H. unmoved_tac.
  - unfold _execute_load_colonists in H. unmoved_tac.
  - apply bind_Ok in H as ([w1 st1] & H1 & H). injection H as <- _ _.
    unfold _execute_construct in H1. unmoved_tac.
Qed.

Lemma check_completion_conditions_unmoved o w o' w' :
  check_completion_conditions o w = Ok (o', w') -> unmoved w w'.
Proof. unfold check_completion_conditions. intros H. unmoved_tac. Qed.

Lemma execute_unmoved o w o' w' : execute o w = Ok (o', w') -> unmoved w w'.
Proof.
  apply (execute_preserves (fun w' => unmoved w w')).
  - intros ? ? ? ? ? HP Hb. eapply unmoved_trans; [exact HP|].
    by eapply execute_body_unmoved.
  - done.
  - apply unmoved_refl.
Qed.

Lemma update_unmoved depth o w o' w' :
  Orders.update depth o w = Ok (o', w') -> unmoved w w'.
Proof.
  apply (update_preserves (fun w' => unmoved w w')).
  - intros ? ? ? ? ? HP Hb. eapply unmoved_trans; [exact HP|].
    by eapply execute_body_unmoved.
  - intros ? ? ? ? HP Hb. eapply unmoved_trans; [exact HP|].
    by eapply check_completion_conditions_unmoved.
  - done.
  - apply unmoved_refl.
Qed.

Lemma start_next_order_unmoved depth c w c' w' :
  start_next_order depth c w = Ok (c', w') -> unmoved w w'.
Proof.
  unfold start_next_order. intros H.
  destruct (current_order c); [by inv_bind|].
  destruct (orders_queue c) as [|next rest]; [by inv_bind|].
  destruct (in_galaxy (unit w)); [|by inv_bind].
  apply bind_Ok in H as ([o1 w1] & H1 & H).
  apply bind_Ok in H as ([o2 w2] & H2 & H). injection H as <- <-.
  apply execute_unmoved in H1. eapply unmoved_trans; [exact H1|].
  destruct (OrderStatus_eqb (status o1) IN_PROGRESS).
  - by eapply update_unmoved.
  - by injection H2 as <- <-.
Qed.

Lemma commander_update_unmoved depth c w c' w' :
  CommanderComponent.update depth c w = Ok (c', w') -> unmoved w w'.
Proof.
  unfold CommanderComponent.update. intros H.
  apply bind_Ok in H as ([c1 w1] & H1 & H).
  assert (unmoved w w1) as U1.
  { destruct (current_order c); [by injection H1 as <- <-|].
    by eapply start_next_order_unmoved. }
  eapply unmoved_trans; [exact U1|].
  destruct (current_order c1) as [cur|]; [|by injection H as <- <-].
  apply bind_Ok in H as ([cur1 w2] & H2 & H).
  assert (unmoved w1 w2) as U2.
  { destruct (in_galaxy (unit w1)); [by eapply update_unmoved|by injection H2 as <- <-]. }
  eapply unmoved_trans; [exact U2|].
  destruct (_ || _); [by eapply start_next_order_unmoved|by injection H as <- <-].
Qed.

(** The status and the countdown of the drive, which [steers] keeps. *)
Definition drive_clock (u : Unit) : option (JumpStatus * Z) :=
  (fun hd => (jump_status hd, recharge_time_remaining hd)) <$> hyperdrive_component u.

Lemma steers_clock u u' : steers u u' -> drive_clock u' = drive_clock u.
Proof.
  intros (_ & _ & H). unfold drive_clock.
  destruct (hyperdrive_component u), (hyperdrive_component u'); try done.
  destruct H as (H1 & H2 & _). simpl. by rewrite H1, H2.
Qed.

(** X21.  Neither an order nor the commander moves the unit.  Whatever
    [Order.execute], [Order.update] and the commander's [add_order],
    [cancel_order], [clear_orders] and [update] do, the unit keeps its
    id, owner, system, hex, position and hit points, the other units
    and the object counter are untouched, and the hyperdrive keeps its
    status and its recharge countdown: orders only set targets. *)
Theorem orders_never_move_the_unit :
  forall (depth : nat) (w : World),
    (forall o o' w', execute o w = Ok (o', w') ->
       unmoved w w' /\ drive_clock (unit w') = drive_clock (unit w))
    /\ (forall o o' w', Orders.update depth o w = Ok (o', w') ->
       unmoved w w' /\ drive_clock (unit w') = drive_clock (unit w))
    /\ (forall c order c' w', add_order depth c order w = Ok (c', w') ->
       unmoved w w' /\ drive_clock (unit w') = drive_clock (unit w))
    /\ (forall c i c' w' b, cancel_order depth c i w = Ok (c', w', b) ->
       unmoved w w' /\ drive_clock (unit w') = drive_clock (unit w))
    /\ (forall c,
       unmoved w (clear_orders c w).2
       /\ drive_clock (unit (clear_orders c w).2) = drive_clock (unit w))
    /\ (forall c c' w', CommanderComponent.update depth c w = Ok (c', w') ->
       unmoved w w' /\ drive_clock (unit w') = drive_clock (unit w)).
Proof.
  intros depth w. split_and!.
  - intros o o' w' H. split; [by eapply execute_unmoved|].
    apply steers_clock. by eapply execute_steers.
  - intros o o' w' H. split; [by eapply update_unmoved|].
    apply steers_clock. by eapply update_steers.
  - intros c order c' w' H. split; [|apply steers_clock; by eapply add_order_steers].
    unfold add_order in H. simpl in H.
    destruct (current_order c); [by injection H as <- <-|].
    by eapply start_next_order_unmoved.
  - intros c i c' w' b H. split; [|apply steers_clock; by eapply cancel_order_steers].
    unfold cancel_order in H.
    destruct (current_order c) as [cur|].
    + destruct (order_id cur =? i).
      * apply bind_Ok in H as ([c1 w1] & H1 & H). injection H as <- <- <-.
        by eapply start_next_order_unmoved.
      * destruct (remove_by_id i (orders_queue c)); by injection H as <- <- <-.
    + destruct (remove_by_id i (orders_queue c)); by injection H as <- <- <-.
  - intros c. split; [|apply steers_clock, clear_orders_steers].
    unfold clear_orders, unmoved. simpl. done.
  - intros c c' w' H. split; [by eapply commander_update_unmoved|].
    apply steers_clock. by eapply commander_update_steers.
Qed.

(** *** The queue of the commander *)

(** The ids of the orders the commander holds: the current order, then
    the queue. *)
Definition held_ids (c : Commander) : list Z :=
  order_id <$> (option_list (current_order c) ++ orders_queue c).

Lemma get_active_orders_count_held c :
  get_active_orders_count c = Z.of_nat (length (held_ids c)).
Proof.
  unfold get_active_orders_count, held_ids.
  rewrite length_fmap, length_app. destruct (current_order c); simpl; lia.
Qed.

Lemma start_next_order_held depth c w c' w' :
  start_next_order depth c w = Ok (c', w') -> held_ids c' = held_ids c.
Proof.
  intros H. apply start_next_order_spec in H
    as [(-> & _)|(next & rest & o' & Hc & Hq & -> & (Hid & _) & _)]; [done|].
  unfold held_ids. rewrite Hc, Hq. simpl. by rewrite Hid.
Qed.

(** X22.  The commander serves its orders first in, first out.
    [add_order] puts the id of the new order behind the ids it holds;
    [update] keeps the ids or drops the first one, that of the current
    order, and never reorders them; [clear_orders] drops them all.
    [get_active_orders_count] is the number of ids held, so it grows by
    one with [add_order] and shrinks by at most one with [update]. *)
Theorem commander_serves_first_in_first_out :
  forall (depth : nat) (c : Commander) (w : World),
    get_active_orders_count c = Z.of_nat (length (held_ids c))
    /\ (forall order c' w', add_order depth c order w = Ok (c', w') ->
          held_ids c' = held_ids c ++ [order_id order]
          /\ get_active_orders_count c' = get_active_orders_count c + 1)
    /\ (forall c' w', CommanderComponent.update depth c w = Ok (c', w') ->
          (held_ids c' = held_ids c \/ held_ids c' = tail (held_ids c))
          /\ get_active_orders_count c - 1 <= get_active_orders_count c'
             <= get_active_orders_count c)
    /\ held_ids (clear_orders c w).1 = []
    /\ get_active_orders_count (clear_orders c w).1 = 0.
Proof.
  intros depth c w. split_and!; try done.
  - apply get_active_orders_count_held.
  - intros order c' w' H.
    assert (held_ids c' = held_ids c ++ [order_id order]) as Hh.
    { unfold add_order in H. simpl in H.
      destruct (current_order c) as [cur|] eqn:Ec.
      - injection H as <- <-. unfold held_ids. simpl. rewrite Ec. simpl.
        by rewrite fmap_app.
      - apply start_next_order_held in H. rewrite H. unfold held_ids. simpl.
        rewrite Ec. simpl. by rewrite fmap_app. }
    split; [done|]. rewrite !get_active_orders_count_held, Hh, length_app. simpl. lia.
  - intros c' w' H.
    assert (held_ids c' = held_ids c \/ held_ids c' = tail (held_ids c)) as Hh.
    { unfold CommanderComponent.update in H.
      apply bind_Ok in H as ([c1 w1] & H1 & H).
      assert (held_ids c1 = held_ids c) as <-.
      { destruct (current_order c); [by injection H1 as <- <-|].
        by eapply start_next_order_held. }
      destruct (current_order c1) as [cur|] eqn:Ec1; [|left; by injection H as <- <-].
      apply bind_Ok in H as ([cur1 w2] & H2 & H).
      assert (order_id cur1 = order_id cur) as Hid.
      { destruct (in_galaxy (unit w1)).
        - apply update_same_order in H2. apply H2.
        - injection H2 as <- <-. by destruct (OrderStatus_eqb _ _). }
      destruct (_ || _).
      - right. apply start_next_order_held in H. rewrite H.
        unfold held_ids. rewrite Ec1. done.
      - left. injection H as <- <-. unfold held_ids. rewrite Ec1. simpl. by rewrite Hid. }
    split; [done|]. rewrite !get_active_orders_count_held.
    destruct Hh as [->| ->]; [lia|]. destruct (held_ids c); simpl; lia.
Qed.

Lemma remove_by_id_held i q :
  match remove_by_id i q with
  | Some q' => i ∈ order_id <$> q /\ order_id <$> q' = remove_first i (order_id <$> q)
  | None => i ∉ order_id <$> q
  end.
Proof.
  induction q as [|o rest IH]; simpl.
  - apply not_elem_of_nil.
  - destruct (Z.eqb_spec (order_id o) i) as [->|Hne].
    + split; [apply elem_of_cons; by left|done].
    + destruct (remove_by_id i rest) as [q'|]; simpl.
      * destruct IH as [Hin Hq]. split; [apply elem_of_cons; by right|by f_equal].
      * intros [?|?]%elem_of_cons; [by apply Hne|done].
Qed.

(** X23.  [cancel_order] answers [True] exactly when the commander
    holds an order with the id; it then drops the first such order and
    keeps the others in their order, so the count of active orders goes
    down by one.  When it answers [False] the commander and the world
    are as they were. *)
Theorem cancel_order_drops_one :
  forall (depth : nat) (c : Commander) (i : Z) (w : World) c' w' (b : bool),
    cancel_order depth c i w = Ok (c', w', b) ->
    (b = true <-> i ∈ held_ids c)
    /\ (b = false -> c' = c /\ w' = w)
    /\ (b = true ->
        held_ids c' = remove_first i (held_ids c)
        /\ get_active_orders_count c' = get_active_orders_count c - 1).
Proof.
  intros depth c i w c' w' b H.
  assert ((b = true <-> i ∈ held_ids c)
          /\ (b = false -> c' = c /\ w' = w)
          /\ (b = true -> held_ids c' = remove_first i (held_ids c))) as (H1 & H2 & H3).
  { unfold cancel_order in H. pose proof (remove_by_id_held i (orders_queue c)) as Hq.
    unfold held_ids.
    destruct (current_order c) as [cur|] eqn:Ec.
    - destruct (Z.eqb_spec (order_id cur) i) as [Heq|Hne].
      + apply bind_Ok in H as ([c1 w1] & Hs & H). injection H as <- <- <-.
        apply start_next_order_held in Hs. split_and!.
        * split; [intros _; apply elem_of_cons; by left|done].
        * done.
        * intros _. fold (held_ids c1). rewrite Hs. unfold held_ids. simpl.
          destruct (Z.eqb_spec (order_id cur) i); done.
      + destruct (remove_by_id i (orders_queue c)) as [q|]; injection H as <- <- <-.
        * destruct Hq as [Hin Hq]. split_and!.
          -- split; [intros _; apply elem_of_cons; by right|done].
          -- done.
          -- intros _. simpl.
             destruct (Z.eqb_spec (order_id cur) i); [done|]. f_equal. exact Hq.
        * split_and!.
          -- split; [done|]. intros [?|?]%elem_of_cons; [by destruct Hne|done].
          -- done.
          -- done.
    - destruct (remove_by_id i (orders_queue c)) as [q|]; injection H as <- <- <-.
      + destruct Hq as [Hin Hq]. split_and!; [done|done|].
        intros _. simpl. exact Hq.
      + split_and!; done. }
  split_and!; try done. intros Hb. split; [by apply H3|].
  rewrite !get_active_orders_count_held, (H3 Hb).
  apply H1 in Hb. clear -Hb. induction (held_ids c) as [|k l IH]; simpl.
  - by apply not_elem_of_nil in Hb.
  - destruct (Z.eqb_spec k i); [lia|]. simpl.
    apply elem_of_cons in Hb as [?|Hb]; [done|]. specialize (IH Hb).
    destruct l; [by apply not_elem_of_nil in Hb|]. simpl in *. lia.
Qed.

Lemma cancel_order_drops_one_witness :
  held_ids (mkCommander (Some failed_toggle) [])
  = remove_first 1 (held_ids waiting_commander)
  /\ get_active_orders_count (mkCommander (Some failed_toggle) [])
     = get_active_orders_count waiting_commander - 1.
Proof.
  apply (proj2 (proj2 (cancel_order_drops_one 3 waiting_commander 1 two_system_world
                         _ _ true eq_refl)) eq_refl).
Defined.

End CommanderMore.

(** ** Where units are listed *)

Module ListingFacts.
Import Geometry Entities Components Game Orders CommanderComponent Turn.
Import OrderFacts Samples.

(** The hex [h] of the system [name], when both exist. *)
Definition hex_at (g : Galaxy) (name : string) (h : HexCoord) : option Hex :=
  systems g !! name ≫= fun s => hexes s !! h.

Lemma hex_at_store_hex g name h x name' h' :
  is_Some (systems g !! name) ->
  hex_at (store_hex g name h x) name' h'
  = if bool_decide (name' = name /\ h' = h) then Some x else hex_at g name' h'.
Proof.
  intros [s Hs]. unfold hex_at, store_hex. rewrite Hs. simpl.
  destruct (decide (name' = name)) as [->|Hn].
  - rewrite lookup_insert_eq, Hs. simpl.
    destruct (decide (h' = h)) as [->|Hh].
    + rewrite lookup_insert_eq. by rewrite bool_decide_eq_true_2.
    + rewrite lookup_insert_ne by done. rewrite bool_decide_eq_false_2; [done|].
      by intros [_ ?].
  - rewrite lookup_insert_ne by done. rewrite bool_decide_eq_false_2; [done|].
    by intros [? _].
Qed.

Lemma store_hex_same g name h x :
  hex_at g name h = Some x -> store_hex g name h x = g.
Proof.
  unfold hex_at, store_hex. destruct (systems g !! name) as [s|] eqn:Hs; [|done].
  simpl. intros Hh. destruct g as [ss ws gr bs]. simpl in *. f_equal.
  rewrite insert_id; [done|]. rewrite Hs. f_equal. destruct s as [hs]. simpl in *.
  f_equal. symmetry. by apply insert_id.
Qed.

Lemma store_hex_twice g name h x y :
  store_hex (store_hex g name h x) name h y = store_hex g name h y.
Proof.
  unfold store_hex at 2 3. destruct (systems g !! name) as [s|] eqn:Hs.
  - unfold store_hex. simpl. rewrite lookup_insert_eq. simpl.
    by rewrite !insert_insert_eq.
  - unfold store_hex. by rewrite Hs.
Qed.

Lemma remove_first_last k l : k ∉ l -> remove_first k (l ++ [k]) = l.
Proof.
  induction l as [|k' l IH]; simpl; intros H.
  - by rewrite Z.eqb_refl.
  - apply not_elem_of_cons in H as [Hk Hl].
    destruct (Z.eqb_spec k' k); [done|]. by rewrite IH.
Qed.

Lemma remove_unit_spec g name h uid :
  remove_unit g name h uid
  = match hex_at g name h with
    | Some hx =>
        if bool_decide (uid ∈ units hx)
        then (store_hex g name h (set_units hx (remove_first uid (units hx))), true)
        else (g, false)
    | None => (g, false)
    end.
Proof.
  unfold remove_unit, hex_at. destruct (systems g !! name); [|done]. done.
Qed.

Lemma add_unit_spec g name h uid :
  add_unit g name h uid
  = match hex_at g name h with
    | Some hx => (store_hex g name h (set_units hx (units hx ++ [uid])), true)
    | None => (g, false)
    end.
Proof.
  unfold add_unit, hex_at. destruct (systems g !! name); [|done]. done.
Qed.

Lemma hex_at_is_Some g name h x : hex_at g name h = Some x -> is_Some (systems g !! name).
Proof. unfold hex_at. destruct (systems g !! name); [eauto|done]. Qed.

(** X24.  [StarSystem.add_unit] fails only when the hex does not exist,
    and then changes nothing.  When it succeeds the unit is listed last
    in the hex, and removing a unit that was not listed there before
    gives the galaxy back as it was. *)
Theorem add_then_remove_unit :
  forall (g : Galaxy) (name : string) (h : HexCoord) (uid : Z),
    match hex_at g name h with
    | None => add_unit g name h uid = (g, false)
    | Some hx =>
        exists g1,
          add_unit g name h uid = (g1, true)
          /\ (units <$> hex_at g1 name h) = Some (units hx ++ [uid])
          /\ (uid ∉ units hx -> remove_unit g1 name h uid = (g, true))
    end.
Proof.
  intros g name h uid. rewrite add_unit_spec.
  destruct (hex_at g name h) as [hx|] eqn:Hh; [|done].
  pose proof (hex_at_is_Some _ _ _ _ Hh) as Hs.
  eexists. split; [done|]. split.
  - rewrite hex_at_store_hex by done. by rewrite bool_decide_eq_true_2.
  - intros Hn. rewrite remove_unit_spec, hex_at_store_hex by done.
    rewrite bool_decide_eq_true_2 by done. simpl.
    rewrite bool_decide_eq_true_2 by (apply elem_of_app; right; apply list_elem_of_singleton; done).
    rewrite store_hex_twice, remove_first_last by done.
    f_equal. apply store_hex_same. rewrite Hh. by destruct hx.
Qed.

(** X25.  [StarSystem.move_unit_between_hexes] is all or nothing.  When
    it answers [False] the world is as it was.  When it answers [True]
    the unit was listed in its hex, which differs from the destination;
    it now says it is in the destination hex of the system, one
    listing of it is gone from the old hex and a new one stands last in
    the destination, and every other hex is as it was. *)
Theorem move_unit_between_hexes_all_or_nothing :
  forall (w : World) (name : string) (destination_hex : HexCoord) w' (b : bool),
    move_unit_between_hexes w name destination_hex = (w', b) ->
    (b = false -> w' = w)
    /\ (b = true ->
        let u := unit w in
        in_hex u <> destination_hex
        /\ unit w' = set_in_hex (set_in_system u (Some name)) destination_hex
        /\ exists origin destination,
             hex_at (galaxy w) name (in_hex u) = Some origin
             /\ hex_at (galaxy w) name destination_hex = Some destination
             /\ id u ∈ units origin
             /\ hex_at (galaxy w') name (in_hex u)
                = Some (set_units origin (remove_first (id u) (units origin)))
             /\ hex_at (galaxy w') name destination_hex
                = Some (set_units destination (units destination ++ [id u]))
             /\ (forall name' h,
                   (name', h) <> (name, in_hex u) ->
                   (name', h) <> (name, destination_hex) ->
                   hex_at (galaxy w') name' h = hex_at (galaxy w) name' h)).
Proof.
  intros w name dest w' b. unfold move_unit_between_hexes.
  destruct (decide (in_hex (unit w) = dest)) as [He|Hne].
  { rewrite bool_decide_eq_true_2 by done. by intros [= <- <-]. }
  rewrite bool_decide_eq_false_2 by done.
  destruct (systems (galaxy w) !! name) as [s|] eqn:Hs; [|by intros [= <- <-]].
  destruct (hexes s !! dest) as [hd|] eqn:Hd.
  2: { rewrite bool_decide_eq_false_2 by (by intros [? ?]). by intros [= <- <-]. }
  rewrite bool_decide_eq_true_2 by eauto. simpl.
  rewrite remove_unit_spec.
  assert (hex_at (galaxy w) name dest = Some hd) as Hd'.
  { unfold hex_at. by rewrite Hs. }
  destruct (hex_at (galaxy w) name (in_hex (unit w))) as [ho|] eqn:Ho;
    [|by intros [= <- <-]].
  destruct (decide (id (unit w) ∈ units ho)) as [Hin|Hnin].
  2: { rewrite bool_decide_eq_false_2 by done. by intros [= <- <-]. }
  rewrite bool_decide_eq_true_2 by done. simpl.
  assert (is_Some (systems (galaxy w) !! name)) as Hsome by eauto.
  rewrite add_unit_spec. simpl.
  rewrite hex_at_store_hex by done.
  rewrite bool_decide_eq_false_2 by (intros [_ ?]; by apply Hne).
  rewrite Hd'. intros [= <- <-]. split; [done|]. intros _. cbv zeta.
  split; [done|]. split; [by destruct (unit w)|].
  exists ho, hd. simpl.
  assert (is_Some (systems (store_hex (galaxy w) name (in_hex (unit w))
             (set_units ho (remove_first (id (unit w)) (units ho)))) !! name)) as Hsome'.
  { unfold store_hex. rewrite Hs. simpl. rewrite lookup_insert_eq. eauto. }
  split_and!; try done.
  - rewrite !hex_at_store_hex by done.
    rewrite bool_decide_eq_false_2 by (intros [_ ?]; by apply Hne).
    by rewrite bool_decide_eq_true_2.
  - rewrite hex_at_store_hex by done. by rewrite bool_decide_eq_true_2.
  - intros name' h H1 H2. rewrite !hex_at_store_hex by done.
    rewrite bool_decide_eq_false_2 by (intros [-> ->]; by apply H2).
    rewrite bool_decide_eq_false_2 by (intros [-> ->]; by apply H1). done.
Qed.

Lemma move_unit_between_hexes_all_or_nothing_witness :
  in_hex (unit (sample_world idle_drive)) <> (1, 0)
  /\ exists w',
       move_unit_between_hexes (sample_world idle_drive) "Sol" (1, 0) = (w', true)
       /\ in_hex (unit w') = (1, 0).
Proof.
  assert (exists w', move_unit_between_hexes (sample_world idle_drive) "Sol" (1, 0)
                     = (w', true)) as [w' H].
  { eexists. vm_compute. reflexivity. }
  destruct (move_unit_between_hexes_all_or_nothing _ _ _ _ _ H) as [_ H2].
  destruct (H2 eq_refl) as (Hne & Hu & _).
  split; [exact Hne|]. exists w'. split; [exact H|]. by rewrite Hu.
Defined.

End ListingFacts.

(** ** Jumps, damage and construction during a turn *)

Module TurnFacts.
Import Geometry Entities Components Game Orders CommanderComponent Turn.
Import GeometryFacts OrderFacts CommanderFacts DriveFacts Samples ListingFacts CommanderMore.

(** *** The hex jump *)

Lemma move_unit_between_hexes_unit w name dest w' b :
  move_unit_between_hexes w name dest = (w', b) ->
  (b = false -> w' = w)
  /\ (b = true ->
      in_hex (unit w) <> dest
      /\ unit w' = set_in_hex (set_in_system (unit w) (Some name)) dest).
Proof.
  unfold move_unit_between_hexes.
  destruct (decide (in_hex (unit w) = dest)) as [He|Hne].
  { rewrite bool_decide_eq_true_2 by done. by intros [= <- <-]. }
  rewrite bool_decide_eq_false_2 by done.
  destruct (systems (galaxy w) !! name) as [s|] eqn:Hs; [|by intros [= <- <-]].
  destruct (hexes s !! dest) as [hd|] eqn:Hd.
  2: { rewrite bool_decide_eq_false_2 by (by intros [? ?]). by intros [= <- <-]. }
  rewrite bool_decide_eq_true_2 by eauto. simpl.
  rewrite remove_unit_spec.
  assert (hex_at (galaxy w) name dest = Some hd) as Hd'.
  { unfold hex_at. by rewrite Hs. }
  destruct (hex_at (galaxy w) name (in_hex (unit w))) as [ho|] eqn:Ho;
    [|by intros [= <- <-]].
  destruct (decide (id (unit w) ∈ units ho)) as [Hin|Hnin].
  2: { rewrite bool_decide_eq_false_2 by done. by intros [= <- <-]. }
  rewrite bool_decide_eq_true_2 by done. simpl.
  rewrite add_unit_spec. simpl.
  rewrite hex_at_store_hex by eauto.
  rewrite bool_decide_eq_false_2 by (intros [_ ?]; by apply Hne).
  rewrite Hd'. intros [= <- <-]. split; [done|]. intros _.
  split; [done|]. by destruct (unit w).
Qed.

(** X26.  What a hex jump can do to a unit whose drive is READY (or was
    left JUMPING).  Either the jump takes place: the unit is in the
    target hex at the target position, the drive is CHARGING for its
    full RECHARGE_DURATION with both targets cleared, the target hex
    was another hex within [jump_range], and neither the old position
    nor the target position lay in an inhibition zone.  Or the drive is
    in ERROR: the unit is still in its hex and system and the galaxy is
    unchanged.  In both cases no hex-jump target is left. *)
Theorem execute_hex_jump_outcome :
  forall (w : World) (target_hex : HexCoord) (target_pos : Position) (w' : World)
         (hd : Hyperdrive),
    hyperdrive_component (unit w) = Some hd ->
    jump_status hd = READY \/ jump_status hd = JUMPING ->
    execute_hex_jump w target_hex target_pos = Ok w' ->
    exists hd',
      hyperdrive_component (unit w') = Some hd'
      /\ hex_jump_target hd' = None
      /\ ((jump_status hd' = CHARGING
           /\ recharge_time_remaining hd' = RECHARGE_DURATION hd
           /\ wormhole_jump_target hd' = None
           /\ in_hex (unit w') = target_hex
           /\ in_system (unit w') = in_system (unit w)
           /\ position (unit w') = target_pos
           /\ in_hex (unit w) <> target_hex
           /\ HexPath.hex_distance (in_hex (unit w)) target_hex <= jump_range hd
           /\ exists name origin destination,
                in_system (unit w) = Some name
                /\ hex_at (galaxy w) name (in_hex (unit w)) = Some origin
                /\ hex_at (galaxy w) name target_hex = Some destination
                /\ inhibited origin (position (unit w)) = false
                /\ inhibited destination target_pos = false)
          \/ (jump_status hd' = ERROR
              /\ wormhole_jump_target hd' = wormhole_jump_target hd
              /\ in_hex (unit w') = in_hex (unit w)
              /\ in_system (unit w') = in_system (unit w)
              /\ galaxy w' = galaxy w
              /\ (position (unit w') = position (unit w)
                  \/ position (unit w') = target_pos))).
Proof.
  intros w th tp w' hd Hhd Hst. unfold execute_hex_jump.
  destruct (in_system (unit w)) as [name|] eqn:Hsys; [|done].
  intros H. apply bind_Ok in H as (sys & Hs & H). rewrite Hhd in H.
  assert (begin_jump hd = Some (set_jump_status hd JUMPING)) as Hb.
  { unfold begin_jump. by destruct Hst as [-> | ->]. }
  rewrite Hb in H. clear Hb.
  assert (systems (galaxy w) !! name = Some sys) as Hs'.
  { unfold systems_index in Hs. by destruct (systems (galaxy w) !! name); simplify_eq. }
  simpl in H.
  destruct (hex_jump_target hd) as [t|] eqn:Ht.
  2: { injection H as <-. simpl. eexists. split; [done|]. simpl.
       split; [done|]. right. split_and!; try done. by left. }
  destruct (hexes sys !! th) as [hdest|] eqn:Hdest.
  2: { rewrite bool_decide_eq_false_2 in H by (by intros [? ?]). simpl in H.
       injection H as <-. simpl. eexists. split; [done|]. simpl.
       split; [done|]. right. split_and!; try done. by left. }
  rewrite bool_decide_eq_true_2 in H by eauto. simpl in H.
  destruct (Z.ltb_spec (jump_range hd) (HexPath.hex_distance (in_hex (unit w)) th))
    as [Hfar|Hnear].
  { injection H as <-. simpl. eexists. split; [done|]. simpl.
    split; [done|]. right. split_and!; try done. by left. }
  apply bind_Ok in H as (origin & Ho & H).
  assert (hexes sys !! in_hex (unit w) = Some origin) as Ho'.
  { unfold hexes_index in Ho. by destruct (hexes sys !! in_hex (unit w)); simplify_eq. }
  destruct (inhibited origin (position (unit w))) eqn:Hio.
  { injection H as <-. simpl. eexists. split; [done|]. simpl.
    split; [done|]. right. split_and!; try done. by left. }
  apply bind_Ok in H as (destination & Hd & H).
  assert (destination = hdest) as ->.
  { unfold hexes_index in Hd. rewrite Hdest in Hd. by simplify_eq. }
  destruct (inhibited hdest tp) eqn:Hid.
  { injection H as <-. simpl. eexists. split; [done|]. simpl.
    split; [done|]. right. split_and!; try done. by left. }
  destruct (move_unit_between_hexes _ name th) as [w2 moved] eqn:Hm.
  apply move_unit_between_hexes_unit in Hm as [Hf Ht'].
  destruct moved; injection H as <-.
  - destruct (Ht' eq_refl) as [Hne Hu]. simpl in Hne, Hu.
    eexists. split; [done|]. simpl. split; [done|]. left.
    rewrite Hu. simpl. split_and!; try done.
    exists name, origin, hdest. unfold hex_at. rewrite Hs'. simpl. done.
  - rewrite (Hf eq_refl). simpl. eexists. split; [done|]. simpl.
    split; [done|]. right. split_and!; try done. by right.
Qed.

(** A drive that is READY with a jump to the next hex queued. *)
Definition ready_drive : Hyperdrive :=
  mkHyperdrive BASIC 5 (Some ((1, 0), origin)) None READY 0 3.

Lemma execute_hex_jump_outcome_witness :
  exists w' hd',
    execute_hex_jump (sample_world ready_drive) (1, 0) origin = Ok w'
    /\ hyperdrive_component (unit w') = Some hd'
    /\ hex_jump_target hd' = None.
Proof.
  assert (exists w', execute_hex_jump (sample_world ready_drive) (1, 0) origin = Ok w')
    as [w' H].
  { eexists. vm_compute. reflexivity. }
  destruct (execute_hex_jump_outcome (sample_world ready_drive) (1, 0) origin w'
              ready_drive eq_refl (or_introl eq_refl) H)
    as (hd' & H1 & H2 & _).
  exists w', hd'. split; [exact H|]. split; [exact H1|exact H2].
Defined.

(** *** A drive in ERROR *)

Lemma take_damage_in_hex w r n : in_hex (unit (take_damage w r n)) = in_hex (unit w).
Proof. unfold take_damage. repeat case_match; done. Qed.

Lemma fire_turrets_in_hex ts w : in_hex (unit (fire_turrets ts w).2) = in_hex (unit w).
Proof.
  revert w. induction ts as [|t rest IH]; intros w; simpl; [done|].
  set (step := match target t ≫= resolve w with None => (t, w) | Some r => _ end).
  assert (in_hex (unit step.2) = in_hex (unit w)) as Hs.
  { unfold step, fire. repeat case_match; simpl; try done. apply take_damage_in_hex. }
  destruct step as [t1 w1]. simpl in Hs.
  specialize (IH w1). destruct (fire_turrets rest w1) as [rest1 w2]. simpl in *.
  congruence.
Qed.

Lemma Weapons_update_in_hex weapons w :
  in_hex (unit (Weapons_update weapons w)) = in_hex (unit w).
Proof.
  unfold Weapons_update.
  pose proof (fire_turrets_in_hex (Turret_update <$> turrets weapons) w) as H.
  destruct (fire_turrets _ w) as [ts w1]. exact H.
Qed.

Lemma Constructor_update_in_hex c w :
  in_hex (unit (Constructor_update c w)) = in_hex (unit w).
Proof.
  unfold Constructor_update, create_unit_from_template, add_unit.
  repeat case_match; done.
Qed.

Lemma Unit_update_in_hex depth s s' :
  Unit_update depth s = Ok s' -> in_hex (unit (world s')) = in_hex (unit (world s)).
Proof.
  unfold Unit_update. cbv zeta.
  set (w1 := with_unit (world s) _).
  set (w2 := match weapons_component (unit w1) with Some _ => _ | None => _ end).
  set (w3 := match constructor_component (unit w2) with Some _ => _ | None => _ end).
  intros H. apply bind_Ok in H as ([c w4] & Hc & H). injection H as <-. simpl.
  apply commander_update_unmoved in Hc as (_ & _ & _ & _ & -> & _).
  assert (in_hex (unit w2) = in_hex (unit w1)) as H2.
  { unfold w2. repeat case_match; try done. apply Weapons_update_in_hex. }
  assert (in_hex (unit w3) = in_hex (unit w2)) as H3.
  { unfold w3. repeat case_match; try done. apply Constructor_update_in_hex. }
  rewrite H3, H2. done.
Qed.

Lemma resolve_movement_in_hex w name sys h w' m :
  resolve_movement w name sys h = Ok (w', m) -> in_hex (unit w') = in_hex (unit w).
Proof.
  unfold resolve_movement. intros H.
  repeat (first [ progress inv_bind | case_match; try discriminate ]); done.
Qed.

Lemma execute_hex_jump_error w h p hd w' :
  hyperdrive_component (unit w) = Some hd -> jump_status hd = ERROR ->
  execute_hex_jump w h p = Ok w' -> w' = w.
Proof.
  unfold execute_hex_jump. intros Hd He H.
  destruct (in_system (unit w)); [|done].
  apply bind_Ok in H as (sys & _ & H). rewrite Hd in H.
  unfold begin_jump in H. rewrite He in H. by injection H as <-.
Qed.

Lemma execute_system_jump_error w name hd w' :
  hyperdrive_component (unit w) = Some hd -> jump_status hd = ERROR ->
  execute_system_jump w name = Ok w' -> w' = w.
Proof.
  unfold execute_system_jump. intros Hd He H.
  destruct (in_system (unit w)); [|done].
  apply bind_Ok in H as (sys & _ & H). rewrite Hd in H.
  unfold begin_jump in H. rewrite He in H. by injection H as <-.
Qed.

(** X27.  A hyperdrive in ERROR stays in ERROR.  A whole turn of the
    game leaves the status ERROR and the recharge countdown as they
    are, and the unit in its hex: its queued jumps are skipped, and
    nothing in the turn resets the status. *)
Theorem error_drive_never_recovers :
  forall (depth : nat) (player : Z) (c : Commander) (w : World) (s' : State)
         (hd : Hyperdrive),
    hyperdrive_component (unit w) = Some hd ->
    jump_status hd = ERROR ->
    process_turn depth player (Turn.mkState c w) = Ok s' ->
    in_hex (unit (world s')) = in_hex (unit w)
    /\ exists hd',
         hyperdrive_component (unit (world s')) = Some hd'
         /\ jump_status hd' = ERROR
         /\ recharge_time_remaining hd' = recharge_time_remaining hd.
Proof.
  intros depth player c w s' hd Hhd He. unfold process_turn. simpl. intros H.
  case_bool_decide; [injection H as <-; simpl; eauto|].
  apply bind_Ok in H as (w1 & H1 & H).
  assert (in_hex (unit w1) = in_hex (unit w)
          /\ hyperdrive_component (unit w1) = Some hd) as [Hh1 Hd1].
  { destruct (find_unit_hex _ _) as [[name h]|]; [|by injection H1 as <-].
    case_bool_decide; [|by injection H1 as <-].
    apply bind_Ok in H1 as (sys & _ & H1).
    apply bind_Ok in H1 as ([w0 m] & Hr & H1).
    pose proof (resolve_movement_in_hex _ _ _ _ _ _ Hr) as Hh0.
    apply resolve_movement_drive in Hr as (_ & Hd0 & _). rewrite Hhd in Hd0.
    destruct m as [[target|th tp]|].
    - apply (execute_system_jump_error _ _ hd) in H1; [by subst|done..].
    - apply (execute_hex_jump_error _ _ _ hd) in H1; [by subst|done..].
    - by injection H1 as <-. }
  clear H1. simpl in H.
  assert (in_hex (unit (world s')) = in_hex (unit w1)
          /\ exists hd',
               hyperdrive_component (unit (world s')) = Some hd'
               /\ jump_status hd' = ERROR
               /\ recharge_time_remaining hd' = recharge_time_remaining hd) as [Hh Hd];
    [|split; [congruence|done]].
  repeat case_match; try (injection H as <-; simpl; by eauto).
  split; [by apply Unit_update_in_hex in H|].
  apply Unit_update_steps in H as (wa & wb & _ & _ & Ha & (_ & _ & Hb) & (_ & _ & Hc)).
  simpl in Ha. rewrite Hd1 in Ha. simpl in Ha.
  assert (update_recharge hd = hd) as Hu.
  { unfold update_recharge. by rewrite He. }
  rewrite Hu in Ha. rewrite Hb, Ha in Hc.
  destruct (hyperdrive_component (unit (world s'))) as [hd'|]; [|done].
  exists hd'. destruct Hc as (Hc1 & Hc2 & _). split_and!; congruence.
Qed.

(** A drive that has failed. *)
Definition failed_drive : Hyperdrive :=
  mkHyperdrive BASIC 5 (Some ((1, 0), origin)) None ERROR 0 3.

Lemma error_drive_never_recovers_witness :
  exists s' hd',
    process_turn 3 0 (Turn.mkState (mkCommander None []) (sample_world failed_drive))
    = Ok s'
    /\ in_hex (unit (world s')) = (0, 0)
    /\ hyperdrive_component (unit (world s')) = Some hd'
    /\ jump_status hd' = ERROR.
Proof.
  assert (exists s',
            process_turn 3 0 (Turn.mkState (mkCommander None [])
                                (sample_world failed_drive)) = Ok s') as [s' H].
  { eexists. vm_compute. reflexivity. }
  destruct (error_drive_never_recovers 3 0 (mkCommander None [])
              (sample_world failed_drive) s' failed_drive eq_refl eq_refl H)
    as (Hh & hd' & H1 & H2 & _).
  exists s', hd'. split; [exact H|]. split; [exact Hh|]. split; [exact H1|exact H2].
Defined.

(** *** The CONSTRUCT order *)

Local Open Scope R_scope.

Lemma find_player_charge ps k c :
  find_player (charge ps k c) k
  = (fun p => mkPlayer (player_id p) (credits p - c)) <$> find_player ps k.
Proof.
  unfold find_player, charge. induction ps as [|p ps IH]; simpl; [done|].
  destruct (Z.eqb_spec (player_id p) k) as [E|E]; simpl.
  - by rewrite E, Z.eqb_refl.
  - destruct (Z.eqb_spec (player_id p) k); [done|]. exact IH.
Qed.

(** X28.  What a CONSTRUCT order costs.  [_execute_construct] takes the
    price from the owner and then calls [start_construction], which
    tests the balance and takes the price again.  So with less than
    the price the order fails and nothing changes; with at least the
    price but less than twice the price the owner pays once, no
    construction starts and the order is COMPLETED all the same; and
    with twice the price or more the owner pays twice and the
    construction starts. *)
Theorem construct_order_charges_twice :
  forall (params : Parameters) (w : World) (constructor : Constructor) (name : string)
         (pos : Position) (buildable : BuildableUnit) (player : Player),
    constructor_component (unit w) = Some constructor ->
    get (unit_template_name params) = Some name ->
    name <> EmptyString ->
    get (target_position params) = Some pos ->
    can_build constructor name = Some buildable ->
    find_player (players w) (owner (unit w)) = Some player ->
    let cost := IZR (cost_credits buildable) in
    let balance (w' : World) := credits <$> find_player (players w') (owner (unit w')) in
    (credits player < cost -> _execute_construct params w = Ok (w, FAILED))
    /\ (cost <= credits player < 2 * cost ->
        exists w',
          _execute_construct params w = Ok (w', COMPLETED)
          /\ balance w' = Some (credits player - cost)
          /\ constructor_component (unit w') = Some constructor)
    /\ (cost <= credits player -> 2 * cost <= credits player ->
        exists w',
          _execute_construct params w = Ok (w', COMPLETED)
          /\ balance w' = Some (credits player - 2 * cost)
          /\ constructor_component (unit w')
             = Some {| buildable_units := buildable_units constructor;
                       current_construction_target := Some (name, pos);
                       construction_progress := 0;
                       time_to_build := bu_time_to_build buildable |}).
Proof.
  intros params w c name pos bu player Hc Hn Hne Hp Hb Hf. cbv zeta.
  unfold _execute_construct. rewrite Hc, Hn, Hp.
  rewrite bool_decide_eq_false_2 by done. rewrite Hb, Hf.
  pose proof (find_player_charge (players w) (owner (unit w)) (IZR (cost_credits bu)))
    as Hf1. rewrite Hf in Hf1. simpl in Hf1.
  split_and!.
  - intros Hlt. apply Rltb_true in Hlt. by rewrite Hlt.
  - intros [H1 H2]. apply Rltb_false in H1. rewrite H1.
    unfold start_construction. rewrite Hb, Hf1. simpl.
    assert (Rltb (credits player - IZR (cost_credits bu)) (IZR (cost_credits bu)) = true)
      as ->.
    { apply Rltb_true. lra. }
    eexists. split; [done|]. simpl. by rewrite Hf1.
  - intros H1 H2. apply Rltb_false in H1. rewrite H1.
    unfold start_construction. rewrite Hb, Hf1. simpl.
    assert (Rltb (credits player - IZR (cost_credits bu)) (IZR (cost_credits bu)) = false)
      as ->.
    { apply Rltb_false. lra. }
    eexists. split; [done|]. simpl. rewrite find_player_charge, Hf1. simpl.
    split; [|done]. f_equal. lra.
Qed.

(** Unit 1 with a constructor that builds stations, and the order to
    build one. *)
Definition station : BuildableUnit := mkBuildable "STATION_MK1" 10 500.

Definition builder : Constructor := mkConstructor [station] None 0 0.

Definition builder_world : World :=
  mkWorld (mkUnit 1 0 true (Some "Sol"%string) (0, 0)%Z origin 100
                  (Some (mkEngines 100 None)) (Some idle_drive) None
                  None None (Some builder))
          sample_galaxy ∅ [mkPlayer 0 2000] 2 10 (fun _ => 0) 0.

Definition build_station : Parameters :=
  mkParameters Absent Absent Absent Absent Absent Absent Absent
               (Val "STATION_MK1"%string) (Val origin).

Lemma construct_order_charges_twice_witness :
  exists w',
    _execute_construct build_station builder_world = Ok (w', COMPLETED)
    /\ credits <$> find_player (players w') (owner (unit w')) = Some (2000 - 2 * 500)
    /\ constructor_component (unit w')
       = Some (mkConstructor [station] (Some ("STATION_MK1"%string, origin)) 0 10).
Proof.
  refine (proj2 (proj2 (construct_order_charges_twice build_station builder_world builder
                          "STATION_MK1" origin station (mkPlayer 0 2000)
                          eq_refl eq_refl _ eq_refl eq_refl eq_refl)) _ _).
  - discriminate.
  - simpl. lra.
  - simpl. lra.
Defined.

Local Close Scope R_scope.

(** *** Damage *)

Lemma resolve_ref_id w k r : resolve w k = Some r -> ref_id w r = k.
Proof.
  unfold resolve. destruct (Z.eqb_spec k (id (unit w))) as [->|Hne].
  - by intros [= <-].
  - destruct (other_units w !! k); [|done]. by intros [= <-].
Qed.

(** X29.  [Unit.take_damage] on a unit that a turret targets.  The hit
    points become the old ones less the damage, but not less than
    zero.  A unit that keeps hit points stays where it is listed and
    the galaxy is unchanged.  A unit that is left without hit points,
    has a galaxy and is listed in the hex of the system it says it is
    in, loses one listing there and its [in_system].  The players and
    the object counter are not touched. *)
Theorem take_damage_outcome :
  forall (w : World) (k : Z) (r : UnitRef) (amount_value : Z),
    resolve w k = Some r ->
    let hp := ref_current_hit_points w r in
    let w' := take_damage w r amount_value in
    players w' = players w
    /\ object_counter w' = object_counter w
    /\ exists r',
         resolve w' k = Some r'
         /\ ref_current_hit_points w' r' = Z.max 0 (hp - amount_value)
         /\ ref_in_hex w' r' = ref_in_hex w r
         /\ (amount_value < hp ->
             galaxy w' = galaxy w /\ ref_in_system w' r' = ref_in_system w r)
         /\ (hp <= amount_value ->
             forall name hx,
               match r with Self => in_galaxy (unit w) | Other _ o => ou_in_galaxy o end
               = true ->
               ref_in_system w r = Some name ->
               name <> EmptyString ->
               hex_at (galaxy w) name (ref_in_hex w r) = Some hx ->
               k ∈ units hx ->
               ref_in_system w' r' = None
               /\ hex_at (galaxy w') name (ref_in_hex w r)
                  = Some (set_units hx (remove_first k (units hx)))).
Proof.
  intros w k r a Hr. cbv zeta.
  pose proof (resolve_ref_id _ _ _ Hr) as Hid.
  assert (forall hp0, (if hp0 <? 0 then 0 else hp0) = Z.max 0 hp0) as Hmax.
  { intros hp0. destruct (Z.ltb_spec hp0 0); lia. }
  assert (forall hp0, (Z.max 0 hp0 =? 0) = (hp0 <=? 0)) as Hzero.
  { intros hp0. destruct (Z.eqb_spec (Z.max 0 hp0) 0), (Z.leb_spec hp0 0); lia. }
  unfold take_damage. rewrite Hmax, Hzero, Hid.
  set (hp := ref_current_hit_points w r).
  set (res := if (hp - a <=? 0) && _ then _ else _).
  assert (forall name hx,
            hp <= a ->
            match r with Self => in_galaxy (unit w) | Other _ o => ou_in_galaxy o end = true ->
            ref_in_system w r = Some name -> name <> EmptyString ->
            hex_at (galaxy w) name (ref_in_hex w r) = Some hx -> k ∈ units hx ->
            res = (store_hex (galaxy w) name (ref_in_hex w r)
                     (set_units hx (remove_first k (units hx))), None)) as Hdead.
  { intros name hx Hle Hg Hs Hn Hh Hk. unfold res.
    destruct (Z.leb_spec (hp - a) 0); [|lia]. rewrite Hg, Hs. simpl.
    rewrite bool_decide_eq_false_2 by done.
    destruct (hex_at_is_Some _ _ _ _ Hh) as [sys Hsys]. rewrite Hsys.
    rewrite remove_unit_spec, Hh. by rewrite bool_decide_eq_true_2. }
  assert (a < hp -> res = (galaxy w, ref_in_system w r)) as Halive.
  { intros Hlt. unfold res. destruct (Z.leb_spec (hp - a) 0); [lia|done]. }
  clearbody res. destruct res as [g1 sys1].
  unfold resolve in *.
  destruct r as [|k' o]; simpl in *.
  - destruct (Z.eqb_spec k (id (unit w))) as [Hk|Hk]; [|by subst].
    split; [done|]. split; [done|]. exists Self. simpl. split_and!; try done.
    + intros Hlt. by injection (Halive Hlt) as -> ->.
    + intros Hle name hx Hg Hs Hn Hh Hin.
      injection (Hdead name hx Hle Hg Hs Hn Hh Hin) as -> ->.
      split; [done|]. rewrite hex_at_store_hex by (by eapply hex_at_is_Some).
      by rewrite bool_decide_eq_true_2.
  - destruct (Z.eqb_spec k (id (unit w))) as [Hk|Hk]; [done|].
    destruct (other_units w !! k) as [o'|] eqn:Ho; [|done]. injection Hr as <- <-.
    split; [done|]. split; [done|]. rewrite lookup_insert_eq. simpl.
    eexists. split; [done|]. simpl. split_and!; try done.
    + intros Hlt. by injection (Halive Hlt) as -> ->.
    + intros Hle name hx Hg Hs Hn Hh Hin.
      injection (Hdead name hx Hle Hg Hs Hn Hh Hin) as -> ->.
      split; [done|]. rewrite hex_at_store_hex by (by eapply hex_at_is_Some).
      by rewrite bool_decide_eq_true_2.
Qed.

Lemma take_damage_outcome_witness :
  players (take_damage (sample_world idle_drive) Self 130)
  = players (sample_world idle_drive)
  /\ object_counter (take_damage (sample_world idle_drive) Self 130)
     = object_counter (sample_world idle_drive)
  /\ exists r',
       resolve (take_damage (sample_world idle_drive) Self 130) 1 = Some r'
       /\ ref_current_hit_points (take_damage (sample_world idle_drive) Self 130) r'
          = Z.max 0 (100 - 130).
Proof.
  destruct (take_damage_outcome (sample_world idle_drive) 1 Self 130 eq_refl)
    as (H1 & H2 & r' & H3 & H4 & _).
  split; [exact H1|]. split; [exact H2|]. exists r'. split; [exact H3|exact H4].
Defined.

(** *** Construction *)

(** The constructor's step of [Unit.update]. *)
Definition build_turn (w : World) : World :=
  match constructor_component (unit w) with
  | Some c => if in_galaxy (unit w) then Constructor_update c w else w
  | None => w
  end.

(** The world with [n] turns of work done on the construction. *)
Definition at_work (w : World) (c : Constructor) (n : Z) : World :=
  with_unit w
    (set_constructor (unit w)
       (Some {| buildable_units := buildable_units c;
                current_construction_target := current_construction_target c;
                construction_progress := n;
                time_to_build := time_to_build c |})).

Lemma build_turn_at_work w c name pos n :
  in_galaxy (unit w) = true ->
  current_construction_target c = Some (name, pos) ->
  n + 1 < time_to_build c ->
  build_turn (at_work w c n) = at_work w c (n + 1).
Proof.
  intros Hg Ht Hn. unfold build_turn, at_work, Constructor_update. simpl.
  rewrite Hg, Ht.
  destruct (Z.leb_spec (time_to_build c) (n + 1)); [lia|]. done.
Qed.

Lemma at_work_iter w c name pos (k : nat) :
  in_galaxy (unit w) = true ->
  current_construction_target c = Some (name, pos) ->
  Z.of_nat k < time_to_build c ->
  Nat.iter k build_turn (at_work w c 0) = at_work w c (Z.of_nat k).
Proof.
  intros Hg Ht. induction k as [|k IH]; intros Hk; [done|].
  simpl Nat.iter. rewrite IH by lia.
  rewrite (build_turn_at_work _ _ name pos) by (done || lia). f_equal. lia.
Qed.

Lemma at_work_start w c :
  constructor_component (unit w) = Some c ->
  at_work w c (construction_progress c) = w.
Proof.
  intros Hc. unfold at_work. destruct w as [u g o p oc rc rs rd]. simpl in *.
  unfold with_unit. simpl. f_equal. destruct u. simpl in *. subst.
  unfold set_constructor. simpl. f_equal. by destruct c.
Qed.

(** X30.  A construction takes [time_to_build] turns of a unit that
    has its galaxy set.  From the state that [start_construction]
    leaves, with progress zero, the first
    [time_to_build - 1] turns only count up the progress.  The next
    turn (the first one, when [time_to_build] is below two) ends the
    construction and resets the constructor.  If the template is known
    and the builder is in a system of the galaxy, that turn creates
    one unit: it takes the next object id, stands at the target
    position in the builder's hex with the hit points of its hull, has
    no galaxy set, and is listed last in that hex when the hex exists.
    Otherwise nothing is created. *)
Theorem construction_takes_time_to_build :
  forall (w : World) (c : Constructor) (name : string) (pos : Position),
    in_galaxy (unit w) = true ->
    constructor_component (unit w) = Some c ->
    current_construction_target c = Some (name, pos) ->
    construction_progress c = 0 ->
    let t := time_to_build c in
    let last := Z.to_nat (Z.max 1 t - 1) in
    let before := Nat.iter last build_turn w in
    let after := build_turn before in
    (forall k : nat, Z.of_nat k < t -> Nat.iter k build_turn w = at_work w c (Z.of_nat k))
    /\ before = at_work w c (Z.of_nat last)
    /\ constructor_component (unit after)
       = Some {| buildable_units := buildable_units c;
                 current_construction_target := None;
                 construction_progress := 0;
                 time_to_build := 0 |}
    /\ match template_hit_points name, in_system (unit w) with
       | Some hp, Some sys =>
           if bool_decide (is_Some (systems (galaxy w) !! sys)) then
             object_counter after = object_counter w + 1
             /\ other_units after
                = <[object_counter w :=
                      {| ou_in_galaxy := false; ou_in_system := Some sys;
                         ou_in_hex := in_hex (unit w); ou_position := pos;
                         ou_current_hit_points := hp |}]> (other_units w)
             /\ galaxy after = (add_unit (galaxy w) sys (in_hex (unit w)) (object_counter w)).1
           else
             object_counter after = object_counter w
             /\ other_units after = other_units w /\ galaxy after = galaxy w
       | _, _ =>
           object_counter after = object_counter w
           /\ other_units after = other_units w /\ galaxy after = galaxy w
       end.
Proof.
  intros w c name pos Hg Hc Ht Hp. cbv zeta.
  pose proof (at_work_start w c Hc) as Hw. rewrite Hp in Hw.
  assert (forall k : nat, Z.of_nat k < time_to_build c ->
            Nat.iter k build_turn w = at_work w c (Z.of_nat k)) as Hrun.
  { intros k Hk. rewrite <- Hw at 1. by apply (at_work_iter _ _ name pos). }
  assert (Nat.iter (Z.to_nat (Z.max 1 (time_to_build c) - 1)) build_turn w
          = at_work w c (Z.of_nat (Z.to_nat (Z.max 1 (time_to_build c) - 1)))) as Hlast.
  { destruct (Z.le_gt_cases (time_to_build c) 1) as [Hle|Hgt].
    - replace (Z.max 1 (time_to_build c) - 1) with 0 by lia.
      change (w = at_work w c 0). by rewrite Hw.
    - apply Hrun. lia. }
  split; [exact Hrun|]. split; [exact Hlast|]. rewrite Hlast.
  set (n := Z.of_nat _).
  assert (time_to_build c <= n + 1) as Hn by (unfold n; lia). clearbody n.
  unfold build_turn, at_work, Constructor_update. simpl. rewrite Hg, Ht.
  destruct (Z.leb_spec (time_to_build c) (n + 1)); [|lia].
  unfold create_unit_from_template. simpl.
  destruct (template_hit_points name) as [hp|]; [|done].
  destruct (in_system (unit w)) as [sys|]; [|done].
  destruct (systems (galaxy w) !! sys) as [s|] eqn:Hs.
  - rewrite bool_decide_eq_true_2 by eauto.
    destruct (add_unit (galaxy w) sys (in_hex (unit w)) (object_counter w)) as [g1 b].
    done.
  - rewrite bool_decide_eq_false_2 by (by intros [? ?]). done.
Qed.

Lemma construction_takes_time_to_build_witness :
  constructor_component
    (unit (build_turn (Nat.iter 9 build_turn
                         (at_work builder_world
                            (mkConstructor [station] (Some ("STATION_MK1"%string, origin)) 0 10)
                            0))))
  = Some (mkConstructor [station] None 0 0).
Proof.
  exact (proj1 (proj2 (proj2 (construction_takes_time_to_build
                                (at_work builder_world
                                   (mkConstructor [station]
                                      (Some ("STATION_MK1"%string, origin)) 0 10) 0)
                                (mkConstructor [station]
                                   (Some ("STATION_MK1"%string, origin)) 0 10)
                                "STATION_MK1" origin eq_refl eq_refl eq_refl eq_refl)))).
Defined.

End TurnFacts.
